(** * tqdm.h: the concurrent progress-tracking core, embedded in Rocq

    The development follows [src/tqdm.h]:

    - [Double]            IEEE-754 binary64, the C++ [double] of the source;
    - [progress_tracker]  the shared counter, its ring of samples and the
                          rate estimator ([class progress_tracker]);
    - [progress_bar]      the bar, its render gate and its one-shot
                          finalization ([class progress_bar]), over a heap of
                          bars so that moves and aliasing can be stated;
    - [progress_range]    the iterator and range wrappers;
    - [tracker_threads], [bar_threads]
                          interleavings of the atomic operations of [advance],
                          [try_render] and [finish] run by several threads;
    - [tracker_history], [tracker_slots]
                          the ring of samples over a run of calls, by one
                          thread and by several;
    - [bar_members], [range_members]
                          the accessors and operators of the bar, the
                          iterator's other members and the factory [tqdm];
    - [render_lock], [bar_counter]
                          the render mutex and the counter of a bar shared by
                          threads;
    - [format], [bar_display]
                          [format_time], the themes and the cells of the bar
                          that [bar_display::render] draws;
    - [benchmark]         the loops of [src/benchmark.cpp] that drive a bar.

    Integers of the source are [Z] with their wrap-around written out
    ([wrap64] for [std::size_t]); time points are [Z] nanoseconds since the
    clock's epoch, and [std::chrono::duration_cast] truncates toward zero
    ([Z.quot]). *)

From Stdlib Require Import ZArith Lia Bool List.
From Stdlib Require Import Floats.SpecFloat Ascii.
From stdpp Require Import base option list gmap strings pretty.

Open Scope Z_scope.

(* ===================================================================== *)
(** * Machine integers *)

(** [std::size_t] arithmetic is arithmetic modulo 2^64. *)
Definition wrap64 (z : Z) : Z := z mod 2 ^ 64.

(** [std::numeric_limits<int64_t>::max()]. *)
Definition INT64_MAX : Z := 2 ^ 63 - 1.
Definition INT64_MIN : Z := - 2 ^ 63.

(** [std::chrono::duration_cast] from nanoseconds to a coarser period. *)
Definition to_microseconds (ns : Z) : Z := Z.quot ns 1000.
Definition to_milliseconds (ns : Z) : Z := Z.quot ns 1000000.

(* ===================================================================== *)
(** * IEEE-754 binary64 *)

Module Double.

Definition prec : Z := 53.
Definition emax : Z := 1024.

(** A C++ [double]. *)
Definition double : Type := spec_float.

(** [static_cast<double>(z)] for an integer [z]: round to nearest, ties to
    even. *)
Definition of_Z (z : Z) : double := binary_normalize prec emax z 0 false.

Definition mul (x y : double) : double := SFmul prec emax x y.
Definition div (x y : double) : double := SFdiv prec emax x y.
Definition ltb (x y : double) : bool := SFltb x y.
Definition leb (x y : double) : bool := SFleb x y.

(** The literals of the source. *)
Definition zero : double := S754_zero false.
Definition d100 : double := Eval cbv in of_Z 100.
Definition d1000 : double := Eval cbv in of_Z 1000.
Definition d1e6 : double := Eval cbv in of_Z 1000000.

(** [std::min(a, b)] is [(b < a) ? b : a]. *)
Definition min (a b : double) : double := if ltb b a then b else a.

Definition is_nan (x : double) : bool :=
  match x with S754_nan => true | _ => false end.

(** The sign bit of a number that is not a NaN. *)
Definition sign (x : double) : bool :=
  match x with
  | S754_zero s | S754_infinity s | S754_finite s _ _ => s
  | S754_nan => false
  end.

(** A number, and not a negative one: [+0], a positive finite number or
    [+inf]. *)
Definition nonneg (x : double) : bool := negb (is_nan x) && negb (sign x).

(** A finite number above zero. *)
Definition finite_pos (x : double) : bool :=
  match x with S754_finite false _ _ => true | _ => false end.

(** The integer part of a finite double (truncation toward zero). *)
Definition truncate (x : double) : option Z :=
  match x with
  | S754_zero _ => Some 0
  | S754_finite s m e =>
      Some (cond_Zopp s
              (match e with
               | Zneg p => Z.shiftr (Zpos m) (Zpos p)
               | _ => Z.shiftl (Zpos m) e
               end))
  | S754_infinity _ | S754_nan => None
  end.

(** [static_cast<int64_t>(x)]: the truncated value when [int64_t] can hold
    it; the conversion is undefined otherwise ([None]). *)
Definition to_int64 (x : double) : option Z :=
  match truncate x with
  | Some z => if (INT64_MIN <=? z) && (z <=? INT64_MAX) then Some z else None
  | None => None
  end.

(** A double below [2^k] in magnitude: a zero, or a finite number
    [m * 2^e] whose mantissa has [d] binary digits with [d + e <= k]. *)
Definition below (k : Z) (x : double) : Prop :=
  match x with
  | S754_zero _ => True
  | S754_finite _ m e => Zpos (digits2_pos m) + e <= k
  | S754_infinity _ | S754_nan => False
  end.

(** A finite double above zero that is [2^(k-1)] or more: [m * 2^e] with a
    mantissa of [d] binary digits and [k <= d + e]. *)
Definition at_least (k : Z) (x : double) : Prop :=
  match x with
  | S754_finite false m e => k <= Zpos (digits2_pos m) + e
  | _ => False
  end.

(** A mantissa of 53 binary digits at most, as that of a double. *)
Definition short (x : double) : Prop :=
  match x with
  | S754_finite _ m _ => Zpos (digits2_pos m) <= prec
  | _ => True
  end.

End Double.

Import Double.

(* ===================================================================== *)
(** * The progress tracker *)

Module progress_tracker.

Definition HISTORY_SIZE : Z := 64.

(** One slot of the ring: two independent atomics. *)
Record history_entry : Type := mk_entry {
  progress : Z;     (* std::atomic<std::size_t> *)
  timestamp : Z     (* std::atomic<int64_t>, microseconds since start *)
}.

Record stats_cache : Type := mk_cache {
  rate : double;
  elapsed_ms : Z;
  last_update : Z   (* time point *)
}.

Record t : Type := mk {
  current_ : Z;
  total_ : Z;
  start_time_ : Z;
  history_ : list history_entry;
  history_index_ : Z;
  cache_ : stats_cache
}.

Definition empty_entry : history_entry := mk_entry 0 0.

(** [explicit progress_tracker(std::size_t total)]; [now] is the reading of
    the clock taken by the member initializer. The cache's time point is
    value-initialized (the epoch). *)
Definition create (total now : Z) : t :=
  mk 0 (wrap64 total) now
     (replicate (Z.to_nat HISTORY_SIZE) empty_entry)
     0
     (mk_cache zero 0 0).

Definition set_history (h : list history_entry) (tr : t) : t :=
  mk (current_ tr) (total_ tr) (start_time_ tr) h (history_index_ tr) (cache_ tr).

Definition get_entry (h : list history_entry) (i : nat) : history_entry :=
  nth i h empty_entry.

(** [history_[idx].progress.store(p)] and [history_[idx].timestamp.store(ts)]. *)
Definition store_progress (idx : nat) (p : Z) (h : list history_entry)
  : list history_entry :=
  <[idx := mk_entry p (timestamp (get_entry h idx))]> h.

Definition store_timestamp (idx : nat) (ts : Z) (h : list history_entry)
  : list history_entry :=
  <[idx := mk_entry (progress (get_entry h idx)) ts]> h.

(** [void advance(std::size_t n)], run without interruption; [now] is the
    reading of the clock. *)
Definition advance (n now : Z) (tr : t) : t :=
  let new_progress := wrap64 (current_ tr + n) in
  let idx := Z.to_nat (history_index_ tr mod HISTORY_SIZE) in
  let ts := to_microseconds (now - start_time_ tr) in
  mk new_progress (total_ tr) (start_time_ tr)
     (store_timestamp idx ts (store_progress idx new_progress (history_ tr)))
     (wrap64 (history_index_ tr + 1))
     (cache_ tr).

Definition set_total (total : Z) (tr : t) : t :=
  mk (current_ tr) (wrap64 total) (start_time_ tr) (history_ tr)
     (history_index_ tr) (cache_ tr).

Definition current (tr : t) : Z := current_ tr.
Definition total (tr : t) : Z := total_ tr.

(** [double percentage() const]. *)
Definition percentage (tr : t) : double :=
  let t := total_ tr in
  if t =? 0 then zero
  else
    let c := current_ tr in
    Double.min (div (mul d100 (of_Z c)) (of_Z t)) d100.

(** The four locals of the scan in [get_rate]. *)
Record scan : Type := mk_scan {
  oldest_idx : nat;
  oldest_time : Z;
  newest_idx : nat;
  newest_time : Z
}.

Definition scan_init : scan := mk_scan 0 INT64_MAX 0 0.

(** The body of the [for] loop of [get_rate] at index [i]. *)
Definition scan_step (h : list history_entry) (s : scan) (i : nat) : scan :=
  let time := timestamp (get_entry h i) in
  if 0 <? time then
    let s1 :=
      if time <? oldest_time s
      then mk_scan i time (newest_idx s) (newest_time s)
      else s in
    if newest_time s1 <? time
    then mk_scan (oldest_idx s1) (oldest_time s1) i time
    else s1
  else s.

(** [for (i = 0; i < entries_to_check; ++i)]. *)
Definition scan_history (h : list history_entry) (entries_to_check : nat)
  : scan :=
  fold_left (scan_step h) (seq 0 entries_to_check) scan_init.

Definition entries_to_check (tr : t) : nat :=
  Z.to_nat (Z.min HISTORY_SIZE (history_index_ tr)).

(** The rate [get_rate] computes once the cache is stale. *)
Definition estimate (tr : t) : double :=
  let h := history_ tr in
  let s := scan_history h (entries_to_check tr) in
  if (oldest_time s <? newest_time s)
     && negb (Nat.eqb (newest_idx s) (oldest_idx s))
  then
    let progress_diff :=
      wrap64 (progress (get_entry h (newest_idx s))
              - progress (get_entry h (oldest_idx s))) in
    let time_diff := newest_time s - oldest_time s in
    if 0 <? time_diff
    then div (mul d1e6 (of_Z progress_diff)) (of_Z time_diff)
    else zero
  else zero.

(** The cache is fresh when it was written less than 100 ms ago. *)
Definition cache_fresh (now : Z) (tr : t) : bool :=
  to_milliseconds (now - last_update (cache_ tr)) <? 100.

(** [double get_rate() const]: the cache is [mutable], so the tracker is
    returned with the result. *)
Definition get_rate (now : Z) (tr : t) : double * t :=
  if cache_fresh now tr then (rate (cache_ tr), tr)
  else
    let r := estimate tr in
    (r, mk (current_ tr) (total_ tr) (start_time_ tr) (history_ tr)
           (history_index_ tr)
           (mk_cache r (to_milliseconds (now - start_time_ tr)) now)).

(** [std::chrono::milliseconds elapsed() const]. *)
Definition elapsed (now : Z) (tr : t) : Z :=
  to_milliseconds (now - start_time_ tr).

(** The operand [total_.load() - current_.load()] of [eta]. *)
Definition remaining (tr : t) : Z := wrap64 (total_ tr - current_ tr).

(** [std::chrono::milliseconds eta() const]: the count of milliseconds, when
    the conversion to [int64_t] is defined. *)
Definition eta (now : Z) (tr : t) : option Z * t :=
  let '(r, tr') := get_rate now tr in
  if leb r zero then (Some 0, tr')
  else
    let eta_seconds := div (of_Z (remaining tr')) r in
    (to_int64 (mul eta_seconds d1000), tr').

(** The counters hold [std::size_t] values. *)
Definition counters_fit (tr : t) : Prop :=
  0 <= current_ tr < 2 ^ 64 /\ 0 <= total_ tr < 2 ^ 64.

(** The history holds [int64_t] timestamps. *)
Definition timestamps_fit (tr : t) : Prop :=
  Forall (fun e => timestamp e <= INT64_MAX) (history_ tr).

(** The timestamp of slot [j]. *)
Definition time_at (tr : t) (j : nat) : Z := timestamp (get_entry (history_ tr) j).


(** What the scan has found after the first [k] slots. *)
Definition scanned (h : list history_entry) (k : nat) (s : scan) : Prop :=
  (forall j, (j < k)%nat -> 0 < timestamp (get_entry h j) ->
             oldest_time s <= timestamp (get_entry h j) <= newest_time s) /\
  0 <= newest_time s /\
  oldest_time s <= INT64_MAX /\
  (0 < newest_time s ->
   (newest_idx s < k)%nat /\
   timestamp (get_entry h (newest_idx s)) = newest_time s) /\
  (oldest_time s < INT64_MAX ->
   (oldest_idx s < k)%nat /\
   timestamp (get_entry h (oldest_idx s)) = oldest_time s /\
   0 < oldest_time s) /\
  (forall j, (j < newest_idx s)%nat -> 0 < timestamp (get_entry h j) ->
             timestamp (get_entry h j) < newest_time s) /\
  (forall j, (j < oldest_idx s)%nat -> 0 < timestamp (get_entry h j) ->
             oldest_time s < timestamp (get_entry h j)).

End progress_tracker.

(* ===================================================================== *)
(** * The progress bar *)

Module progress_bar.

(** The render collaborator behind [std::unique_ptr<display_policy>]: the
    default [bar_display] or a display supplied by the caller. *)
Inductive display_policy : Type :=
  | bar_display
  | user_display (id : nat).

(** A call dispatched to the collaborator, with the tracker it was handed.
    The collaborator takes the tracker by reference to const: all it can
    change there is the [mutable] cache, which [get_rate] and [eta]
    refresh when [bar_display::render] reads them. The bar does not depend
    on the cache and its model passes over these writes: the tracker of a
    bar stands for the tracker of the source up to its cache. *)
Inductive event : Type :=
  | Render (d : display_policy) (tr : progress_tracker.t)
  | Finish (d : display_policy) (tr : progress_tracker.t).

Definition is_finish (e : event) : bool :=
  match e with Finish _ _ => true | Render _ _ => false end.

Definition is_render (e : event) : bool :=
  match e with Render _ _ => true | Finish _ _ => false end.

(** The number of terminal renders in a log. *)
Definition finishes (log : list event) : nat := length (filter is_finish log).

Record t : Type := mk {
  tracker_ : option progress_tracker.t;   (* std::unique_ptr, null = None *)
  display_ : option display_policy;       (* std::unique_ptr, null = None *)
  finished_ : bool;
  last_render_time_ : Z;
  render_mutex_ : option nat              (* the thread that holds it *)
}.

(** [min_render_interval.count()], milliseconds. *)
Definition min_render_interval : Z := 33.

(** What one call of [advance] reads from its environment: the clock in
    [progress_tracker::advance], the clock in [try_render], and whether
    [compare_exchange_weak] is spared a spurious failure. *)
Record oracle : Type := mk_oracle {
  now_advance : Z;
  now_render : Z;
  cas_ok : bool
}.

(** [explicit progress_bar(T total, std::unique_ptr<display_policy> display)];
    [tty] is the value of [is_tty()]. *)
Definition create (tty : bool) (total : Z) (display : option display_policy)
    (now : Z) : t * list event :=
  let tr := progress_tracker.create total now in
  let d := match display with Some d => d | None => bar_display end in
  (mk (Some tr) (Some d) false 0 None,
   if tty then [Render d tr] else []).

(** [void finish()]. *)
Definition finish (tty : bool) (b : t) : t * list event :=
  if finished_ b then (b, [])
  else
    let b' := mk (tracker_ b) (display_ b) true (last_render_time_ b)
                 (render_mutex_ b) in
    match tty, tracker_ b, display_ b with
    | true, Some tr, Some d => (b', [Finish d tr])
    | _, _, _ => (b', [])
    end.

(** [void try_render()]. *)
Definition try_render (tty : bool) (now : Z) (cas_succeeds : bool) (b : t)
  : t * list event :=
  match tty, tracker_ b, display_ b with
  | true, Some tr, Some d =>
      let now_ms := to_milliseconds now in
      let last_ms := last_render_time_ b in
      if min_render_interval <=? now_ms - last_ms then
        if cas_succeeds then
          (mk (tracker_ b) (display_ b) (finished_ b) now_ms (render_mutex_ b),
           [Render d tr])
        else (b, [])
      else (b, [])
  | _, _, _ => (b, [])
  end.

(** [void advance(std::size_t n)]. *)
Definition advance (tty : bool) (n : Z) (o : oracle) (b : t)
  : t * list event :=
  let b1 :=
    match tracker_ b with
    | Some tr =>
        mk (Some (progress_tracker.advance n (now_advance o) tr))
           (display_ b) (finished_ b) (last_render_time_ b) (render_mutex_ b)
    | None => b
    end in
  try_render tty (now_render o) (cas_ok o) b1.

(** [~progress_bar()]: the body of the destructor; the members are released
    after it. *)
Definition destroy (tty : bool) (b : t) : t * list event :=
  if negb (finished_ b) && tty then finish tty b else (b, []).

(** What a move leaves behind in its source. *)
Definition moved_from (other : t) : t :=
  mk None None true (last_render_time_ other) (render_mutex_ other).

(** [progress_bar(progress_bar&& other)]: the new bar and the source. The
    mutex is not moved: the new bar has its own. *)
Definition move_construct (other : t) : t * t :=
  (mk (tracker_ other) (display_ other) (finished_ other)
      (last_render_time_ other) None,
   moved_from other).

(** Bars live at addresses; [operator=] compares addresses. *)
Abbreviation addr := nat (only parsing).
Abbreviation heap := (gmap nat t) (only parsing).

(** [progress_bar& operator=(progress_bar&& other)] on the bars at [this]
    and [other]; [None] when one of them is no bar. *)
Definition move_assign (this other : addr) (h : heap) : option heap :=
  match h !! this, h !! other with
  | Some a, Some o =>
      if decide (this = other) then Some h
      else
        Some (<[other := moved_from o]>
                (<[this := mk (tracker_ o) (display_ o) (finished_ o)
                              (last_render_time_ o) (render_mutex_ a)]> h))
  | _, _ => None
  end.

(** The destructor run on the bar at [a]: the events, and the heap without
    the bar. *)
Definition destroy_at (tty : bool) (a : addr) (h : heap)
  : option (heap * list event) :=
  match h !! a with
  | Some b => Some (delete a h, snd (destroy tty b))
  | None => None
  end.

(** A bar advanced by a sequence of calls [advance(n)], each with what it
    reads from its environment: the bar and the log. *)
Fixpoint advances (tty : bool) (calls : list (Z * oracle)) (b : t)
  : t * list event :=
  match calls with
  | [] => (b, [])
  | (n, o) :: calls' =>
      let '(b1, l1) := advance tty n o b in
      let '(b2, l2) := advances tty calls' b1 in
      (b2, l1 ++ l2)
  end.

(** The whole life of a bar that is never finished by hand: constructed,
    advanced, destroyed at the end of its scope. *)
Definition scoped (tty : bool) (total : Z) (display : option display_policy)
    (now : Z) (calls : list (Z * oracle)) : list event :=
  let '(b0, l0) := create tty total display now in
  let '(b1, l1) := advances tty calls b0 in
  l0 ++ l1 ++ snd (destroy tty b1).

(** The invariant of every bar: an active bar owns its tracker and its
    display. *)
Definition owns (b : t) : Prop :=
  finished_ b = false -> is_Some (tracker_ b) /\ is_Some (display_ b).

(** An active bar that owns a tracker and a display. *)
Definition active (b : t) : Prop :=
  finished_ b = false /\ is_Some (tracker_ b) /\ is_Some (display_ b).

End progress_bar.

(* ===================================================================== *)
(** * The iterator and range wrappers *)

Module progress_range.

Import progress_bar.

(** [progress_iterator<IterT, ProgressBarT>] over a container whose
    iterators are positions. *)
Record progress_iterator : Type := mk_iter {
  current_ : nat;
  end_ : nat;
  bar_ : option addr
}.

(** What the loop did, in order: calls of the bar's [advance] and what the
    bar dispatched to its display. *)
Inductive step : Type :=
  | Advanced (bar : addr)
  | Displayed (e : event).

Definition is_advanced (s : step) : bool :=
  match s with Advanced _ => true | Displayed _ => false end.

Definition advance_calls (tr : list step) : nat :=
  length (filter is_advanced tr).

(** [progress_iterator& operator++()]; the oracle is used when the bar is
    advanced. [None] when [bar_] dangles. *)
Definition incr (tty : bool) (o : oracle) (it : progress_iterator) (h : heap)
  : option (progress_iterator * heap * list step) :=
  let it' := mk_iter (S (current_ it)) (end_ it) (bar_ it) in
  match bar_ it with
  | Some a =>
      if Nat.eqb (current_ it') (end_ it') then Some (it', h, [])
      else
        match h !! a with
        | Some b =>
            let '(b', l) := progress_bar.advance tty 1 o b in
            Some (it', <[a := b']> h, Advanced a :: map Displayed l)
        | None => None
        end
  | None => Some (it', h, [])
  end.

(** [bool operator!=(const progress_iterator&) const]. *)
Definition neq (a b : progress_iterator) : bool :=
  negb (Nat.eqb (current_ a) (current_ b)).

(** [progress_range<ContainerT>]: the container and the address of the
    range's own bar. *)
Record t (A : Type) : Type := mk {
  container_ : list A;
  range_bar_ : addr
}.
Arguments mk {A}.
Arguments container_ {A}.
Arguments range_bar_ {A}.

(** The tracker of the bar at [a], when there is one. *)
Definition tracker_at (a : addr) (h : heap) : option progress_tracker.t :=
  match h !! a with
  | Some b => tracker_ b
  | None => None
  end.

(** [explicit progress_range(ContainerT& container)]: the bar is built at
    the fresh address [a] with the container's size as its total. *)
Definition create {A} (tty : bool) (container : list A) (a : addr) (now : Z)
    (h : heap) : t A * heap * list step :=
  let '(b, l) := progress_bar.create tty (Z.of_nat (length container)) None now in
  (mk container a, <[a := b]> h, map Displayed l).

Definition begin_ {A} (r : t A) : progress_iterator :=
  mk_iter 0 (length (container_ r)) (Some (range_bar_ r)).

Definition end_of {A} (r : t A) : progress_iterator :=
  mk_iter (length (container_ r)) (length (container_ r)) None.

(** [for (it = first; it != last; ++it) { ... }] with an empty body, for at
    most [fuel] rounds; [env k] is the oracle of the increment at position
    [k]. [None] when the fuel runs out or the bar dangles. *)
Fixpoint loop (fuel : nat) (tty : bool) (env : nat -> oracle)
    (it last : progress_iterator) (h : heap)
  : option (heap * list step) :=
  if neq it last then
    match fuel with
    | O => None
    | S fuel' =>
        match incr tty (env (current_ it)) it h with
        | Some (it', h', tr) =>
            match loop fuel' tty env it' last h' with
            | Some (h'', tr') => Some (h'', tr ++ tr')
            | None => None
            end
        | None => None
        end
    end
  else Some (h, []).

(** [for (auto&& x : tqdm(container)) { }]: the range is built, iterated
    from [begin()] to [end()]. *)
Definition for_each {A} (fuel : nat) (tty : bool) (env : nat -> oracle)
    (container : list A) (a : addr) (now : Z) (h : heap)
  : option (heap * list step) :=
  let '(r, h0, tr0) := create tty container a now h in
  match loop fuel tty env (begin_ r) (end_of r) h0 with
  | Some (h1, tr1) => Some (h1, tr0 ++ tr1)
  | None => None
  end.

End progress_range.

(* ===================================================================== *)
(** * Threads on one tracker *)

(** [advance] is five operations on the tracker's atomics and the clock.
    Threads run them one at a time, in any order the scheduler picks
    (the atomics of the source are [memory_order_relaxed]; each operation is
    indivisible on its own location). *)
Module tracker_threads.

Import progress_tracker.

(** Where a thread stands inside [advance(n)], with its locals. *)
Inductive pc : Type :=
  | Call                                          (* not inside a call *)
  | FetchedCurrent (new_progress : Z)             (* next: history_index_.fetch_add(1) *)
  | FetchedIndex (new_progress : Z) (idx : nat)   (* next: ClockT::now() *)
  | ReadClock (new_progress : Z) (idx : nat) (ts : Z)  (* next: progress.store *)
  | StoredProgress (idx : nat) (ts : Z).          (* next: timestamp.store *)

(** [current_.fetch_add(n) + n], the first operation of [advance(n)]. *)
Definition enter (n : Z) (tr : t) : pc * t :=
  let new_progress := wrap64 (current_ tr + n) in
  (FetchedCurrent new_progress,
   mk new_progress (total_ tr) (start_time_ tr) (history_ tr)
      (history_index_ tr) (cache_ tr)).

(** The next operation of a call under way; [now] is what the clock shows,
    should the operation read it. *)
Definition step_in (now : Z) (p : pc) (tr : t) : pc * t :=
  match p with
  | Call => (Call, tr)
  | FetchedCurrent np =>
      (FetchedIndex np (Z.to_nat (history_index_ tr mod HISTORY_SIZE)),
       mk (current_ tr) (total_ tr) (start_time_ tr) (history_ tr)
          (wrap64 (history_index_ tr + 1)) (cache_ tr))
  | FetchedIndex np idx =>
      (ReadClock np idx (to_microseconds (now - start_time_ tr)), tr)
  | ReadClock np idx ts =>
      (StoredProgress idx ts,
       set_history (store_progress idx np (history_ tr)) tr)
  | StoredProgress idx ts =>
      (Call, set_history (store_timestamp idx ts (history_ tr)) tr)
  end.

(** A thread: where it stands, and the arguments of the calls of [advance]
    it has still to make. *)
Record thread : Type := mk_thread {
  at_ : pc;
  pending : list Z
}.

Definition step (now : Z) (th : thread) (tr : t) : option (thread * t) :=
  match at_ th, pending th with
  | Call, [] => None
  | Call, n :: rest =>
      let '(p, tr') := enter n tr in Some (mk_thread p rest, tr')
  | p, rest =>
      let '(p', tr') := step_in now p tr in Some (mk_thread p' rest, tr')
  end.

Definition done (th : thread) : bool :=
  match at_ th, pending th with
  | Call, [] => true
  | _, _ => false
  end.

Record state : Type := mk_state {
  tracker : t;
  threads : list thread
}.

(** The scheduler's pick: the thread that runs its next operation, and the
    reading of the clock at that moment. A pick of a thread that does not
    exist or has returned from its last call changes nothing. *)
Definition run_one (st : state) (pick : nat * Z) : state :=
  let '(tid, now) := pick in
  match threads st !! tid with
  | Some th =>
      match step now th (tracker st) with
      | Some (th', tr') => mk_state tr' (<[tid := th']> (threads st))
      | None => st
      end
  | None => st
  end.

Definition run (schedule : list (nat * Z)) (st : state) : state :=
  fold_left run_one schedule st.

Definition all_done (st : state) : bool := forallb done (threads st).

(** Threads that have not started, one per list of arguments. *)
Definition spawn (calls : list (list Z)) : list thread :=
  map (mk_thread Call) calls.

Definition sum (ns : list Z) : Z := fold_right Z.add 0 ns.

(** The increments a thread has still to add to the counter. *)
Definition owed (th : thread) : Z := sum (pending th).

Definition owed_all (ths : list thread) : Z := sum (map owed ths).

(** The operations a thread has still to run. *)
Definition rank (p : pc) : nat :=
  match p with
  | Call => 0
  | FetchedCurrent _ => 4
  | FetchedIndex _ _ => 3
  | ReadClock _ _ _ => 2
  | StoredProgress _ _ => 1
  end.

Definition work (th : thread) : nat := (rank (at_ th) + 5 * length (pending th))%nat.

Definition work_all (ths : list thread) : nat :=
  fold_right Nat.add 0%nat (map work ths).

(** One schedule that runs every thread to its end: thread after thread. *)
Definition solo (tid : nat) (now : Z) (th : thread) : list (nat * Z) :=
  replicate (work th) (tid, now).

Fixpoint in_turn (tid : nat) (now : Z) (ths : list thread) : list (nat * Z) :=
  match ths with
  | [] => []
  | th :: rest => solo tid now th ++ in_turn (S tid) now rest
  end.

End tracker_threads.

(* ===================================================================== *)
(** * Threads on one bar *)

(** Worker threads share one bar by reference and call [advance] and
    [finish] on it. Each call is cut into its operations on the bar's
    atomics, its mutex, the clock and the display. *)
Module bar_threads.

Import progress_bar.

(** A call a thread makes on the bar. *)
Inductive op : Type :=
  | Advance (n : Z)
  | FinishOp.

(** What the run leaves in its trace, newest first. *)
Inductive action : Type :=
  | Won (tid : nat)                    (* finished_ went from false to true *)
  | Granted (tid : nat) (now_ms : Z)   (* last_render_time_ replaced by now_ms *)
  | Dispatched (tid : nat) (e : event).  (* a call of the display *)

(** Where a thread stands, with its locals. *)
Inductive pc : Type :=
  | Idle                                 (* between two calls *)
  | InAdvance (p : tracker_threads.pc)   (* inside tracker_->advance(n) *)
  | Gate                                 (* try_render: next is its guard *)
  | GateClock                            (* next: steady_clock::now() *)
  | GateLoad (now_ms : Z)                (* next: last_render_time_.load() and the window check *)
  | GateCas (now_ms last_ms : Z)         (* next: compare_exchange_weak(last_ms, now_ms) *)
  | RenderLock                           (* next: lock render_mutex_ *)
  | RenderCall                           (* next: display_->render *)
  | RenderUnlock
  | FinCheck                             (* finish: won; next is its guard *)
  | FinLock
  | FinCall                              (* next: display_->finish *)
  | FinUnlock.

Record thread : Type := mk_thread {
  at_ : pc;
  pending : list op
}.

Record state : Type := mk_state {
  bar : progress_bar.t;
  trace : list action;
  threads : list thread
}.

(** The scheduler's pick: the thread that runs its next operation, what the
    clock shows, and whether a [compare_exchange_weak] run now is spared a
    spurious failure. *)
Record choice : Type := mk_choice {
  who : nat;
  clock : Z;
  weak_ok : bool
}.

Definition set_tracker (tr : progress_tracker.t) (b : progress_bar.t) : progress_bar.t :=
  progress_bar.mk (Some tr) (display_ b) (finished_ b) (last_render_time_ b) (render_mutex_ b).

Definition set_finished (b : progress_bar.t) : progress_bar.t :=
  progress_bar.mk (tracker_ b) (display_ b) true (last_render_time_ b) (render_mutex_ b).

Definition set_last (ms : Z) (b : progress_bar.t) : progress_bar.t :=
  progress_bar.mk (tracker_ b) (display_ b) (finished_ b) ms (render_mutex_ b).

Definition set_mutex (m : option nat) (b : progress_bar.t) : progress_bar.t :=
  progress_bar.mk (tracker_ b) (display_ b) (finished_ b) (last_render_time_ b) m.

(** A [std::unique_ptr] in a condition: [true] unless it is null. *)
Definition present {A : Type} (p : option A) : bool :=
  match p with Some _ => true | None => false end.

(** [is_tty() && tracker_ && display_]. *)
Definition can_display (tty : bool) (b : progress_bar.t) : bool :=
  tty && present (tracker_ b) && present (display_ b).

(** The next operation of a thread at [p] with [rest] still to call:
    the thread after it, the bar after it and what it adds to the trace;
    [None] when the thread waits for the mutex or has nothing left to do. *)
Definition step (tty : bool) (c : choice) (p : pc) (rest : list op)
    (b : progress_bar.t) : option (thread * progress_bar.t * list action) :=
  let tid := who c in
  match p with
  | Idle =>
      match rest with
      | [] => None
      | Advance n :: rest' =>
          match tracker_ b with
          | Some tr =>
              let '(p', tr') := tracker_threads.enter n tr in
              Some (mk_thread (InAdvance p') rest', set_tracker tr' b, [])
          | None => Some (mk_thread Gate rest', b, [])
          end
      | FinishOp :: rest' =>
          if finished_ b then Some (mk_thread Idle rest', b, [])
          else Some (mk_thread FinCheck rest', set_finished b, [Won tid])
      end
  | InAdvance q =>
      match tracker_ b with
      | Some tr =>
          let '(q', tr') := tracker_threads.step_in (clock c) q tr in
          Some (mk_thread
                  (match q' with
                   | tracker_threads.Call => Gate
                   | _ => InAdvance q'
                   end) rest,
                set_tracker tr' b, [])
      | None => Some (mk_thread Gate rest, b, [])
      end
  | Gate =>
      Some (mk_thread (if can_display tty b then GateClock else Idle) rest, b, [])
  | GateClock =>
      Some (mk_thread (GateLoad (to_milliseconds (clock c))) rest, b, [])
  | GateLoad now_ms =>
      let last_ms := last_render_time_ b in
      Some (mk_thread
              (if min_render_interval <=? now_ms - last_ms
               then GateCas now_ms last_ms else Idle) rest,
            b, [])
  | GateCas now_ms last_ms =>
      if (last_render_time_ b =? last_ms) && weak_ok c
      then Some (mk_thread RenderLock rest, set_last now_ms b, [Granted tid now_ms])
      else Some (mk_thread Idle rest, b, [])
  | RenderLock =>
      match render_mutex_ b with
      | None => Some (mk_thread RenderCall rest, set_mutex (Some tid) b, [])
      | Some _ => None
      end
  | RenderCall =>
      match tracker_ b, display_ b with
      | Some tr, Some d =>
          Some (mk_thread RenderUnlock rest, b, [Dispatched tid (Render d tr)])
      | _, _ => Some (mk_thread RenderUnlock rest, b, [])
      end
  | RenderUnlock => Some (mk_thread Idle rest, set_mutex None b, [])
  | FinCheck =>
      Some (mk_thread (if can_display tty b then FinLock else Idle) rest, b, [])
  | FinLock =>
      match render_mutex_ b with
      | None => Some (mk_thread FinCall rest, set_mutex (Some tid) b, [])
      | Some _ => None
      end
  | FinCall =>
      match tracker_ b, display_ b with
      | Some tr, Some d =>
          Some (mk_thread FinUnlock rest, b, [Dispatched tid (Finish d tr)])
      | _, _ => Some (mk_thread FinUnlock rest, b, [])
      end
  | FinUnlock => Some (mk_thread Idle rest, set_mutex None b, [])
  end.

(** A pick of a thread that does not exist, has nothing left to do or waits
    for the mutex changes nothing. *)
Definition run_one (tty : bool) (st : state) (c : choice) : state :=
  match threads st !! who c with
  | Some th =>
      match step tty c (at_ th) (pending th) (bar st) with
      | Some (th', b', acts) =>
          mk_state b' (acts ++ trace st) (<[who c := th']> (threads st))
      | None => st
      end
  | None => st
  end.

Definition run (tty : bool) (schedule : list choice) (st : state) : state :=
  fold_left (run_one tty) schedule st.

Definition done (th : thread) : bool :=
  match at_ th, pending th with
  | Idle, [] => true
  | _, _ => false
  end.

Definition all_done (st : state) : bool := forallb done (threads st).

(** Threads that have not started, one per list of calls, on the bar [b]. *)
Definition start (b : progress_bar.t) (calls : list (list op)) : state :=
  mk_state b [] (map (mk_thread Idle) calls).

(** Readings of the trace. *)
Definition is_won (a : action) : bool :=
  match a with Won _ => true | _ => false end.

Definition wins (tr : list action) : nat := length (filter is_won tr).

Definition is_terminal (a : action) : bool :=
  match a with Dispatched _ (Finish _ _) => true | _ => false end.

Definition terminal_renders (tr : list action) : nat :=
  length (filter is_terminal tr).

Definition is_plain_render (a : action) : bool :=
  match a with Dispatched _ (Render _ _) => true | _ => false end.

Definition renders (tr : list action) : nat := length (filter is_plain_render tr).

(** The timestamps the gate granted, newest first. *)
Fixpoint grants (tr : list action) : list Z :=
  match tr with
  | [] => []
  | Granted _ ms :: tr' => ms :: grants tr'
  | _ :: tr' => grants tr'
  end.

(** No two of the timestamps lie within one interval of each other: each is
    at least [min_render_interval] after all the older ones. *)
Fixpoint apart (gs : list Z) : Prop :=
  match gs with
  | [] => True
  | g :: older => Forall (fun g' => min_render_interval <= g - g') older /\ apart older
  end.

Definition is_finish_op (o : op) : bool :=
  match o with FinishOp => true | Advance _ => false end.

(** The calls of [finish] a thread has not begun. *)
Definition finish_calls (th : thread) : nat := length (filter is_finish_op (pending th)).

Definition finish_calls_all (ths : list thread) : nat :=
  fold_right Nat.add 0%nat (map finish_calls ths).

(** A thread that has won the flag and not yet called the display. *)
Definition owes_finish (th : thread) : nat :=
  match at_ th with
  | FinCheck | FinLock | FinCall => 1
  | _ => 0
  end.

Definition owes_finish_all (ths : list thread) : nat :=
  fold_right Nat.add 0%nat (map owes_finish ths).

(** A thread that the gate let through and that has not yet called the
    display. *)
Definition owes_render (th : thread) : nat :=
  match at_ th with
  | RenderLock | RenderCall => 1
  | _ => 0
  end.

Definition owes_render_all (ths : list thread) : nat :=
  fold_right Nat.add 0%nat (map owes_render ths).

(** A thread past a guard that found the bar displayable. *)
Definition past_guard (th : thread) : bool :=
  match at_ th with
  | FinLock | FinCall | FinUnlock
  | GateClock | GateLoad _ | GateCas _ _
  | RenderLock | RenderCall | RenderUnlock => true
  | _ => false
  end.

(** A thread about to run the gate's compare-and-swap has passed the
    window check with the timestamps it holds. *)
Definition window_ok (th : thread) : Prop :=
  match at_ th with
  | GateCas now_ms last_ms => min_render_interval <= now_ms - last_ms
  | _ => True
  end.

(** The guards: the bar stays displayable or not, and no thread is past a
    guard of a bar that is not. *)
Definition inv_guard (tty cd : bool) (st : state) : Prop :=
  can_display tty (bar st) = cd /\
  (cd = false -> Forall (fun th => past_guard th = false) (threads st)).

(** The one-shot flag: [n] calls of [finish] were there at the start. *)
Definition inv_finish (cd : bool) (n : nat) (st : state) : Prop :=
  wins (trace st) = (if finished_ (bar st) then 1 else 0)%nat /\
  (finished_ (bar st) = true \/ finish_calls_all (threads st) = n) /\
  (terminal_renders (trace st) + (if cd then owes_finish_all (threads st) else 0)
   = (if cd then wins (trace st) else 0))%nat.

(** The thread that dispatches the terminal operation is the one that won
    the flag: a thread that owes the dispatch has its [Won] in the trace,
    and so has every thread that has dispatched. *)
Definition inv_winner (st : state) : Prop :=
  (forall (i : nat) (th : thread),
      threads st !! i = Some th -> owes_finish th = 1%nat ->
      In (Won i) (trace st)) /\
  (forall (tid : nat) (d : display_policy) (tr : progress_tracker.t),
      In (Dispatched tid (Finish d tr)) (trace st) -> In (Won tid) (trace st)).

(** The gate. *)
Definition inv_gate (cd : bool) (st : state) : Prop :=
  apart (grants (trace st)) /\
  Forall (fun g => g <= last_render_time_ (bar st)) (grants (trace st)) /\
  Forall window_ok (threads st) /\
  (renders (trace st) + owes_render_all (threads st)
   = length (grants (trace st)))%nat.

(** A bound on the operations a thread has still to run. *)
Definition rank (p : pc) : nat :=
  match p with
  | Idle => 0
  | InAdvance q => 8 + tracker_threads.rank q
  | Gate => 7
  | GateClock => 6
  | GateLoad _ => 5
  | GateCas _ _ => 4
  | RenderLock => 3
  | RenderCall => 2
  | RenderUnlock => 1
  | FinCheck => 4
  | FinLock => 3
  | FinCall => 2
  | FinUnlock => 1
  end.

Definition cost (o : op) : nat :=
  match o with Advance _ => 13 | FinishOp => 5 end.

Definition work (th : thread) : nat :=
  (rank (at_ th) + fold_right Nat.add 0 (map cost (pending th)))%nat.

(** The mutex is free unless the thread itself holds it. *)
Definition mutex_ok (th : thread) (b : progress_bar.t) : Prop :=
  match at_ th with
  | RenderCall | RenderUnlock | FinCall | FinUnlock => True
  | _ => render_mutex_ b = None
  end.

(** One schedule that runs every thread to its end: thread after thread. *)
Definition solo (tid : nat) (now : Z) (th : thread) : list choice :=
  replicate (work th) (mk_choice tid now true).

Fixpoint in_turn (tid : nat) (now : Z) (ths : list thread) : list choice :=
  match ths with
  | [] => []
  | th :: rest => solo tid now th ++ in_turn (S tid) now rest
  end.

(** The display's calls in a trace, oldest first. *)
Definition dispatched (tr : list action) : list event :=
  rev (omap (fun a => match a with Dispatched _ e => Some e | _ => None end) tr).

End bar_threads.

(* ===================================================================== *)
(** * The tracker over a run of calls *)

(** One thread calls [advance] again and again: what the ring holds then,
    and what the tracker's other members keep doing to it. *)
Module tracker_history.

Import progress_tracker.

(** Calls of [advance(n)] made one after the other; each call [(n, now)]
    comes with the reading of the clock it takes. *)
Definition advance_all (calls : list (Z * Z)) (tr : t) : t :=
  fold_left (fun tr c => advance (fst c) (snd c) tr) calls tr.

(** The counter after call [i] of the run (calls are numbered from 0). *)
Definition progress_after (tr : t) (calls : list (Z * Z)) (i : nat) : Z :=
  wrap64 (current_ tr + tracker_threads.sum (map fst (take (S i) calls))).

(** The microseconds since the start that call [i] computes. *)
Definition stamp (tr : t) (calls : list (Z * Z)) (i : nat) : Z :=
  to_microseconds (snd (nth i calls (0, 0)) - start_time_ tr).

(** The slot of the ring call [i] draws. *)
Definition slot (tr : t) (i : nat) : nat :=
  Z.to_nat ((history_index_ tr + Z.of_nat i) mod HISTORY_SIZE).

(** The clock of a call shows a time that [int64_t] microseconds since the
    start can hold. *)
Definition clock_fits (tr : t) (now : Z) : Prop :=
  INT64_MIN <= to_microseconds (now - start_time_ tr) <= INT64_MAX.

(** The clock of a run moves on: the first call comes at least a microsecond
    after the start, and every call at least a microsecond after the one
    before. *)
Definition ascending (tr : t) (calls : list (Z * Z)) : Prop :=
  0 < stamp tr calls 0 /\
  forall i, (S i < length calls)%nat -> stamp tr calls i < stamp tr calls (S i).

(** The oldest call of a run of [m] whose sample the ring still holds. *)
Definition oldest_kept (m : nat) : nat := (m - Nat.min m (Z.to_nat HISTORY_SIZE))%nat.

End tracker_history.

(* ===================================================================== *)
(** * The slots threads draw *)

Module tracker_slots.

Import progress_tracker tracker_threads.

(** The draws of a slot a thread has still to make: one for each call not
    yet begun, and one for a call that has added to the counter and not yet
    drawn. *)
Definition draws (th : thread) : Z :=
  Z.of_nat (length (pending th))
  + match at_ th with FetchedCurrent _ => 1 | _ => 0 end.

Definition draws_all (ths : list thread) : Z := sum (map draws ths).

(** The slot a thread holds after its draw lies in the ring. *)
Definition slot_in_ring (th : thread) : Prop :=
  match at_ th with
  | FetchedIndex _ idx | ReadClock _ idx _ | StoredProgress idx _ =>
      (idx < Z.to_nat HISTORY_SIZE)%nat
  | Call | FetchedCurrent _ => True
  end.

(** The number of calls a pool of threads makes. *)
Definition calls_made (calls : list (list Z)) : Z :=
  sum (map (fun c => Z.of_nat (length c)) calls).

(** The timestamp a thread carries from the clock to its store is no more
    than [int64_t] holds. *)
Definition stamp_fits (th : thread) : Prop :=
  match at_ th with
  | ReadClock _ _ ts | StoredProgress _ ts => ts <= INT64_MAX
  | Call | FetchedCurrent _ | FetchedIndex _ _ => True
  end.

(** The clock of a schedule shows, at every pick, a time whose microseconds
    since [start] are no more than [int64_t] holds. *)
Definition clocks_fit (start : Z) (schedule : list (nat * Z)) : Prop :=
  Forall (fun pick => to_microseconds (snd pick - start) <= INT64_MAX) schedule.

End tracker_slots.

(* ===================================================================== *)
(** * The bar's other members *)

Module bar_members.

Import progress_bar.

(** [progress_bar& operator++()] and [progress_bar& operator+=(std::size_t n)]. *)
Definition pre_increment (tty : bool) (o : oracle) (b : t) : t * list event :=
  advance tty 1 o b.

Definition add_assign (tty : bool) (n : Z) (o : oracle) (b : t) : t * list event :=
  advance tty n o b.

(** [std::size_t current() const] and [std::size_t total() const]. *)
Definition current (b : t) : Z :=
  match tracker_ b with
  | Some tr => progress_tracker.current tr
  | None => 0
  end.

Definition total (b : t) : Z :=
  match tracker_ b with
  | Some tr => progress_tracker.total tr
  | None => 0
  end.

(** [double percentage() const]. *)
Definition percentage (b : t) : double :=
  match tracker_ b with
  | Some tr => progress_tracker.percentage tr
  | None => zero
  end.

(** [double rate() const]; [get_rate] writes the tracker's cache. *)
Definition rate (now : Z) (b : t) : double * t :=
  match tracker_ b with
  | Some tr =>
      let '(r, tr') := progress_tracker.get_rate now tr in
      (r, mk (Some tr') (display_ b) (finished_ b) (last_render_time_ b)
             (render_mutex_ b))
  | None => (zero, b)
  end.

(** [void force_render()]. *)
Definition force_render (tty : bool) (b : t) : list event :=
  match tty, tracker_ b, display_ b with
  | true, Some tr, Some d => [Render d tr]
  | _, _, _ => []
  end.

(** The calls of a run as the tracker sees them: the increment and the
    clock of [progress_tracker::advance]. *)
Definition tracker_calls (calls : list (Z * oracle)) : list (Z * Z) :=
  map (fun c => (fst c, now_advance (snd c))) calls.

(** The display a log was dispatched to: every event went to [d]. *)
Definition sent_to (d : display_policy) (e : event) : Prop :=
  match e with Render d' _ | Finish d' _ => d' = d end.

(** The members of a tracker that a display cannot alter. [render] and
    [finish] take the tracker by reference to const; [bar_display::render]
    reads the rate and the eta from it, and [get_rate] rewrites the
    [mutable] cache, which is all a display can change. What a bar's
    tracker holds after a call of the display is therefore stated of these
    members, and not of the cache. *)
Definition counters (tr : progress_tracker.t)
  : Z * Z * Z * list progress_tracker.history_entry * Z :=
  (progress_tracker.current_ tr, progress_tracker.total_ tr,
   progress_tracker.start_time_ tr, progress_tracker.history_ tr,
   progress_tracker.history_index_ tr).


End bar_members.

(* ===================================================================== *)
(** * The render mutex *)

Module render_lock.

Import progress_bar bar_threads.

(** A thread between the lock and the unlock of [render_mutex_]: inside
    the [std::lock_guard] of [try_render] or of [finish]. *)
Definition holds (th : thread) : bool :=
  match at_ th with
  | RenderCall | RenderUnlock | FinCall | FinUnlock => true
  | _ => false
  end.

(** The mutex is held by the thread inside a guard, and by no other. *)
Definition inv_mutex (st : state) : Prop :=
  (forall (i : nat) (th : thread),
      threads st !! i = Some th -> holds th = true ->
      render_mutex_ (bar st) = Some i) /\
  (forall tid : nat,
      render_mutex_ (bar st) = Some tid ->
      exists th, threads st !! tid = Some th /\ holds th = true).

(** A thread that can run its next operation under the pick [c]. *)
Definition can_step (tty : bool) (st : state) (c : choice) : Prop :=
  exists th, threads st !! who c = Some th /\
             is_Some (step tty c (at_ th) (pending th) (bar st)).

End render_lock.

(* ===================================================================== *)
(** * Formatting *)

Module format.

(** [std::string format_time(std::chrono::milliseconds ms)]; [ms] is the
    count of the duration. The divisions are those of C++, which truncate
    toward zero; an integer is written in decimal. *)
Definition format_time (ms : Z) : string :=
  let seconds := Z.quot ms 1000 in
  let minutes := Z.quot seconds 60 in
  let hours := Z.quot minutes 60 in
  if 0 <? hours then
    pretty hours +:+ "h" +:+ pretty (Z.rem minutes 60) +:+ "m"
  else if 0 <? minutes then
    pretty minutes +:+ "m" +:+ pretty (Z.rem seconds 60) +:+ "s"
  else
    pretty seconds +:+ "s".

(** The letters that end a field in the text of [format_time]. *)
Definition is_unit (c : ascii) : bool :=
  match c with
  | "h" | "m" | "s" => true
  | _ => false
  end%char.

(** A text without such a letter. *)
Fixpoint plain (s : string) : bool :=
  match s with
  | EmptyString => true
  | String c s' => negb (is_unit c) && plain s'
  end.

End format.

(* ===================================================================== *)
(** * The default display *)

Module bar_display.

(** [struct theme]. *)
Record theme : Type := mk_theme {
  blocks : list string;       (* std::array<const char*, 9> *)
  right_pad : string;
  left_bracket : string;
  right_bracket : string
}.

(** [namespace themes]. *)
Definition unicode : theme :=
  mk_theme [" "; "."; ":"; "-"; "="; "#"; "#"; "#"; "#"]%string "|" EmptyString EmptyString.

Definition ascii : theme :=
  mk_theme [" "; "-"; "-"; "="; "="; "="; "#"; "#"; "#"]%string "|" "[" "]".

Definition circles : theme :=
  mk_theme [" "; "."; "o"; "o"; "o"; "o"; "o"; "o"; "O"]%string " " EmptyString EmptyString.

Definition braille : theme :=
  mk_theme [" "; "."; "."; ":"; ":"; ":"; "*"; "*"; "*"]%string " " EmptyString EmptyString.

Definition themes : list theme := [unicode; ascii; circles; braille].

(** [theme_.blocks[k]]. *)
Definition block (th : theme) (k : nat) : string := nth k (blocks th) EmptyString.

Definition INT_MAX : Z := 2 ^ 31 - 1.
Definition INT_MIN : Z := - 2 ^ 31.

(** [static_cast<int>(x)] for a double [x]: the truncated value when [int]
    can hold it; the conversion is undefined otherwise ([None]). *)
Definition to_int (x : double) : option Z :=
  match truncate x with
  | Some z => if (INT_MIN <=? z) && (z <=? INT_MAX) then Some z else None
  | None => None
  end.

(** [static_cast<int>(n)] for a [std::size_t] [n]: the value modulo 2^32 that
    [int] holds. *)
Definition int_of_size (n : Z) : Z :=
  let r := n mod 2 ^ 32 in
  if r <? 2 ^ 31 then r else r - 2 ^ 32.

Definition sub (x y : double) : double := SFsub prec emax x y.

Definition d8 : double := Eval cbv in of_Z 8.

(** The cells of the bar that [render] draws between the brackets, each an
    index into [theme_.blocks]: [whole_fills] full cells ([blocks[8]]) as
    long as the width allows, then, if the bar is not full, one cell for
    the fraction and empty cells ([blocks[0]]) from [whole_fills + 1] up to
    the width. [None] when a conversion to [int] is undefined. *)
Definition bar_cells (percentage : double) (width_ : Z) : option (list nat) :=
  let fills := mul (div percentage d100) (of_Z width_) in
  match to_int fills with
  | None => None
  | Some whole_fills =>
      let fraction := sub fills (of_Z whole_fills) in
      let width := int_of_size width_ in
      let full := replicate (Z.to_nat (Z.min whole_fills width)) 8%nat in
      if whole_fills <? width then
        match to_int (mul fraction d8) with
        | None => None
        | Some frac_idx =>
            let frac_idx := if frac_idx <? 0 then 0 else frac_idx in
            let frac_idx := if 8 <? frac_idx then 8 else frac_idx in
            Some (full ++ Z.to_nat frac_idx
                    :: replicate (Z.to_nat (width - (whole_fills + 1))) 0%nat)
        end
      else Some full
  end.

(** The cells as [render] writes them to the stream. *)
Definition bar_text (th : theme) (cells : list nat) : string :=
  fold_right (fun k s => block th k +:+ s) EmptyString cells.

End bar_display.

(* ===================================================================== *)
(** * The range's other members and the factory *)

Module range_members.

Import progress_bar progress_range.

(** [progress_iterator operator++(int)]: the iterator as it was, and what
    the increment did. *)
Definition post_increment (tty : bool) (o : oracle) (it : progress_iterator)
    (h : heap)
  : option (progress_iterator * (progress_iterator * heap * list step)) :=
  match incr tty o it h with
  | Some r => Some (it, r)
  | None => None
  end.

(** [bool operator==(const progress_iterator&) const]. *)
Definition eq (a b : progress_iterator) : bool :=
  Nat.eqb (current_ a) (current_ b).

(** [progress_range(progress_range&& other)]: the new range has its bar at
    the address [a'], move-constructed from the bar of [other]. [None] when
    [other] has no bar. *)
Definition move_construct {A : Type} (other : t A) (a' : addr) (h : heap)
  : option (t A * heap) :=
  match h !! range_bar_ other with
  | Some b =>
      let '(b', z) := progress_bar.move_construct b in
      Some (mk (container_ other) a', <[a' := b']> (<[range_bar_ other := z]> h))
  | None => None
  end.

(** The destructor of a range destroys its bar. *)
Definition destroy {A : Type} (tty : bool) (r : t A) (h : heap)
  : option (heap * list step) :=
  match destroy_at tty (range_bar_ r) h with
  | Some (h', l) => Some (h', map Displayed l)
  | None => None
  end.

(** [tqdm(container)]: the local [range], with its bar at [a], is returned
    by value. The compiler may construct it in place of the result
    ([elide]); otherwise the result is move-constructed, with its bar at
    [a'], and the local is destroyed. *)
Definition tqdm {A : Type} (tty elide : bool) (container : list A)
    (a a' : addr) (now : Z) (h : heap) : option (t A * heap * list step) :=
  let '(range, h1, tr) := create tty container a now h in
  if elide then Some (range, h1, tr)
  else
    match move_construct range a' h1 with
    | Some (result, h2) =>
        match destroy tty range h2 with
        | Some (h3, tr') => Some (result, h3, tr ++ tr')
        | None => None
        end
    | None => None
    end.

(** The statement [for (auto&& x : tqdm(container)) { }]: the range that
    [tqdm] returns lives until the loop ends and is destroyed then. *)
Definition range_for {A : Type} (fuel : nat) (tty elide : bool)
    (env : nat -> oracle) (container : list A) (a a' : addr) (now : Z)
    (h : heap) : option (heap * list step) :=
  match tqdm tty elide container a a' now h with
  | Some (r, h1, tr0) =>
      match loop fuel tty env (begin_ r) (end_of r) h1 with
      | Some (h2, tr1) =>
          match destroy tty r h2 with
          | Some (h3, tr2) => Some (h3, tr0 ++ tr1 ++ tr2)
          | None => None
          end
      | None => None
      end
  | None => None
  end.

(** The calls of [advance] a loop makes from position [k] with [m]
    positions to go: one for each increment but the last. *)
Definition loop_calls (env : nat -> oracle) (k m : nat) : list (Z * oracle) :=
  map (fun i => (1, env i)) (seq k (m - 1)).

(** What a run of calls of [advance] on the bar at [a] leaves in the trace
    of a loop. *)
Fixpoint steps_of (a : addr) (tty : bool) (calls : list (Z * oracle))
    (b : progress_bar.t) : list step :=
  match calls with
  | [] => []
  | (n, o) :: calls' =>
      Advanced a :: map Displayed (snd (progress_bar.advance tty n o b))
        ++ steps_of a tty calls' (fst (progress_bar.advance tty n o b))
  end.

(** The calls of the display in a trace. *)
Definition events_of (tr : list step) : list event :=
  omap (fun s => match s with Displayed e => Some e | Advanced _ => None end) tr.

End range_members.

(* ===================================================================== *)
(** * What threads add to a bar *)

Module bar_counter.

Import progress_bar bar_threads.

(** What a call adds to the counter. *)
Definition increment (o : op) : Z :=
  match o with
  | Advance n => n
  | FinishOp => 0
  end.

(** The increments of the calls a thread has not begun. *)
Definition owed (th : thread) : Z :=
  tracker_threads.sum (map increment (pending th)).

Definition owed_all (ths : list thread) : Z :=
  tracker_threads.sum (map owed ths).

(** The increments of all the calls of a pool. *)
Definition increments (calls : list (list op)) : Z :=
  tracker_threads.sum (map (fun c => tracker_threads.sum (map increment c)) calls).

(** [benchmark_multi_thread_advance] of [src/benchmark.cpp]: the calls of
    the workers, [threads] of them, each with [iterations / threads] calls
    of [bar->advance()]; the quotient is that of [size_t]. *)
Definition multi_thread_advance (threads iterations : Z) : list (list op) :=
  replicate (Z.to_nat threads)
            (replicate (Z.to_nat (iterations / threads)) (Advance 1)).

End bar_counter.

(* ===================================================================== *)
(** * The benchmark's single-threaded loops *)

Module benchmark.

Import progress_bar.

(** The loop of the batch benchmark in [benchmark_single_thread_advance],
    [for (size_t i = 0; i < iterations; i += batch_size) bar.advance(batch_size);],
    from [i] on, for at most [fuel] rounds; [env k] is what the [k]-th call
    of [advance] reads from its environment. [None] when the fuel runs
    out. *)
Fixpoint batch_loop (fuel : nat) (tty : bool) (env : nat -> oracle)
    (iterations batch_size : Z) (i : Z) (k : nat) (b : t)
  : option (t * list event) :=
  if i <? iterations then
    match fuel with
    | O => None
    | S fuel' =>
        let '(b1, l1) := advance tty batch_size (env k) b in
        match batch_loop fuel' tty env iterations batch_size
                         (wrap64 (i + batch_size)) (S k) b1 with
        | Some (b2, l2) => Some (b2, l1 ++ l2)
        | None => None
        end
    end
  else Some (b, []).

(** [std::max<size_t>(1, iterations / 1000)]. *)
Definition batch_size (iterations : Z) : Z := Z.max 1 (iterations / 1000).

(** The body of the batch benchmark: a bar over [iterations], the loop,
    [finish]. The bar at the end and the log. *)
Definition batch_advance (fuel : nat) (tty : bool) (env : nat -> oracle)
    (iterations now : Z) : option (t * list event) :=
  let '(b0, l0) := create tty iterations None now in
  match batch_loop fuel tty env iterations (batch_size iterations) 0 0 b0 with
  | Some (b1, l1) =>
      let '(b2, l2) := finish tty b1 in Some (b2, l0 ++ l1 ++ l2)
  | None => None
  end.

(** The rounds of the loop: [iterations / batch_size], rounded up. *)
Definition rounds (iterations : Z) : Z :=
  (iterations + batch_size iterations - 1) / batch_size iterations.

End benchmark.

(* ===================================================================== *)
(** * The renders a clock allows *)

Module render_budget.

Import progress_bar bar_threads.

(** The timestamp of the gate never falls below its first value [floor],
    and every granted timestamp is an interval above it. *)
Definition inv_floor (floor : Z) (st : state) : Prop :=
  floor <= last_render_time_ (bar st) /\
  Forall (fun g => floor + min_render_interval <= g) (grants (trace st)).

(** A thread inside the gate holds a reading of the clock no later than
    [ceiling] milliseconds. *)
Definition reading_ok (ceiling : Z) (th : thread) : Prop :=
  match at_ th with
  | GateLoad now_ms | GateCas now_ms _ => now_ms <= ceiling
  | _ => True
  end.

(** The timestamp of the gate is its first value or a reading of the
    clock. *)
Definition inv_ceiling (floor ceiling : Z) (st : state) : Prop :=
  last_render_time_ (bar st) <= Z.max floor ceiling /\
  Forall (reading_ok ceiling) (threads st).

(** The clock of a schedule shows no more than [ceiling] milliseconds. *)
Definition clock_within (ceiling : Z) (sched : list choice) : Prop :=
  Forall (fun c => to_milliseconds (clock c) <= ceiling) sched.

End render_budget.

(* ===================================================================== *)
(** * Proof tactics *)

(** The cases of [try_render]. *)
Ltac try_render_cases tty cas b :=
  unfold progress_bar.try_render;
  destruct tty; destruct (progress_bar.tracker_ b) eqn:?;
  destruct (progress_bar.display_ b) eqn:?;
  simpl; try destruct (progress_bar.min_render_interval <=? _) eqn:?;
  try destruct cas; simpl; auto; try congruence.

(** The cases of a step of a thread, read off a hypothesis that says what
    the step returned. *)
Ltac step_cases :=
  repeat match goal with
         | H : Some _ = Some _ |- _ => injection H as <- <- <-
         | H : None = Some _ |- _ => discriminate H
         | H : Some _ = None |- _ => discriminate H
         | H : context [match ?x with _ => _ end] |- _ =>
             destruct x eqn:?; simpl in H
         | H : context [if ?x then _ else _] |- _ =>
             destruct x eqn:?; simpl in H
         end.

Ltac use_fields :=
  repeat match goal with
         | H : progress_bar.tracker_ _ = _ |- _ => rewrite H
         | H : progress_bar.display_ _ = _ |- _ => rewrite H
         | H : progress_bar.finished_ _ = _ |- _ => rewrite H
         | H : progress_bar.render_mutex_ _ = _ |- _ => rewrite H
         end.

(** A bar with a null tracker or display is not displayable. *)
Ltac not_displayable Hcd :=
  unfold bar_threads.can_display in Hcd;
  repeat match goal with
         | H : progress_bar.tracker_ _ = None |- _ => rewrite H in Hcd
         | H : progress_bar.display_ _ = None |- _ => rewrite H in Hcd
         end;
  simpl in Hcd; rewrite ?andb_false_r in Hcd; discriminate Hcd.

(* ===================================================================== *)
(** * Theorems *)

(** ** Machine integers *)

Section MachineIntegers.

Lemma wrap64_idem z : wrap64 (wrap64 z) = wrap64 z.
Proof. unfold wrap64. apply Zmod_mod. Qed.

Lemma wrap64_add_l a b : wrap64 (wrap64 a + b) = wrap64 (a + b).
Proof. unfold wrap64. apply Zplus_mod_idemp_l. Qed.

Lemma wrap64_small z : 0 <= z < 2 ^ 64 -> wrap64 z = z.
Proof. unfold wrap64. apply Z.mod_small. Qed.

Lemma wrap64_range z : 0 <= wrap64 z < 2 ^ 64.
Proof. unfold wrap64. apply Z.mod_pos_bound. lia. Qed.

End MachineIntegers.

(** ** Doubles: signs and NaNs *)

Section DoubleSigns.

Lemma shr_1_nonneg mrs : 0 <= shr_m mrs -> 0 <= shr_m (shr_1 mrs).
Proof.
  destruct mrs as [m r s]; simpl.
  destruct m as [|[p|p|]|p]; simpl; intros; lia.
Qed.

Lemma iter_pos_preserves {A} (P : A -> Prop) (f : A -> A) :
  (forall x, P x -> P (f x)) ->
  forall n x, P x -> P (SpecFloat.iter_pos f n x).
Proof.
  intros Hf. induction n as [n IH|n IH|]; intros x Hx; simpl; auto.
Qed.

Lemma shr_nonneg mrs e n :
  0 <= shr_m mrs -> 0 <= shr_m (fst (shr mrs e n)).
Proof.
  intros H. unfold shr. destruct n; simpl; auto.
  apply (iter_pos_preserves (fun x => 0 <= shr_m x)); auto using shr_1_nonneg.
Qed.

Lemma shr_fexp_nonneg m e l :
  0 <= m -> 0 <= shr_m (fst (shr_fexp prec emax m e l)).
Proof.
  intros H. unfold shr_fexp. apply shr_nonneg.
  destruct l as [|[]]; simpl; exact H.
Qed.

Lemma round_nearest_even_nonneg m l : 0 <= m -> 0 <= round_nearest_even m l.
Proof.
  intros H. unfold round_nearest_even.
  destruct l as [|[]]; try destruct (Z.even m); lia.
Qed.

(** Rounding a number that is not negative gives a number, with the sign it
    was given. *)
Lemma binary_round_aux_sign s m e l :
  0 <= m ->
  is_nan (binary_round_aux prec emax s m e l) = false /\
  sign (binary_round_aux prec emax s m e l) = s.
Proof.
  intros H. unfold binary_round_aux.
  pose proof (shr_fexp_nonneg m e l H) as H1.
  destruct (shr_fexp prec emax m e l) as [mrs' e'] eqn:E1. simpl in H1.
  pose proof (shr_fexp_nonneg _ e' loc_Exact
                (round_nearest_even_nonneg _ (loc_of_shr_record mrs') H1)) as H2.
  destruct (shr_fexp prec emax _ e' loc_Exact) as [mrs'' e''] eqn:E2.
  simpl in H2.
  destruct (shr_m mrs'') as [|p|p]; simpl; auto; [|lia].
  destruct (e'' <=? emax - prec); simpl; auto.
Qed.

Lemma binary_round_sign s m e :
  is_nan (binary_round prec emax s m e) = false /\
  sign (binary_round prec emax s m e) = s.
Proof.
  unfold binary_round.
  destruct (shl_align m e _) as [mz ez].
  apply binary_round_aux_sign. lia.
Qed.

Lemma nonneg_spec x :
  nonneg x = true <-> is_nan x = false /\ sign x = false.
Proof.
  unfold nonneg. destruct (is_nan x), (sign x); simpl; intuition congruence.
Qed.

Lemma of_Z_nonneg z : 0 <= z -> nonneg (of_Z z) = true.
Proof.
  intros H. apply nonneg_spec. unfold of_Z, binary_normalize.
  destruct z as [|p|p]; [auto | apply binary_round_sign | lia].
Qed.

Lemma finite_pos_nonneg x : finite_pos x = true -> nonneg x = true.
Proof. destruct x as [| | |[] ? ?]; intros H; try discriminate H; reflexivity. Qed.

Lemma mul_nonneg x y :
  finite_pos x = true -> nonneg y = true -> nonneg (mul x y) = true.
Proof.
  intros Hx Hy. destruct x as [| | |[] mx ex]; try discriminate.
  destruct y as [[]|[]| |[] my ey]; try discriminate; try reflexivity.
  apply nonneg_spec. unfold mul, SFmul. simpl xorb.
  apply binary_round_aux_sign. lia.
Qed.

Lemma mul_nonneg_r x y :
  nonneg x = true -> finite_pos y = true -> nonneg (mul x y) = true.
Proof.
  intros Hx Hy. destruct y as [| | |[] my ey]; try discriminate.
  destruct x as [[]|[]| |[] mx ex]; try discriminate; try reflexivity.
  apply nonneg_spec. unfold mul, SFmul. simpl xorb.
  apply binary_round_aux_sign. lia.
Qed.

Lemma div_core_nonneg m1 e1 m2 e2 :
  0 <= fst (fst (SFdiv_core_binary prec emax (Zpos m1) e1 (Zpos m2) e2)).
Proof.
  unfold SFdiv_core_binary.
  set (s := _ - _ - Z.min _ _).
  set (m' := match s with Z0 => _ | Zpos _ => _ | Zneg _ => _ end).
  assert (Hm : 0 <= m').
  { subst m'. destruct s; try lia. apply Z.shiftl_nonneg. lia. }
  pose proof (Z_div_mod m' (Zpos m2) ltac:(lia)) as Hd.
  destruct (Z.div_eucl m' (Zpos m2)) as [q r]. simpl.
  destruct Hd as [Heq Hr]. nia.
Qed.

Lemma div_nonneg x y :
  nonneg x = true -> finite_pos y = true -> nonneg (div x y) = true.
Proof.
  intros Hx Hy. destruct y as [| | |[] my ey]; try discriminate.
  destruct x as [[]|[]| |[] mx ex]; try discriminate; try reflexivity.
  apply nonneg_spec. unfold div, SFdiv. simpl xorb.
  pose proof (div_core_nonneg mx ex my ey) as Hq.
  destruct (SFdiv_core_binary prec emax (Zpos mx) ex (Zpos my) ey) as [[mz ez] lz].
  apply binary_round_aux_sign. exact Hq.
Qed.

End DoubleSigns.

(** ** Doubles: integers of 64 bits convert to finite numbers *)

Section DoubleOfZ.

Lemma digits2_bounds p :
  2 ^ (Zpos (digits2_pos p) - 1) <= Zpos p < 2 ^ Zpos (digits2_pos p).
Proof.
  induction p as [p IH|p IH|]; simpl digits2_pos.
  - rewrite Pos2Z.inj_succ.
    replace (Z.succ (Zpos (digits2_pos p)) - 1) with (Z.succ (Zpos (digits2_pos p) - 1)) by lia.
    rewrite !Z.pow_succ_r by lia. lia.
  - rewrite Pos2Z.inj_succ.
    replace (Z.succ (Zpos (digits2_pos p)) - 1) with (Z.succ (Zpos (digits2_pos p) - 1)) by lia.
    rewrite !Z.pow_succ_r by lia. lia.
  - simpl. lia.
Qed.

Lemma digits2_le p k : 0 <= k -> Zpos p <= 2 ^ k -> Zpos (digits2_pos p) <= k + 1.
Proof.
  intros Hk Hp. pose proof (digits2_bounds p) as [Hlo _].
  assert (H : 2 ^ (Zpos (digits2_pos p) - 1) <= 2 ^ k) by lia.
  apply Z.pow_le_mono_r_iff in H; lia.
Qed.

Lemma digits2_shift p k :
  digits2_pos (Pos.iter xO p k) = (digits2_pos p + k)%positive.
Proof.
  induction k as [|k IH] using Pos.peano_ind.
  - simpl. lia.
  - rewrite Pos.iter_succ. simpl. rewrite IH. lia.
Qed.

Lemma shr_1_half mrs : 0 <= shr_m mrs -> shr_m (shr_1 mrs) = shr_m mrs / 2.
Proof.
  destruct mrs as [m r s]; cbn [shr_m shr_1].
  destruct m as [|[p|p|]|p]; cbn [shr_m]; intros H; try lia; try reflexivity.
  - apply Z.div_unique with 1; lia.
  - apply Z.div_unique with 0; lia.
Qed.

Lemma iter_shr_1 n : forall mrs,
  0 <= shr_m mrs ->
  shr_m (SpecFloat.iter_pos shr_1 n mrs) = shr_m mrs / 2 ^ Zpos n.
Proof.
  induction n as [n IH|n IH|]; intros mrs H; simpl SpecFloat.iter_pos.
  - assert (H1 : 0 <= shr_m (shr_1 mrs)) by (apply shr_1_nonneg; exact H).
    assert (H2 : 0 <= shr_m (SpecFloat.iter_pos shr_1 n (shr_1 mrs))).
    { apply (iter_pos_preserves (fun x => 0 <= shr_m x)); auto using shr_1_nonneg. }
    assert (Hp : 0 < 2 ^ Zpos n) by (apply Z.pow_pos_nonneg; lia).
    rewrite IH, IH, shr_1_half by assumption.
    rewrite !Z.div_div by lia. f_equal.
    replace (Zpos n~1) with (1 + Zpos n + Zpos n) by lia.
    rewrite !Z.pow_add_r by lia. change (2 ^ 1) with 2. lia.
  - assert (H2 : 0 <= shr_m (SpecFloat.iter_pos shr_1 n mrs)).
    { apply (iter_pos_preserves (fun x => 0 <= shr_m x)); auto using shr_1_nonneg. }
    assert (Hp : 0 < 2 ^ Zpos n) by (apply Z.pow_pos_nonneg; lia).
    rewrite IH, IH by assumption.
    rewrite !Z.div_div by lia. f_equal.
    replace (Zpos n~0) with (Zpos n + Zpos n) by lia.
    rewrite !Z.pow_add_r by lia. lia.
  - apply shr_1_half. exact H.
Qed.

(** Shifting a mantissa of [d] digits to its precision keeps it above zero
    as long as the exponent is not below [emin]. *)
Lemma shr_fexp_pos m e l :
  emin prec emax <= e ->
  let d := Zpos (digits2_pos m) in
  let r := shr_fexp prec emax (Zpos m) e l in
  0 < shr_m (fst r) <= Zpos m /\
  e <= snd r <= e + Z.max 0 (d - prec).
Proof.
  intros He d r. subst r. unfold shr_fexp, shr. simpl Zdigits2. fold d.
  assert (Hm : shr_m (shr_record_of_loc (Zpos m) l) = Zpos m)
    by (destruct l as [|[]]; reflexivity).
  unfold fexp. fold (emin prec emax).
  destruct (Z.max (d + e - prec) (emin prec emax) - e) as [|n|n] eqn:Hn;
    cbn [fst snd]; rewrite ?Hm; try lia.
  rewrite iter_shr_1 by (rewrite Hm; lia). rewrite Hm.
  assert (Hnd : Zpos n = d - prec) by lia.
  pose proof (digits2_bounds m) as [Hlo Hhi]. fold d in Hlo, Hhi.
  assert (Hpow : 2 ^ Zpos n <= 2 ^ (d - 1)).
  { apply Z.pow_le_mono_r; unfold prec in *; lia. }
  assert (Hp : 0 < 2 ^ Zpos n) by (apply Z.pow_pos_nonneg; lia).
  split; [split|lia].
  - apply Z.div_str_pos. lia.
  - apply Z.div_le_upper_bound; nia.
Qed.

Lemma round_nearest_even_pos m l :
  0 < m -> 0 < round_nearest_even m l <= m + 1.
Proof.
  intros H. unfold round_nearest_even.
  destruct l as [|[]]; try destruct (Z.even m); lia.
Qed.

(** Rounding a mantissa below 2^64 at an exponent between -52 and 0 gives
    a finite number. *)
Lemma binary_round_aux_finite m e l :
  Zpos m < 2 ^ 64 -> -52 <= e <= 0 ->
  finite_pos (binary_round_aux prec emax false (Zpos m) e l) = true.
Proof.
  intros Hm He. unfold binary_round_aux.
  assert (Hemin : emin prec emax <= e) by (unfold emin, prec, emax; lia).
  pose proof (shr_fexp_pos m e l Hemin) as [[H1 H1'] He1].
  pose proof (digits2_le m 64 ltac:(lia) ltac:(lia)) as Hd.
  destruct (shr_fexp prec emax (Zpos m) e l) as [mrs' e'] eqn:E1.
  cbn [fst snd] in *.
  pose proof (round_nearest_even_pos _ (loc_of_shr_record mrs') H1) as [H2 H2'].
  destruct (round_nearest_even (shr_m mrs') (loc_of_shr_record mrs'))
    as [|m2|m2] eqn:E2; try lia.
  assert (Hemin' : emin prec emax <= e') by lia.
  pose proof (shr_fexp_pos m2 e' loc_Exact Hemin') as [[H3 _] He2].
  pose proof (digits2_le m2 64 ltac:(lia) ltac:(lia)) as Hd2.
  destruct (shr_fexp prec emax (Zpos m2) e' loc_Exact) as [mrs'' e''] eqn:E3.
  cbn [fst snd] in *.
  destruct (shr_m mrs'') as [|m3|m3]; try lia.
  replace (e'' <=? emax - prec) with true; [reflexivity|].
  symmetry. apply Z.leb_le. unfold prec, emax in *. lia.
Qed.

Lemma of_Z_finite_pos z : 0 < z < 2 ^ 64 -> finite_pos (of_Z z) = true.
Proof.
  intros [H0 H64]. destruct z as [|p|p]; try lia.
  unfold of_Z, binary_normalize, binary_round, shl_align.
  pose proof (digits2_le p 64 ltac:(lia) ltac:(lia)) as Hd.
  pose proof (digits2_bounds p) as [Hlo Hhi].
  set (d := Zpos (digits2_pos p)) in *.
  assert (Hfexp : fexp prec emax (d + 0) = d - 53).
  { unfold fexp, emin, prec, emax. lia. }
  rewrite Hfexp.
  destruct (d - 53 - 0) as [|k|k] eqn:Hk.
  - apply binary_round_aux_finite; lia.
  - apply binary_round_aux_finite; lia.
  - apply binary_round_aux_finite; [|lia].
    pose proof (digits2_bounds (Pos.iter xO p k)) as [_ Hb].
    rewrite digits2_shift in Hb. rewrite Pos2Z.inj_add in Hb. fold d in Hb.
    assert (Hle : 2 ^ (d + Zpos k) <= 2 ^ 64)
      by (apply Z.pow_le_mono_r; lia).
    lia.
Qed.

End DoubleOfZ.

(** ** Doubles: magnitudes *)

Section DoubleMagnitude.

Lemma Zdigits2_bound z : 0 <= z -> z < 2 ^ Zdigits2 z.
Proof.
  destruct z as [|p|p]; intros H; [simpl; lia | apply digits2_bounds | lia].
Qed.

Lemma Zdigits2_nonneg z : 0 <= Zdigits2 z.
Proof. destruct z; simpl; lia. Qed.

Lemma Zdigits2_lt z k : 0 <= z -> z < 2 ^ k -> Zdigits2 z <= Z.max 0 k.
Proof.
  intros Hz Hk. destruct z as [|p|p]; [simpl; lia | | lia].
  cbn [Zdigits2]. pose proof (digits2_bounds p) as [Hlo _].
  destruct (Z_lt_le_dec k 0) as [Hneg|Hpos].
  - rewrite Z.pow_neg_r in Hk by exact Hneg. lia.
  - assert (H : 2 ^ (Zpos (digits2_pos p) - 1) < 2 ^ k) by lia.
    apply Z.pow_lt_mono_r_iff in H; lia.
Qed.

(** [q * 2^B < 2^A] leaves [q] no more than [A - B] digits. *)
Lemma Zdigits2_quot q A B :
  0 <= q -> 0 <= B -> q * 2 ^ B < 2 ^ A -> Zdigits2 q <= Z.max 0 (A - B).
Proof.
  intros Hq HB H.
  assert (HpB : 0 < 2 ^ B) by (apply Z.pow_pos_nonneg; lia).
  destruct (Z_lt_le_dec A B) as [Hlt|Hge].
  - assert (Hle : 2 ^ A <= 2 ^ B) by (apply Z.pow_le_mono_r; lia).
    assert (q = 0) by nia. subst q. simpl. lia.
  - apply Zdigits2_lt; [exact Hq|].
    replace A with (A - B + B) in H by lia.
    rewrite Z.pow_add_r in H by lia.
    apply Z.mul_lt_mono_pos_r in H; assumption.
Qed.

Lemma shr_fexp_spec m e l :
  0 <= m ->
  let n := Z.max 0 (fexp prec emax (Zdigits2 m + e) - e) in
  shr_m (fst (shr_fexp prec emax m e l)) = m / 2 ^ n /\
  snd (shr_fexp prec emax m e l) = e + n.
Proof.
  intros Hm n. subst n. unfold shr_fexp, shr.
  assert (Hr : shr_m (shr_record_of_loc m l) = m)
    by (destruct l as [|[]]; reflexivity).
  destruct (fexp prec emax (Zdigits2 m + e) - e) as [|p|p]; cbn [fst snd].
  - rewrite Hr. change (Z.max 0 0) with 0. rewrite Z.div_1_r. lia.
  - rewrite iter_shr_1 by (rewrite Hr; exact Hm). rewrite Hr.
    replace (Z.max 0 (Zpos p)) with (Zpos p) by lia. auto.
  - rewrite Hr. replace (Z.max 0 (Zneg p)) with 0 by lia.
    rewrite Z.div_1_r. lia.
Qed.

(** The shift to the precision keeps a mantissa below the magnitude it had,
    and leaves it 53 digits at most. *)
Lemma shr_fexp_below m e l k :
  0 <= m -> Zdigits2 m + e <= k -> emin prec emax <= k ->
  0 <= shr_m (fst (shr_fexp prec emax m e l)) /\
  Zdigits2 (shr_m (fst (shr_fexp prec emax m e l)))
  + snd (shr_fexp prec emax m e l) <= k /\
  Zdigits2 (shr_m (fst (shr_fexp prec emax m e l))) <= prec.
Proof.
  intros Hm Hk Hmin.
  destruct (shr_fexp_spec m e l Hm) as [-> ->].
  set (d := Zdigits2 m) in *.
  set (n := Z.max 0 (fexp prec emax (d + e) - e)).
  pose proof (Zdigits2_nonneg m) as Hd. fold d in Hd.
  pose proof (Zdigits2_bound m Hm) as Hb. fold d in Hb.
  assert (Hn : 0 <= n) by (unfold n; lia).
  assert (Hp : 0 < 2 ^ n) by (apply Z.pow_pos_nonneg; lia).
  assert (Hq : 0 <= m / 2 ^ n) by (apply Z.div_pos; lia).
  assert (Hdig : Zdigits2 (m / 2 ^ n) <= Z.max 0 (d - n)).
  { apply Zdigits2_quot; [exact Hq | exact Hn |].
    pose proof (Z.mul_div_le m (2 ^ n) Hp). lia. }
  assert (Hnd : n = Z.max 0 (Z.max (d + e - prec) (emin prec emax) - e))
    by reflexivity.
  clearbody n d. unfold emin, prec, emax in *. lia.
Qed.

Lemma round_nearest_even_digits m l :
  0 <= m ->
  0 <= round_nearest_even m l /\
  Zdigits2 (round_nearest_even m l) <= Zdigits2 m + 1.
Proof.
  intros Hm.
  pose proof (Zdigits2_bound m Hm) as Hb.
  pose proof (Zdigits2_nonneg m) as Hd.
  assert (Hr : 0 <= round_nearest_even m l <= m + 1).
  { unfold round_nearest_even. destruct l as [|[]]; try destruct (Z.even m); lia. }
  split; [lia|].
  replace (Zdigits2 m + 1) with (Z.max 0 (Zdigits2 m + 1)) by lia.
  apply Zdigits2_lt; [lia|].
  rewrite Z.pow_add_r by lia. change (2 ^ 1) with 2. lia.
Qed.

(** Rounding keeps a number that is below [2^k] at [2^k] at most, and
    gives a mantissa of 53 digits at most. *)
Lemma binary_round_aux_below s m e l k :
  0 <= m -> Zdigits2 m + e <= k ->
  emin prec emax <= k -> k < emax - prec ->
  below (k + 1) (binary_round_aux prec emax s m e l) /\
  short (binary_round_aux prec emax s m e l).
Proof.
  intros Hm Hk Hmin Hmax. unfold binary_round_aux.
  destruct (shr_fexp_below m e l k Hm Hk Hmin) as (H1 & H1k & _).
  destruct (shr_fexp prec emax m e l) as [mrs' e'] eqn:E1. cbn [fst snd] in *.
  destruct (round_nearest_even_digits (shr_m mrs') (loc_of_shr_record mrs') H1)
    as [H2 H2d].
  destruct (shr_fexp_below (round_nearest_even (shr_m mrs') (loc_of_shr_record mrs'))
              e' loc_Exact (k + 1) H2 ltac:(lia) ltac:(lia)) as (H3 & H3k & H3d).
  destruct (shr_fexp prec emax _ e' loc_Exact) as [mrs'' e''] eqn:E2.
  cbn [fst snd] in *.
  destruct (shr_m mrs'') as [|p|p]; [simpl; auto | | lia].
  cbn [Zdigits2] in H3k, H3d.
  assert (He : (e'' <=? emax - prec) = true) by (apply Z.leb_le; lia).
  rewrite He. simpl. auto.
Qed.

Lemma binary_round_aux_short s m e l :
  0 <= m -> short (binary_round_aux prec emax s m e l).
Proof.
  intros Hm. unfold binary_round_aux.
  pose proof (shr_fexp_nonneg m e l Hm) as H1.
  destruct (shr_fexp prec emax m e l) as [mrs' e'] eqn:E1. cbn [fst] in H1.
  destruct (round_nearest_even_digits (shr_m mrs') (loc_of_shr_record mrs') H1)
    as [H2 _].
  set (m2 := round_nearest_even (shr_m mrs') (loc_of_shr_record mrs')) in *.
  destruct (shr_fexp_below m2 e' loc_Exact
              (Z.max (Zdigits2 m2 + e') (emin prec emax)) H2
              ltac:(lia) ltac:(lia)) as (_ & _ & H3d).
  destruct (shr_fexp prec emax m2 e' loc_Exact) as [mrs'' e''] eqn:E2.
  cbn [fst] in H3d.
  destruct (shr_m mrs'') as [|p|p]; simpl; auto.
  destruct (e'' <=? emax - prec); simpl; auto.
Qed.

Lemma iter_xO_value p k : Zpos (Pos.iter xO p k) = Zpos p * 2 ^ Zpos k.
Proof.
  induction k as [|k IH] using Pos.peano_ind.
  - simpl. lia.
  - rewrite Pos.iter_succ, Pos2Z.inj_xO, IH, Pos2Z.inj_succ, Z.pow_succ_r by lia.
    lia.
Qed.

Lemma shl_align_spec m e e' :
  Zpos (fst (shl_align m e e')) = Zpos m * 2 ^ (e - Z.min e e') /\
  snd (shl_align m e e') = Z.min e e' /\
  Zpos (digits2_pos (fst (shl_align m e e'))) + snd (shl_align m e e')
  = Zpos (digits2_pos m) + e.
Proof.
  unfold shl_align. destruct (e' - e) as [|d|d] eqn:Hd; cbn [fst snd].
  - replace (Z.min e e') with e by lia. rewrite Z.sub_diag. simpl. lia.
  - replace (Z.min e e') with e by lia. rewrite Z.sub_diag. simpl. lia.
  - replace (Z.min e e') with e' by lia.
    rewrite iter_xO_value, digits2_shift, Pos2Z.inj_add.
    replace (e - e') with (Zpos d) by lia. lia.
Qed.

Lemma binary_round_below s p e k :
  Zpos (digits2_pos p) + e <= k ->
  emin prec emax <= k -> k < emax - prec ->
  below (k + 1) (binary_round prec emax s p e).
Proof.
  intros Hk Hmin Hmax. unfold binary_round.
  destruct (shl_align_spec p e (fexp prec emax (Zpos (digits2_pos p) + e)))
    as (_ & _ & Hmag).
  destruct (shl_align p e _) as [mz ez]. cbn [fst snd] in Hmag.
  apply binary_round_aux_below; [lia | cbn [Zdigits2]; lia | exact Hmin | exact Hmax].
Qed.

Lemma of_Z_below z j :
  0 <= z < 2 ^ j -> 0 <= j < emax - prec -> below (j + 1) (of_Z z).
Proof.
  intros [Hz Hj] Hr. unfold of_Z, binary_normalize.
  destruct z as [|p|p]; [exact I | | lia].
  apply binary_round_below; [|unfold emin, prec, emax; lia | lia].
  pose proof (Zdigits2_lt (Zpos p) j ltac:(lia) Hj). cbn [Zdigits2] in H. lia.
Qed.

Lemma mul_below a b x y :
  below a x -> below b y ->
  emin prec emax <= a + b -> a + b < emax - prec ->
  below (a + b + 1) (mul x y).
Proof.
  intros Hx Hy Hmin Hmax.
  destruct x as [sx|sx| |sx mx ex]; try contradiction;
    destruct y as [sy|sy| |sy my ey]; try contradiction; try exact I.
  unfold mul, SFmul. cbn [below] in Hx, Hy.
  apply binary_round_aux_below; [lia | | exact Hmin | exact Hmax].
  pose proof (digits2_bounds mx) as [_ Hbx].
  pose proof (digits2_bounds my) as [_ Hby].
  assert (Hlt : Zpos (mx * my)
                < 2 ^ (Zpos (digits2_pos mx) + Zpos (digits2_pos my))).
  { rewrite Pos2Z.inj_mul, Z.pow_add_r by lia. nia. }
  pose proof (Zdigits2_lt (Zpos (mx * my)) _ ltac:(lia) Hlt) as Hd.
  cbn [Zdigits2] in *. lia.
Qed.

Lemma div_core_below m1 e1 m2 e2 k :
  Zpos (digits2_pos m1) + e1 - (Zpos (digits2_pos m2) + e2) + 1 <= k ->
  emin prec emax <= k ->
  0 <= fst (fst (SFdiv_core_binary prec emax (Zpos m1) e1 (Zpos m2) e2)) /\
  Zdigits2 (fst (fst (SFdiv_core_binary prec emax (Zpos m1) e1 (Zpos m2) e2)))
  + snd (fst (SFdiv_core_binary prec emax (Zpos m1) e1 (Zpos m2) e2)) <= k.
Proof.
  intros Hk Hmin.
  pose proof (div_core_nonneg m1 e1 m2 e2) as Hq0.
  split; [exact Hq0|]. revert Hq0.
  unfold SFdiv_core_binary. cbn [Zdigits2].
  set (d1 := Zpos (digits2_pos m1)) in *. set (d2 := Zpos (digits2_pos m2)) in *.
  set (e' := Z.min (fexp prec emax (d1 + e1 - (d2 + e2))) (e1 - e2)).
  set (s := e1 - e2 - e').
  set (m' := match s with Z0 => _ | Zpos _ => _ | Zneg _ => _ end).
  assert (Hs : 0 <= s) by (unfold s, e'; lia).
  assert (Hm' : m' = Zpos m1 * 2 ^ s).
  { subst m'. destruct s as [|p|p] eqn:Es; [simpl; lia | | lia].
    apply Z.shiftl_mul_pow2. lia. }
  pose proof (Z_div_mod m' (Zpos m2) ltac:(lia)) as Hd.
  destruct (Z.div_eucl m' (Zpos m2)) as [q r]. cbn [fst snd].
  destruct Hd as [Heq Hr]. intros Hq0.
  pose proof (digits2_bounds m1) as [_ Hb1]. fold d1 in Hb1.
  pose proof (digits2_bounds m2) as [Hb2 _]. fold d2 in Hb2.
  assert (Hd2 : 1 <= d2) by (unfold d2; lia).
  assert (Hps : 0 < 2 ^ s) by (apply Z.pow_pos_nonneg; lia).
  assert (Hp2 : 0 < 2 ^ (d2 - 1)) by (apply Z.pow_pos_nonneg; lia).
  assert (Hlt : q * 2 ^ (d2 - 1) < 2 ^ (d1 + s)).
  { rewrite Z.pow_add_r by (unfold d1; lia). nia. }
  pose proof (Zdigits2_quot q (d1 + s) (d2 - 1) Hq0 ltac:(lia) Hlt) as Hdig.
  unfold s, e', fexp, emin, prec, emax in *. lia.
Qed.

(** A quotient by a number of magnitude [2^(b-1)] or more. *)
Lemma div_below a b x sy my ey :
  below a x -> b <= Zpos (digits2_pos my) + ey ->
  emin prec emax <= a - b + 1 -> a - b + 1 < emax - prec ->
  below (a - b + 2) (div x (S754_finite sy my ey)).
Proof.
  intros Hx Hb Hmin Hmax.
  destruct x as [sx|sx| |sx mx ex]; try contradiction; [exact I|].
  unfold div, SFdiv. cbn [below] in Hx.
  destruct (div_core_below mx ex my ey (a - b + 1) ltac:(lia) Hmin) as [Hq Hk].
  destruct (SFdiv_core_binary prec emax (Zpos mx) ex (Zpos my) ey) as [[mz ez] lz].
  cbn [fst snd] in Hq, Hk.
  replace (a - b + 2) with (a - b + 1 + 1) by lia.
  apply binary_round_aux_below; assumption.
Qed.

Lemma truncate_below k x :
  0 <= k -> below k x -> exists z, truncate x = Some z /\ - 2 ^ k < z < 2 ^ k.
Proof.
  intros Hk Hx.
  assert (Hp : 0 < 2 ^ k) by (apply Z.pow_pos_nonneg; lia).
  destruct x as [s|s| |s m e]; try contradiction.
  - exists 0. split; [reflexivity | lia].
  - cbn [below] in Hx. cbn [truncate].
    pose proof (digits2_bounds m) as [_ Hb].
    set (d := Zpos (digits2_pos m)) in *.
    assert (Hv : 0 <= match e with
                      | Zneg p => Z.shiftr (Zpos m) (Zpos p)
                      | _ => Z.shiftl (Zpos m) e
                      end < 2 ^ k).
    { destruct e as [|p|p].
      - rewrite Z.shiftl_0_r. split; [lia|].
        apply Z.lt_le_trans with (2 ^ d); [exact Hb|].
        apply Z.pow_le_mono_r; lia.
      - rewrite Z.shiftl_mul_pow2 by lia. split; [lia|].
        apply Z.lt_le_trans with (2 ^ (d + Zpos p)).
        + rewrite Z.pow_add_r by (unfold d; lia).
          assert (0 < 2 ^ Zpos p) by (apply Z.pow_pos_nonneg; lia). nia.
        + apply Z.pow_le_mono_r; lia.
      - rewrite Z.shiftr_div_pow2 by lia.
        assert (Hpp : 0 < 2 ^ Zpos p) by (apply Z.pow_pos_nonneg; lia).
        split; [apply Z.div_pos; lia|].
        apply Z.div_lt_upper_bound; [exact Hpp|].
        apply Z.lt_le_trans with (2 ^ d); [exact Hb|].
        rewrite <- Z.pow_add_r by lia.
        apply Z.pow_le_mono_r; lia. }
    eexists. split; [reflexivity|]. destruct s; cbn [cond_Zopp]; lia.
Qed.

(** A double below [2^k], for [k] up to 63, converts to [int64_t]. *)
Lemma to_int64_below k x :
  0 <= k <= 63 -> below k x ->
  exists z, to_int64 x = Some z /\ - 2 ^ k < z < 2 ^ k.
Proof.
  intros Hk Hx. destruct (truncate_below k x ltac:(lia) Hx) as (z & Hz & Hr).
  exists z. split; [|exact Hr]. unfold to_int64. rewrite Hz.
  assert (Hp : 2 ^ k <= 2 ^ 63) by (apply Z.pow_le_mono_r; lia).
  unfold INT64_MIN, INT64_MAX.
  destruct (Z.leb_spec (- 2 ^ 63) z), (Z.leb_spec z (2 ^ 63 - 1)); try lia.
  reflexivity.
Qed.

Lemma Zdigits2_ge z j : 1 <= j -> 2 ^ (j - 1) <= z -> j <= Zdigits2 z.
Proof.
  intros Hj Hz.
  assert (Hp : 0 < 2 ^ (j - 1)) by (apply Z.pow_pos_nonneg; lia).
  pose proof (Zdigits2_bound z ltac:(lia)) as Hb.
  pose proof (Zdigits2_nonneg z) as Hd.
  assert (H2 : 2 ^ (j - 1) < 2 ^ Zdigits2 z) by lia.
  apply Z.pow_lt_mono_r_iff in H2; lia.
Qed.

Lemma Zdigits2_mono a b : 0 <= a <= b -> Zdigits2 a <= Zdigits2 b.
Proof.
  intros [Ha Hab]. destruct a as [|p|p]; [apply Zdigits2_nonneg | | lia].
  pose proof (digits2_bounds p) as [Hlo _]. cbn [Zdigits2].
  apply Zdigits2_ge; lia.
Qed.

(** The shift to the precision keeps a mantissa at the magnitude it had,
    in the range of the normal numbers. *)
Lemma shr_fexp_at_least m e l k :
  0 < m -> k <= Zdigits2 m + e -> emin prec emax + prec <= k ->
  0 < shr_m (fst (shr_fexp prec emax m e l)) /\
  k <= Zdigits2 (shr_m (fst (shr_fexp prec emax m e l)))
       + snd (shr_fexp prec emax m e l).
Proof.
  intros Hm Hk Hmin.
  destruct (shr_fexp_spec m e l ltac:(lia)) as [-> ->].
  assert (Hlo : 2 ^ (Zdigits2 m - 1) <= m /\ 1 <= Zdigits2 m).
  { destruct m as [|p|p]; try lia. cbn [Zdigits2].
    split; [apply digits2_bounds | lia]. }
  destruct Hlo as [Hlo Hd1].
  set (d := Zdigits2 m) in *.
  set (n := Z.max 0 (fexp prec emax (d + e) - e)).
  assert (Hnd : 0 <= n <= d - 1).
  { unfold n, fexp. unfold emin, prec, emax in *. lia. }
  assert (Hp : 0 < 2 ^ n) by (apply Z.pow_pos_nonneg; lia).
  assert (Hq : 2 ^ (d - 1 - n) <= m / 2 ^ n).
  { apply Z.div_le_lower_bound; [exact Hp|].
    rewrite <- Z.pow_add_r by lia.
    replace (n + (d - 1 - n)) with (d - 1) by lia. exact Hlo. }
  assert (Hpq : 0 < 2 ^ (d - 1 - n)) by (apply Z.pow_pos_nonneg; lia).
  split; [lia|].
  pose proof (Zdigits2_ge (m / 2 ^ n) (d - n) ltac:(lia)) as Hg.
  replace (d - n - 1) with (d - 1 - n) in Hg by lia.
  specialize (Hg Hq). lia.
Qed.

(** Rounding a normal number keeps it above zero and finite, at the
    magnitude it had or the next. *)
Lemma binary_round_aux_at_least m e l k :
  0 < m -> k <= Zdigits2 m + e -> emin prec emax + prec <= k ->
  Zdigits2 m + e < emax - prec ->
  at_least k (binary_round_aux prec emax false m e l).
Proof.
  intros Hm Hk Hmin Hmax. unfold binary_round_aux.
  assert (Hemin : emin prec emax <= Zdigits2 m + e)
    by (unfold emin, prec, emax in *; lia).
  destruct (shr_fexp_at_least m e l k Hm Hk Hmin) as [H1 H1k].
  destruct (shr_fexp_below m e l (Zdigits2 m + e) ltac:(lia) ltac:(lia) Hemin)
    as (_ & H1u & _).
  destruct (shr_fexp prec emax m e l) as [mrs' e'] eqn:E1. cbn [fst snd] in *.
  set (m2 := round_nearest_even (shr_m mrs') (loc_of_shr_record mrs')).
  assert (H2 : shr_m mrs' <= m2).
  { unfold m2, round_nearest_even.
    destruct (loc_of_shr_record mrs') as [|[]]; try destruct (Z.even _); lia. }
  destruct (round_nearest_even_digits (shr_m mrs') (loc_of_shr_record mrs')
              ltac:(lia)) as [_ H2d]. fold m2 in H2d.
  pose proof (Zdigits2_mono (shr_m mrs') m2 ltac:(lia)) as H2m.
  destruct (shr_fexp_at_least m2 e' loc_Exact k ltac:(lia) ltac:(lia) Hmin)
    as [H3 H3k].
  destruct (shr_fexp_below m2 e' loc_Exact (Zdigits2 m + e + 1)
              ltac:(lia) ltac:(lia) ltac:(lia)) as (_ & H3u & _).
  destruct (shr_fexp prec emax m2 e' loc_Exact) as [mrs'' e''] eqn:E2.
  cbn [fst snd] in *.
  destruct (shr_m mrs'') as [|p|p]; try lia.
  cbn [Zdigits2] in H3k, H3u.
  assert (He : (e'' <=? emax - prec) = true) by (apply Z.leb_le; lia).
  rewrite He. cbn [at_least]. exact H3k.
Qed.

(** An integer of [2^(j-1)] or more converts to a double of that magnitude. *)
Lemma of_Z_at_least z j :
  1 <= j -> 2 ^ (j - 1) <= z < 2 ^ 64 -> at_least j (of_Z z).
Proof.
  intros Hj [Hlo Hhi].
  assert (Hp : 0 < 2 ^ (j - 1)) by (apply Z.pow_pos_nonneg; lia).
  destruct z as [|p|p]; try lia.
  pose proof (Zdigits2_ge (Zpos p) j Hj Hlo) as Hd.
  pose proof (Zdigits2_lt (Zpos p) 64 ltac:(lia) Hhi) as Hd64.
  cbn [Zdigits2] in Hd, Hd64.
  unfold of_Z, binary_normalize, binary_round.
  destruct (shl_align_spec p 0 (fexp prec emax (Zpos (digits2_pos p) + 0)))
    as (_ & _ & Hmag).
  destruct (shl_align p 0 _) as [mz ez]. cbn [fst snd] in Hmag.
  apply binary_round_aux_at_least; cbn [Zdigits2];
    unfold emin, prec, emax; lia.
Qed.

Lemma below_mono a b x : a <= b -> below a x -> below b x.
Proof. intros Hab. destruct x; simpl; auto. lia. Qed.

Lemma div_short x y :
  nonneg x = true -> finite_pos y = true -> short (div x y).
Proof.
  intros Hx Hy. destruct y as [| | |[] my ey]; try discriminate.
  destruct x as [[]|[]| |[] mx ex]; try discriminate; try exact I.
  unfold div, SFdiv.
  pose proof (div_core_nonneg mx ex my ey) as Hq.
  destruct (SFdiv_core_binary prec emax (Zpos mx) ex (Zpos my) ey) as [[mz ez] lz].
  apply binary_round_aux_short. exact Hq.
Qed.

End DoubleMagnitude.

(** ** Doubles: comparisons *)

Section DoubleCompare.

Lemma leb_zero_nonneg x : nonneg x = true -> leb zero x = true.
Proof. destruct x as [[]|[]| |[] m e]; intros H; try discriminate H; reflexivity. Qed.

Lemma compare_antisym_finite m1 e1 m2 e2 :
  SFcompare (S754_finite false m2 e2) (S754_finite false m1 e1)
  = option_map CompOpp
      (SFcompare (S754_finite false m1 e1) (S754_finite false m2 e2)).
Proof.
  simpl. rewrite (Z.compare_antisym e1 e2).
  destruct (e1 ?= e2); simpl; try reflexivity.
  rewrite Pos.compare_cont_antisym. reflexivity.
Qed.

(** Below [std::min(x, 100.0)]: a number that is not negative ends between
    0 and 100. *)
Lemma min_range x :
  nonneg x = true ->
  leb zero (Double.min x d100) = true /\ leb (Double.min x d100) d100 = true.
Proof.
  intros Hx. unfold Double.min.
  destruct (ltb d100 x) eqn:Hlt; [split; reflexivity|].
  split; [apply leb_zero_nonneg; exact Hx|].
  destruct x as [[]|[]| |[] m e]; try discriminate Hx; try reflexivity.
  - discriminate Hlt.
  - unfold ltb, SFltb in Hlt. unfold leb, SFleb.
    change d100 with (S754_finite false 7036874417766400 (-46)) in *.
    rewrite compare_antisym_finite.
    destruct (SFcompare (S754_finite false 7036874417766400 (-46))
                        (S754_finite false m e)) as [[]|] eqn:Hc;
      cbn [option_map CompOpp]; try reflexivity; try discriminate Hlt.
    simpl in Hc. destruct (-46 ?= e); discriminate Hc.
Qed.

Lemma min_clamps x : ltb d100 x = true -> Double.min x d100 = d100.
Proof. intros H. unfold Double.min. rewrite H. reflexivity. Qed.

(** A rate above zero is a finite number above zero or [+inf], and is not
    [<= 0]. *)
Lemma positive_rate r :
  ltb zero r = true ->
  leb r zero = false /\ (finite_pos r = true \/ r = S754_infinity false).
Proof.
  destruct r as [[]|[]| |[] m e]; intros H; try discriminate H; auto.
Qed.

Lemma not_le_zero_nonzero r s : leb r zero = false -> r <> S754_zero s.
Proof. intros H ->. destruct s; discriminate H. Qed.

Lemma truncate_nonneg x z :
  nonneg x = true -> truncate x = Some z -> 0 <= z.
Proof.
  intros Hx. destruct x as [[]|[]| |[] m e]; try discriminate Hx;
    unfold truncate; try discriminate; intros [= <-]; try lia.
  destruct e; apply Z.shiftl_nonneg; lia.
Qed.

Lemma to_int64_nonneg x ms :
  nonneg x = true -> to_int64 x = Some ms -> 0 <= ms.
Proof.
  unfold to_int64. intros Hx.
  destruct (truncate x) as [z|] eqn:Hz; [|discriminate].
  pose proof (truncate_nonneg x z Hx Hz).
  destruct ((INT64_MIN <=? z) && (z <=? INT64_MAX)); [|discriminate].
  intros [= <-]. assumption.
Qed.

End DoubleCompare.

(** ** The tracker's figures *)

Section TrackerFigures.

Import progress_tracker.

(** The counters of a tracker hold [std::size_t] values. *)
Lemma counters_fit_create total now : counters_fit (create total now).
Proof.
  unfold counters_fit, create; simpl.
  pose proof (wrap64_range total). lia.
Qed.

Lemma counters_fit_advance n now tr :
  counters_fit tr -> counters_fit (advance n now tr).
Proof.
  unfold counters_fit, advance; simpl. intros [_ Ht].
  pose proof (wrap64_range (current_ tr + n)). lia.
Qed.

Lemma percentage_range tr :
  counters_fit tr ->
  leb zero (percentage tr) = true /\ leb (percentage tr) d100 = true.
Proof.
  intros [Hc Ht]. unfold percentage.
  destruct (Z.eqb_spec (total_ tr) 0) as [H0|H0]; [split; reflexivity|].
  apply min_range, div_nonneg.
  - apply mul_nonneg; [reflexivity|]. apply of_Z_nonneg. lia.
  - apply of_Z_finite_pos. lia.
Qed.

(** C2 (as the code has it). [percentage()] is 0 when the total is 0 and
    otherwise [std::min(q, 100.0)] for the double quotient
    [q = 100.0 * double(current) / double(total)]; it always lies between 0
    and 100, also when the total is 0 and when the counter is beyond the
    total; it is exactly 100 whenever [q] is above 100, and [q] itself
    otherwise. *)
Theorem percentage_is_clamped_quotient :
  forall tr : t,
    counters_fit tr ->
    let q := div (mul d100 (of_Z (current_ tr))) (of_Z (total_ tr)) in
    percentage tr = (if total_ tr =? 0 then zero else Double.min q d100) /\
    leb zero (percentage tr) = true /\
    leb (percentage tr) d100 = true /\
    (total_ tr = 0 -> percentage tr = zero) /\
    (total_ tr <> 0 -> ltb d100 q = true -> percentage tr = d100) /\
    (total_ tr <> 0 -> ltb d100 q = false -> percentage tr = q).
Proof.
  intros tr Hfit q.
  destruct (percentage_range tr Hfit) as [Hlo Hhi].
  split; [reflexivity|]. split; [exact Hlo|]. split; [exact Hhi|].
  unfold percentage. fold q.
  split; [intros ->; reflexivity|].
  split; intros H0 Hq;
    (destruct (Z.eqb_spec (total_ tr) 0) as [|_]; [contradiction|]);
    unfold Double.min; rewrite Hq; reflexivity.
Qed.

(** The claim of C2 fails where rounding leaves the quotient below 100:
    with a total of 16716856406916640 and the counter one beyond it,
    [percentage()] is not 100 but the double just below it. *)
Lemma percentage_overshoot_below_100 :
  let tr := advance 16716856406916641 0 (create 16716856406916640 0) in
  counters_fit tr /\
  total_ tr < current_ tr /\
  percentage tr = S754_finite false 7036874417766399 (-46) /\
  percentage tr <> d100 /\
  ltb (percentage tr) d100 = true.
Proof.
  cbv zeta. split; [|split; [|split; [|split]]].
  - vm_compute. repeat split; discriminate.
  - vm_compute. reflexivity.
  - vm_compute. reflexivity.
  - vm_compute. discriminate.
  - vm_compute. reflexivity.
Qed.

Lemma percentage_is_clamped_quotient_witness :
  let tr := advance 30 0 (create 100 0) in
  counters_fit tr /\
  leb zero (percentage tr) = true /\ leb (percentage tr) d100 = true.
Proof.
  cbv zeta.
  assert (H : counters_fit (advance 30 0 (create 100 0))).
  { vm_compute. repeat split; discriminate. }
  split; [exact H|].
  pose proof (percentage_is_clamped_quotient _ H) as (_ & Hlo & Hhi & _).
  split; [exact Hlo | exact Hhi].
Defined.

(** 30 of 100 is 30 percent, 150 of 100 is clamped to 100, and nothing of
    nothing is 0. *)
Lemma percentage_examples :
  percentage (advance 30 0 (create 100 0)) = of_Z 30 /\
  percentage (advance 150 0 (create 100 0)) = d100 /\
  percentage (advance 7 0 (create 0 0)) = zero.
Proof. repeat split; vm_compute; reflexivity. Qed.

Lemma estimate_fresh total now : estimate (create total now) = zero.
Proof. reflexivity. Qed.

Lemma get_rate_remaining now tr :
  remaining (snd (get_rate now tr)) = remaining tr.
Proof. unfold get_rate. destruct (cache_fresh now tr); reflexivity. Qed.

Lemma eta_unfold now tr :
  eta now tr =
  (if leb (fst (get_rate now tr)) zero then Some 0
   else to_int64 (mul (div (of_Z (remaining tr)) (fst (get_rate now tr))) d1000),
   snd (get_rate now tr)).
Proof.
  unfold eta. pose proof (get_rate_remaining now tr) as Hr.
  destruct (get_rate now tr) as [r tr']. simpl in *.
  destruct (leb r zero); [reflexivity|]. rewrite Hr. reflexivity.
Qed.

Lemma to_int64_spec x ms :
  to_int64 x = Some ms <->
  truncate x = Some ms /\ INT64_MIN <= ms <= INT64_MAX.
Proof.
  unfold to_int64. destruct (truncate x) as [z|].
  - destruct (Z.leb_spec INT64_MIN z), (Z.leb_spec z INT64_MAX); cbn [andb];
      (split; [intros [= <-] | intros [[= <-] ?]]);
      first [split; [reflexivity | lia] | reflexivity | lia].
  - split; [discriminate | intros [[=] _]].
Qed.

(** One sample gives no rate: after the first [advance] the scan finds one
    slot at most, which is the oldest and the newest at once. *)
Lemma estimate_one_sample n now1 total now0 :
  estimate (advance n now1 (create total now0)) = zero.
Proof.
  unfold estimate.
  set (tr := advance n now1 (create total now0)).
  change (entries_to_check tr) with 1%nat.
  unfold scan_history. cbn [seq fold_left].
  assert (Hs : newest_idx (scan_step (history_ tr) scan_init 0)
               = oldest_idx (scan_step (history_ tr) scan_init 0)).
  { unfold scan_step.
    destruct (0 <? timestamp (get_entry (history_ tr) 0)); [|reflexivity].
    destruct (timestamp (get_entry (history_ tr) 0) <? oldest_time scan_init);
      cbn [newest_time oldest_time oldest_idx newest_idx];
      destruct (_ <? timestamp (get_entry (history_ tr) 0)); reflexivity. }
  rewrite Hs, Nat.eqb_refl, andb_false_r. reflexivity.
Qed.

Lemma eta_no_rate now tr :
  rate (cache_ tr) = zero -> estimate tr = zero -> fst (eta now tr) = Some 0.
Proof.
  intros Hc He. rewrite eta_unfold. cbn [fst].
  replace (fst (get_rate now tr)) with zero; [reflexivity|].
  unfold get_rate. destruct (cache_fresh now tr); cbn [fst]; congruence.
Qed.

(** The conversion in [eta()] is defined when the rate is not too low for
    the work left: with an operand below [2^j] and a rate of [2^(k-1)] or
    more, the product is below [2^(j - k + 14)]. *)
Lemma eta_product_below (z : Z) (r : double) (j k : Z) :
  0 <= z < 2 ^ 64 -> 0 <= j -> z < 2 ^ j -> at_least k r -> j - k <= 49 ->
  nonneg (mul (div (of_Z z) r) d1000) = true /\
  below 63 (mul (div (of_Z z) r) d1000).
Proof.
  intros Hz Hj Hzj Hr Hjk.
  destruct r as [| | |[] m e]; try contradiction. cbn [at_least] in Hr.
  split.
  { apply mul_nonneg_r; [|reflexivity].
    apply div_nonneg; [apply of_Z_nonneg; lia | reflexivity]. }
  set (j' := Z.min j 64).
  assert (Hzj' : z < 2 ^ j').
  { unfold j'. destruct (Z.min_spec j 64) as [[_ ->]|[_ ->]]; lia. }
  assert (Ha : below (j' + 1) (of_Z z)).
  { apply of_Z_below; [lia|]. unfold j', prec, emax. lia. }
  set (k' := Z.min k (j' + 1000)).
  assert (Hq : below (j' + 1 - k' + 2) (div (of_Z z) (S754_finite false m e))).
  { apply div_below; [exact Ha | unfold k'; lia | |];
      unfold k', j', emin, prec, emax; lia. }
  apply (below_mono (j' + 1 - k' + 2 + 10 + 1)); [unfold k', j'; lia|].
  apply mul_below; [exact Hq | vm_compute; discriminate | |];
    unfold k', j', emin, prec, emax; lia.
Qed.

(** C5 (as the code has it). For every tracker state [eta()] returns a zero
    duration when the rate [get_rate()] gives is [<= 0]. Otherwise the rate
    it divides by is not zero, and [eta()] converts
    [double(total - current) / rate * 1000] to [int64_t] milliseconds,
    [total - current] being the difference of [std::size_t] (the difference
    of the numbers as long as the counter is not beyond the total): the
    result is the integer part of that product exactly when the product is
    finite with an integer part that [int64_t] holds, and the conversion is
    undefined otherwise. It is defined, and not negative, whenever the
    operand is below [2^j] and the rate [2^(k-1)] or more with
    [j - k <= 49]: fewer than 2^50 left at one per second or more, for
    one. With a total of 0, [percentage()] is 0 in every
    state and the operand of [eta()] is [2^64 - current] (0 for a counter
    of 0, when [eta()] is zero for any rate that is a number). A tracker as
    it is constructed, and after its first [advance], has an eta of zero
    whatever its total: one sample gives no rate. *)
Theorem eta_zero_or_remaining_over_rate :
  forall (now : Z) (tr : t),
    let r := fst (get_rate now tr) in
    let product := mul (div (of_Z (remaining tr)) r) d1000 in
    snd (eta now tr) = snd (get_rate now tr) /\
    (leb r zero = true -> fst (eta now tr) = Some 0) /\
    (leb r zero = false ->
     (forall s, r <> S754_zero s) /\
     fst (eta now tr) = to_int64 product /\
     (forall ms, fst (eta now tr) = Some ms <->
                 truncate product = Some ms /\ INT64_MIN <= ms <= INT64_MAX)) /\
    (forall j k : Z,
        0 <= j -> remaining tr < 2 ^ j -> at_least k r -> j - k <= 49 ->
        exists ms, fst (eta now tr) = Some ms /\ 0 <= ms < 2 ^ 63) /\
    (0 <= current_ tr <= total_ tr -> total_ tr < 2 ^ 64 ->
     remaining tr = total_ tr - current_ tr) /\
    (total_ tr = 0 ->
     percentage tr = zero /\
     (0 < current_ tr < 2 ^ 64 -> remaining tr = 2 ^ 64 - current_ tr) /\
     (current_ tr = 0 -> is_nan r = false -> fst (eta now tr) = Some 0)) /\
    (forall total now0 n now1 : Z,
        fst (eta now (create total now0)) = Some 0 /\
        fst (eta now (advance n now1 (create total now0))) = Some 0).
Proof.
  intros now tr r product. rewrite eta_unfold. fold r. cbn [fst snd].
  split; [reflexivity|]. split; [intros ->; reflexivity|]. split.
  { intros H. rewrite H. split; [|split; [reflexivity|]].
    - intros s. apply not_le_zero_nonzero. exact H.
    - intros ms. apply to_int64_spec. }
  split.
  { intros j k Hj Hrem Hr Hjk.
    destruct (eta_product_below (remaining tr) r j k (wrap64_range _)
                Hj Hrem Hr Hjk) as [Hnn Hb].
    fold product in Hnn, Hb.
    destruct (to_int64_below 63 product ltac:(lia) Hb) as (ms & Hms & Hlt).
    exists ms.
    replace (leb r zero) with false
      by (destruct r as [| | |[] m e]; try contradiction; reflexivity).
    split; [exact Hms|].
    pose proof (to_int64_nonneg product ms Hnn Hms). lia. }
  split.
  { intros Hc Ht. unfold remaining, wrap64. apply Z.mod_small. lia. }
  split.
  { intros H0. split; [unfold percentage; rewrite H0; reflexivity|]. split.
    - intros Hc. unfold remaining, wrap64. rewrite H0.
      symmetry. apply Z.mod_unique with (-1); lia.
    - intros Hc Hnan. destruct (leb r zero) eqn:Hle; [reflexivity|].
      unfold product, remaining. rewrite H0, Hc.
      change (of_Z (wrap64 (0 - 0))) with zero.
      destruct r as [[]|[]| |[] m e];
        try discriminate Hnan; try discriminate Hle; reflexivity. }
  intros total now0 n now1. split.
  - apply eta_no_rate; reflexivity.
  - apply eta_no_rate; [reflexivity | apply estimate_one_sample].
Qed.

(** The claim of C5 fails on both counts. A tracker of total 10^16 with 2
    done at one per second is not beyond its total and has a rate of 1,
    and the product to convert, about 10^19 milliseconds, is beyond
    [int64_t]: the conversion is undefined, and [eta()] returns no
    duration that the quotient gives. A tracker of total 0 advanced by 1
    and by 3000, one microsecond apart, has percentage 0 and a rate above
    zero, and its eta is not a zero duration but 6148914691236 ms. *)
Lemma eta_undefined_or_not_zero :
  let tr := advance 1 2000005000 (advance 1 1000005000 (create (10 ^ 16) 5000)) in
  let tr0 := advance 3000 1006000 (advance 1 1005000 (create 0 5000)) in
  (current_ tr <= total_ tr /\
   fst (get_rate 3000000000 tr) = of_Z 1 /\
   truncate (mul (div (of_Z (total_ tr - current_ tr))
                      (fst (get_rate 3000000000 tr))) d1000)
   = Some 9999999999999997952 /\
   INT64_MAX < 9999999999999997952 /\
   fst (eta 3000000000 tr) = None) /\
  (total_ tr0 = 0 /\
   percentage tr0 = zero /\
   ltb zero (fst (get_rate 3000000000 tr0)) = true /\
   fst (eta 3000000000 tr0) = Some 6148914691236 /\
   fst (eta 3000000000 tr0) <> Some 0).
Proof.
  cbv zeta.
  split; [split; [|split; [|split; [|split]]] | split; [|split; [|split; [|split]]]];
    try (vm_compute; reflexivity); vm_compute; discriminate.
Qed.

Lemma eta_zero_or_remaining_over_rate_witness :
  let tr := advance 10 2000005000 (advance 10 1000005000 (create 100 5000)) in
  let now := 3000000000 in
  leb (fst (get_rate now tr)) zero = false /\
  remaining tr = 80 /\
  fst (eta now tr) = Some 8000.
Proof.
  cbv zeta.
  pose proof (eta_zero_or_remaining_over_rate 3000000000
                (advance 10 2000005000 (advance 10 1000005000 (create 100 5000))))
    as (_ & _ & Hpos & _ & Hrem & _).
  cbv zeta in Hpos, Hrem.
  split; [reflexivity|]. split.
  - rewrite Hrem; [reflexivity | vm_compute; split; discriminate | reflexivity].
  - apply (proj2 (Hpos eq_refl)). split; [reflexivity|].
    vm_compute. split; discriminate.
Defined.

(** C10 (as the code has it). [eta()] takes [total - current] in
    [std::size_t] and does not clamp it: when the counter is beyond the
    total and the rate is above zero, the operand is
    [2^64 - (current - total)], at least 1, and [eta()] is the conversion
    to [int64_t] milliseconds of that operand divided by the rate, times
    1000. The conversion is defined only below 2^63 and then is not
    negative. *)
Theorem eta_overshoot_wraps :
  forall (now : Z) (tr : t),
    0 <= total_ tr ->
    total_ tr < current_ tr ->
    current_ tr < 2 ^ 64 ->
    ltb zero (fst (get_rate now tr)) = true ->
    let r := fst (get_rate now tr) in
    let wrapped := 2 ^ 64 - (current_ tr - total_ tr) in
    remaining tr = wrapped /\
    1 <= wrapped < 2 ^ 64 /\
    fst (eta now tr) = to_int64 (mul (div (of_Z wrapped) r) d1000) /\
    (forall ms, fst (eta now tr) = Some ms -> 0 <= ms).
Proof.
  intros now tr Ht Hover Hc Hpos r wrapped.
  destruct (positive_rate _ Hpos) as [Hle Hr]. fold r in Hle, Hr.
  assert (Hrem : remaining tr = wrapped).
  { unfold remaining, wrap64, wrapped.
    symmetry. apply Z.mod_unique with (-1); lia. }
  assert (Hw : 1 <= wrapped < 2 ^ 64) by (unfold wrapped; lia).
  assert (Heta : fst (eta now tr) = to_int64 (mul (div (of_Z wrapped) r) d1000)).
  { rewrite eta_unfold. cbn [fst]. fold r. rewrite Hle, Hrem. reflexivity. }
  split; [exact Hrem|]. split; [exact Hw|]. split; [exact Heta|].
  intros ms. rewrite Heta. apply to_int64_nonneg.
  apply mul_nonneg_r; [|reflexivity].
  destruct Hr as [Hr | ->].
  - apply div_nonneg; [|exact Hr].
    apply finite_pos_nonneg, of_Z_finite_pos. lia.
  - pose proof (of_Z_finite_pos wrapped ltac:(lia)) as Hf.
    destruct (of_Z wrapped) as [| | |[] m e]; try discriminate Hf. reflexivity.
Qed.

(** The claim of C10 fails on both counts. A tracker of total 0 advanced by
    1 and then by 2^64 - 2, one microsecond apart, is beyond its total with
    a rate above zero, and its eta is zero: the operand wraps to 1. A
    tracker of total 10 advanced to 11 at 1000 per second is beyond its
    total as well, and the product to convert is above 2^63: the conversion
    to [int64_t] is not defined, and no positive duration is returned. *)
Lemma eta_overshoot_not_enormous :
  let tr := advance (2 ^ 64 - 2) 7000 (advance 1 6000 (create 0 5000)) in
  let tr' := advance 1 2005000 (advance 10 1005000 (create 10 5000)) in
  (total_ tr < current_ tr /\
   ltb zero (fst (get_rate 1000000000 tr)) = true /\
   remaining tr = 1 /\
   fst (eta 1000000000 tr) = Some 0) /\
  (total_ tr' < current_ tr' /\
   ltb zero (fst (get_rate 1000000000 tr')) = true /\
   remaining tr' = 2 ^ 64 - 1 /\
   fst (eta 1000000000 tr') = None).
Proof.
  cbv zeta. split; (split; [|split; [|split]]); try (vm_compute; reflexivity).
Qed.

Lemma eta_overshoot_wraps_witness :
  let tr := advance 3000000 2005000 (advance 10 1005000 (create 10 5000)) in
  let now := 1000000000 in
  (0 <= total_ tr /\ total_ tr < current_ tr /\ current_ tr < 2 ^ 64 /\
   ltb zero (fst (get_rate now tr)) = true) /\
  remaining tr = 2 ^ 64 - (current_ tr - total_ tr) /\
  exists ms, fst (eta now tr) = Some ms /\ 0 <= ms.
Proof.
  cbv zeta.
  assert (H : 0 <= total_ (advance 3000000 2005000 (advance 10 1005000 (create 10 5000)))
         /\ total_ (advance 3000000 2005000 (advance 10 1005000 (create 10 5000)))
            < current_ (advance 3000000 2005000 (advance 10 1005000 (create 10 5000)))
         /\ current_ (advance 3000000 2005000 (advance 10 1005000 (create 10 5000)))
            < 2 ^ 64
         /\ ltb zero (fst (get_rate 1000000000
                (advance 3000000 2005000 (advance 10 1005000 (create 10 5000)))))
            = true).
  { repeat split; vm_compute; first [reflexivity | discriminate]. }
  split; [exact H|].
  destruct H as (H1 & H2 & H3 & H4).
  pose proof (eta_overshoot_wraps _ _ H1 H2 H3 H4) as (Hrem & _ & _ & Hms).
  split; [exact Hrem|].
  eexists. split; [vm_compute; reflexivity|].
  apply Hms. vm_compute. reflexivity.
Defined.

End TrackerFigures.

(** ** The rate estimator *)

Section RateEstimator.

Import progress_tracker.

Lemma scanned_init h : scanned h 0 scan_init.
Proof.
  unfold scanned, scan_init, INT64_MAX; simpl.
  repeat split; intros; lia.
Qed.

Lemma scan_step_newest h s k :
  let ts := timestamp (get_entry h k) in
  let hit := (0 <? ts) && (newest_time s <? ts) in
  newest_time (scan_step h s k) = (if hit then ts else newest_time s) /\
  newest_idx (scan_step h s k) = (if hit then k else newest_idx s).
Proof.
  unfold scan_step. simpl.
  destruct (0 <? timestamp (get_entry h k)); simpl; [|auto].
  destruct (timestamp (get_entry h k) <? oldest_time s); simpl;
    destruct (newest_time s <? timestamp (get_entry h k)); simpl; auto.
Qed.

Lemma scan_step_oldest h s k :
  let ts := timestamp (get_entry h k) in
  let hit := (0 <? ts) && (ts <? oldest_time s) in
  oldest_time (scan_step h s k) = (if hit then ts else oldest_time s) /\
  oldest_idx (scan_step h s k) = (if hit then k else oldest_idx s).
Proof.
  unfold scan_step. simpl.
  destruct (0 <? timestamp (get_entry h k)); simpl; [|auto].
  destruct (timestamp (get_entry h k) <? oldest_time s); simpl;
    destruct (newest_time s <? timestamp (get_entry h k)); simpl; auto.
Qed.

Lemma scanned_step h k s :
  Forall (fun e => timestamp e <= INT64_MAX) h ->
  scanned h k s -> scanned h (S k) (scan_step h s k).
Proof.
  intros Hfit (Hall & Hn0 & Ho & Hnew & Hold & Hnf & Hof).
  assert (Hk : timestamp (get_entry h k) <= INT64_MAX).
  { unfold get_entry. destruct (nth_in_or_default k h empty_entry) as [Hin| ->].
    - exact (proj1 (List.Forall_forall _ _) Hfit _ Hin).
    - unfold INT64_MAX; simpl; lia. }
  destruct (scan_step_newest h s k) as [Hnt Hni].
  destruct (scan_step_oldest h s k) as [Hot Hoi].
  unfold scanned. rewrite Hnt, Hni, Hot, Hoi. clear Hnt Hni Hot Hoi.
  set (ts := timestamp (get_entry h k)) in *.
  destruct (Z.ltb_spec 0 ts) as [Hv|Hv];
    destruct (Z.ltb_spec (newest_time s) ts) as [Hhi|Hhi];
    destruct (Z.ltb_spec ts (oldest_time s)) as [Hlo|Hlo];
    cbn [andb].
  all: split;
    [intros j Hj Hjv; destruct (decide (j = k)) as [->|];
       [fold ts in Hjv |- *; lia | specialize (Hall j ltac:(lia) Hjv); lia] |].
  all: split; [lia|]. 
  all: split; [lia|].
  all: split;
    [intros H; first [split; [lia|reflexivity]
                     | destruct (Hnew H); split; [lia|assumption]] |].
  all: split;
    [intros H; first [split; [lia|split; [reflexivity|lia]]
                     | destruct (Hold H) as (?&?&?);
                       split; [lia|split; assumption]] |].
  all: split; intros j Hj Hjv;
    first [apply Hnf; assumption | apply Hof; assumption
          | specialize (Hall j ltac:(lia) Hjv); lia].
Qed.

Lemma scan_history_snoc h k :
  scan_history h (S k) = scan_step h (scan_history h k) k.
Proof.
  unfold scan_history. rewrite seq_S, fold_left_app. reflexivity.
Qed.

Lemma scanned_history h k :
  Forall (fun e => timestamp e <= INT64_MAX) h ->
  scanned h k (scan_history h k).
Proof.
  intros Hfit. induction k as [|k IH].
  - apply scanned_init.
  - rewrite scan_history_snoc. apply scanned_step; assumption.
Qed.

Lemma time_at_fits tr j : timestamps_fit tr -> time_at tr j <= INT64_MAX.
Proof.
  intros Hfit. unfold time_at, get_entry.
  destruct (nth_in_or_default j (history_ tr) empty_entry) as [Hin| ->].
  - exact (proj1 (List.Forall_forall _ _) Hfit _ Hin).
  - unfold INT64_MAX; simpl; lia.
Qed.

Lemma get_rate_stale now tr :
  cache_fresh now tr = false ->
  fst (get_rate now tr) = estimate tr /\
  rate (cache_ (snd (get_rate now tr))) = estimate tr /\
  last_update (cache_ (snd (get_rate now tr))) = now.
Proof. intros H. unfold get_rate. rewrite H. simpl. auto. Qed.

Lemma get_rate_fresh now tr :
  cache_fresh now tr = true -> get_rate now tr = (rate (cache_ tr), tr).
Proof. intros H. unfold get_rate. rewrite H. reflexivity. Qed.

(** The estimate is a number, and not a negative one. *)
Lemma estimate_nonneg tr : timestamps_fit tr -> nonneg (estimate tr) = true.
Proof.
  intros Hfit.
  pose proof (scanned_history (history_ tr) (entries_to_check tr) Hfit)
    as (_ & Hn0 & Ho & Hnew & Hold & _ & _).
  unfold estimate.
  set (s := scan_history (history_ tr) (entries_to_check tr)) in *.
  destruct (Z.ltb_spec (oldest_time s) (newest_time s)) as [Hlt|Hge];
    [|reflexivity].
  destruct (negb (Nat.eqb (newest_idx s) (oldest_idx s))); [|reflexivity].
  cbn [andb].
  destruct (Z.ltb_spec 0 (newest_time s - oldest_time s)) as [Hd|Hd];
    [|reflexivity].
  assert (Hpos : 0 < newest_time s).
  { destruct (Z.lt_ge_cases 0 (newest_time s)) as [|Hle]; [assumption|].
    assert (Hlow : oldest_time s < INT64_MAX) by (unfold INT64_MAX; lia).
    destruct (Hold Hlow) as (_ & _ & ?). lia. }
  assert (Hmax : newest_time s <= INT64_MAX).
  { destruct (Hnew Hpos) as [_ <-]. apply (time_at_fits tr _ Hfit). }
  assert (Hmin : 0 < oldest_time s).
  { apply Hold. lia. }
  apply div_nonneg.
  - apply mul_nonneg; [reflexivity|]. apply of_Z_nonneg.
    pose proof (wrap64_range (progress (get_entry (history_ tr) (newest_idx s))
                              - progress (get_entry (history_ tr) (oldest_idx s)))).
    lia.
  - apply of_Z_finite_pos. unfold INT64_MAX in Hmax. lia.
Qed.


Lemma timestamps_fit_check tr :
  forallb (fun e => timestamp e <=? INT64_MAX) (history_ tr) = true ->
  timestamps_fit tr.
Proof.
  intros H. unfold timestamps_fit. apply List.Forall_forall. intros e He.
  apply Z.leb_le. exact (proj1 (forallb_forall _ _) H e He).
Qed.


End RateEstimator.

(** ** Threads on one tracker: no update is lost *)

Section TrackerThreads.

Import progress_tracker tracker_threads.

Lemma sumZ_insert {A} (f : A -> Z) (l : list A) (i : nat) (x y : A) :
  l !! i = Some y ->
  sum (map f (<[i := x]> l)) + f y = sum (map f l) + f x.
Proof.
  revert i. induction l as [|a l IH]; intros [|i] H; simpl in *; try discriminate.
  - injection H as ->. lia.
  - specialize (IH i H). lia.
Qed.

(** The sample of one call, written by its two stores. *)
Lemma stores_one_sample idx p ts (h : list history_entry) :
  store_timestamp idx ts (store_progress idx p h) = <[idx := mk_entry p ts]> h.
Proof.
  unfold store_timestamp, store_progress, get_entry.
  destruct (decide (idx < length h)%nat) as [Hlt|Hge].
  - rewrite (nth_lookup_Some _ _ _ (mk_entry p (timestamp (nth idx h empty_entry)))).
    + simpl. apply list_insert_insert_eq.
    + apply list_lookup_insert_eq. exact Hlt.
  - rewrite !list_insert_ge by (rewrite ?length_insert; lia). reflexivity.
Qed.

(** What a step of a thread does to the counter and to what the thread
    still owes it. *)
Lemma step_conserves now th tr th' tr' :
  step now th tr = Some (th', tr') ->
  wrap64 (current_ tr' + owed th') = wrap64 (current_ tr + owed th).
Proof.
  unfold step, owed. destruct th as [p pend]; simpl.
  destruct p; [destruct pend as [|n rest]|..]; simpl;
    intros [= <- <-]; simpl; try reflexivity.
  rewrite wrap64_add_l. f_equal. lia.
Qed.

Lemma run_one_conserves st pick :
  wrap64 (current_ (tracker (run_one st pick)) + owed_all (threads (run_one st pick)))
  = wrap64 (current_ (tracker st) + owed_all (threads st)).
Proof.
  unfold run_one. destruct pick as [tid now].
  destruct (threads st !! tid) as [th|] eqn:Hth; [|reflexivity].
  destruct (step now th (tracker st)) as [[th' tr']|] eqn:Hs; [|reflexivity].
  simpl. pose proof (step_conserves _ _ _ _ _ Hs) as Hc.
  pose proof (sumZ_insert owed _ _ th' _ Hth) as Hsum.
  unfold owed_all.
  replace (current_ tr' + sum (map owed (<[tid := th']> (threads st))))
    with ((current_ tr' + owed th') + (sum (map owed (threads st)) - owed th))
    by lia.
  replace (current_ (tracker st) + sum (map owed (threads st)))
    with ((current_ (tracker st) + owed th) + (sum (map owed (threads st)) - owed th))
    by lia.
  rewrite <- wrap64_add_l, Hc, wrap64_add_l. reflexivity.
Qed.

Lemma run_conserves schedule : forall st,
  wrap64 (current_ (tracker (run schedule st)) + owed_all (threads (run schedule st)))
  = wrap64 (current_ (tracker st) + owed_all (threads st)).
Proof.
  induction schedule as [|pick sched IH]; intros st; [reflexivity|].
  simpl. rewrite IH. apply run_one_conserves.
Qed.

Lemma owed_spawn calls : owed_all (spawn calls) = sum (map sum calls).
Proof.
  unfold owed_all, spawn. induction calls as [|c calls IH]; simpl; [reflexivity|].
  rewrite IH. reflexivity.
Qed.

Lemma owed_done ths : forallb done ths = true -> owed_all ths = 0.
Proof.
  unfold owed_all. induction ths as [|th ths IH]; simpl; [reflexivity|].
  intros H. apply andb_prop in H as [H1 H2]. rewrite (IH H2).
  unfold done in H1. unfold owed.
  destruct (at_ th), (pending th); try discriminate. reflexivity.
Qed.

(** The counter holds a [std::size_t] once a call has touched it. *)
Lemma step_in_range now th tr th' tr' :
  step now th tr = Some (th', tr') ->
  wrap64 (current_ tr) = current_ tr -> wrap64 (current_ tr') = current_ tr'.
Proof.
  unfold step. destruct th as [p pend]; simpl.
  destruct p; [destruct pend as [|n rest]|..]; simpl;
    intros [= <- <-]; simpl; auto.
  intros _. apply wrap64_idem.
Qed.

Lemma run_in_range schedule : forall st,
  wrap64 (current_ (tracker st)) = current_ (tracker st) ->
  wrap64 (current_ (tracker (run schedule st)))
  = current_ (tracker (run schedule st)).
Proof.
  induction schedule as [|[tid now] sched IH]; intros st H; [exact H|].
  simpl. apply IH. unfold run_one.
  destruct (threads st !! tid) as [th|]; [|exact H].
  destruct (step now th (tracker st)) as [[th' tr']|] eqn:Hs; [|exact H].
  simpl. eapply step_in_range; eauto.
Qed.

End TrackerThreads.

(** ** Threads on one tracker: schedules that complete *)

Section TrackerSchedules.

Import progress_tracker tracker_threads.

Lemma run_app s1 s2 st : run (s1 ++ s2) st = run s2 (run s1 st).
Proof. unfold run. apply fold_left_app. Qed.

Lemma run_cons pick s st : run (pick :: s) st = run s (run_one st pick).
Proof. reflexivity. Qed.

Lemma step_none now th tr : step now th tr = None <-> done th = true.
Proof.
  unfold step, done. destruct th as [p pend]; simpl.
  destruct p; [destruct pend|..]; simpl; split; congruence.
Qed.

Lemma step_work now th tr th' tr' :
  step now th tr = Some (th', tr') -> S (work th') = work th.
Proof.
  unfold step, work. destruct th as [p pend]; simpl.
  destruct p; [destruct pend as [|n rest]|..]; simpl;
    intros [= <- <-]; simpl; lia.
Qed.

Lemma done_work th : work th = 0%nat -> done th = true.
Proof.
  unfold work, done. destruct th as [p pend]; simpl.
  destruct p, pend; simpl; intros; try lia; reflexivity.
Qed.

(** A thread picked as many times as it has operations left runs to its
    end; the other threads stay where they are. *)
Lemma solo_run now tid : forall (k : nat) (st : state) (th : thread),
  threads st !! tid = Some th ->
  (work th <= k)%nat ->
  exists tr' th',
    run (replicate k (tid, now)) st = mk_state tr' (<[tid := th']> (threads st)) /\
    done th' = true.
Proof.
  induction k as [|k IH]; intros st th Hth Hk.
  - exists (tracker st), th. simpl. rewrite list_insert_id by exact Hth.
    split; [destruct st; reflexivity | apply done_work; lia].
  - change (replicate (S k) (tid, now)) with ((tid, now) :: replicate k (tid, now)).
    rewrite run_cons. unfold run_one. rewrite Hth.
    destruct (step now th (tracker st)) as [[th1 tr1]|] eqn:Hs.
    + pose proof (step_work _ _ _ _ _ Hs) as Hw.
      assert (Hlt : (tid < length (threads st))%nat)
        by (eapply lookup_lt_Some; exact Hth).
      destruct (IH (mk_state tr1 (<[tid := th1]> (threads st))) th1)
        as (tr' & th' & Hrun & Hd).
      { simpl. apply list_lookup_insert_eq. exact Hlt. }
      { lia. }
      exists tr', th'. split; [|exact Hd].
      rewrite Hrun. simpl. rewrite list_insert_insert_eq. reflexivity.
    + apply step_none in Hs.
      destruct (IH st th Hth) as (tr' & th' & Hrun & Hd).
      { unfold done in Hs. unfold work.
        destruct (at_ th), (pending th); try discriminate. simpl. lia. }
      exists tr', th'. split; [exact Hrun | exact Hd].
Qed.

(** Every pool of threads has a schedule under which all calls return. *)
Lemma in_turn_completes now : forall (todo finished : list thread) (tr : t),
  forallb done finished = true ->
  all_done (run (in_turn (length finished) now todo)
                (mk_state tr (finished ++ todo))) = true.
Proof.
  induction todo as [|th rest IH]; intros finished tr Hfin.
  - simpl. unfold all_done; simpl. rewrite app_nil_r. exact Hfin.
  - simpl. rewrite run_app. unfold solo.
    destruct (solo_run now (length finished) (work th)
                (mk_state tr (finished ++ th :: rest)) th)
      as (tr' & th' & Hrun & Hd).
    { simpl. apply list_lookup_middle. reflexivity. }
    { lia. }
    rewrite Hrun. simpl.
    replace (<[length finished := th']> (finished ++ th :: rest))
      with ((finished ++ [th']) ++ rest).
    2:{ rewrite insert_app_r_alt by lia. rewrite Nat.sub_diag. simpl.
        rewrite <- app_assoc. reflexivity. }
    replace (S (length finished)) with (length (finished ++ [th']))
      by (rewrite length_app; simpl; lia).
    apply IH. rewrite forallb_app. simpl. rewrite Hfin, Hd. reflexivity.
Qed.

(** One thread running one call alone is [advance]. *)
Lemma solo_advance n now tr :
  run (replicate 5 (0%nat, now)) (mk_state tr [mk_thread Call [n]])
  = mk_state (advance n now tr) [mk_thread Call []].
Proof. reflexivity. Qed.

(** C1. Conservation of the increments: threads call [advance] on one
    tracker, each call being its five operations, scheduled in any order.
    At every moment the counter plus the increments of the calls not yet
    begun is the prior value plus the sum [total] of all the increments, in the
    arithmetic of [std::size_t] (modulo 2^64); so once every call has
    returned the counter is the prior value plus [total] (exactly so, without
    wrap-around, whenever that sum fits in 64 bits): no update is lost,
    whatever the interleaving and the number of threads. There is always a
    schedule under which every call returns. One call [advance(n)] first
    adds [n] to the counter and then writes exactly one sample, the new
    counter and the microseconds since the start, into the ring slot
    [history_index_ mod 64]. *)
Theorem advance_conserves_increments :
  forall (tr : t) (calls : list (list Z)),
    let total := sum (map sum calls) in
    (forall (schedule : list (nat * Z)),
        let st := run schedule (mk_state tr (spawn calls)) in
        wrap64 (current_ (tracker st) + owed_all (threads st))
          = wrap64 (current_ tr + total) /\
        (all_done st = true ->
         wrap64 (current (tracker st)) = wrap64 (current tr + total)) /\
        (all_done st = true ->
         wrap64 (current tr) = current tr ->
         current (tracker st) = wrap64 (current tr + total)) /\
        (all_done st = true ->
         0 <= current tr -> 0 <= total -> current tr + total < 2 ^ 64 ->
         current (tracker st) = current tr + total)) /\
    (forall now : Z,
        all_done (run (in_turn 0 now (spawn calls)) (mk_state tr (spawn calls)))
          = true) /\
    (forall n now : Z,
        let idx := Z.to_nat (history_index_ tr mod HISTORY_SIZE) in
        let sample :=
          mk_entry (wrap64 (current_ tr + n))
                   (to_microseconds (now - start_time_ tr)) in
        run (replicate 5 (0%nat, now)) (mk_state tr [mk_thread Call [n]])
          = mk_state (advance n now tr) [mk_thread Call []] /\
        current (advance n now tr) = wrap64 (current_ tr + n) /\
        history_ (advance n now tr) = <[idx := sample]> (history_ tr) /\
        history_index_ (advance n now tr) = wrap64 (history_index_ tr + 1) /\
        (length (history_ tr) = Z.to_nat HISTORY_SIZE ->
         history_ (advance n now tr) !! idx = Some sample /\
         forall j : nat, j <> idx ->
           history_ (advance n now tr) !! j = history_ tr !! j)).
Proof.
  intros tr calls total. split; [|split].
  - intros schedule st. unfold current.
    assert (Hinv : wrap64 (current_ (tracker st) + owed_all (threads st))
                   = wrap64 (current_ tr + total)).
    { subst st. rewrite run_conserves. simpl. rewrite owed_spawn. reflexivity. }
    assert (Hdone : all_done st = true ->
                    wrap64 (current_ (tracker st)) = wrap64 (current_ tr + total)).
    { intros Hd. rewrite <- Hinv, (owed_done _ Hd), Z.add_0_r. reflexivity. }
    assert (Hrange : all_done st = true -> wrap64 (current_ tr) = current_ tr ->
                     current_ (tracker st) = wrap64 (current_ tr + total)).
    { intros Hd Hw. rewrite <- (Hdone Hd). symmetry.
      subst st. apply run_in_range. exact Hw. }
    split; [exact Hinv|]. split; [exact Hdone|]. split; [exact Hrange|].
    intros Hd H0 HS Hlt.
    rewrite Hrange; [apply wrap64_small; lia | exact Hd | apply wrap64_small; lia].
  - intros now. apply (in_turn_completes now (spawn calls) [] tr). reflexivity.
  - intros n now idx sample.
    split; [reflexivity|]. split; [reflexivity|].
    assert (Hh : history_ (advance n now tr) = <[idx := sample]> (history_ tr)).
    { unfold advance; simpl. apply stores_one_sample. }
    split; [exact Hh|]. split; [reflexivity|].
    intros Hlen. rewrite Hh. split.
    + apply list_lookup_insert_eq. rewrite Hlen. subst idx.
      unfold HISTORY_SIZE.
      pose proof (Z.mod_pos_bound (history_index_ tr) 64 ltac:(lia)). lia.
    + intros j Hj. apply list_lookup_insert_ne. congruence.
Qed.

End TrackerSchedules.

(** ** The bar, one call at a time *)

Section BarSequential.

Import progress_bar.

Lemma try_render_tracker tty now cas b :
  tracker_ (fst (try_render tty now cas b)) = tracker_ b.
Proof. try_render_cases tty cas b. Qed.

Lemma try_render_finished tty now cas b :
  finished_ (fst (try_render tty now cas b)) = finished_ b.
Proof. try_render_cases tty cas b. Qed.

Lemma try_render_display tty now cas b :
  display_ (fst (try_render tty now cas b)) = display_ b.
Proof. try_render_cases tty cas b. Qed.

Lemma try_render_no_finish tty now cas b :
  finishes (snd (try_render tty now cas b)) = 0%nat.
Proof. try_render_cases tty cas b. Qed.

Lemma advance_tracker tty n o b :
  tracker_ (fst (advance tty n o b)) =
  option_map (progress_tracker.advance n (now_advance o)) (tracker_ b).
Proof.
  unfold advance. rewrite try_render_tracker.
  destruct (tracker_ b) as [tr|] eqn:Ht; simpl; auto.
Qed.

Lemma advance_finished tty n o b :
  finished_ (fst (advance tty n o b)) = finished_ b.
Proof.
  unfold advance. rewrite try_render_finished.
  destruct (tracker_ b); reflexivity.
Qed.

Lemma advance_display tty n o b :
  display_ (fst (advance tty n o b)) = display_ b.
Proof.
  unfold advance. rewrite try_render_display.
  destruct (tracker_ b); reflexivity.
Qed.

Lemma advance_no_finish tty n o b :
  finishes (snd (advance tty n o b)) = 0%nat.
Proof. unfold advance. apply try_render_no_finish. Qed.

Lemma finishes_app l1 l2 :
  finishes (l1 ++ l2) = (finishes l1 + finishes l2)%nat.
Proof. unfold finishes. rewrite filter_app, length_app. reflexivity. Qed.

End BarSequential.

(** ** The life of a bar *)

Section BarLifetime.

Import progress_bar.

Lemma create_active tty total display now :
  active (fst (create tty total display now)).
Proof. unfold create, active; simpl; eauto. Qed.

Lemma create_no_finish tty total display now :
  finishes (snd (create tty total display now)) = 0%nat.
Proof. unfold create; destruct tty; reflexivity. Qed.

Lemma advance_active tty n o b :
  active b -> active (fst (advance tty n o b)).
Proof.
  intros (Hf & Ht & Hd). unfold active.
  rewrite advance_finished, advance_tracker, advance_display.
  destruct Ht as [tr ->]. simpl. eauto.
Qed.

Lemma advances_active tty calls : forall b,
  active b -> active (fst (advances tty calls b)).
Proof.
  induction calls as [|[n o] calls IH]; intros b Hb; simpl; [exact Hb|].
  pose proof (advance_active tty n o b Hb) as H1.
  destruct (advance tty n o b) as [b1 l1]; simpl in H1.
  specialize (IH b1 H1).
  destruct (advances tty calls b1) as [b2 l2]; exact IH.
Qed.

Lemma advances_no_finish tty calls : forall b,
  finishes (snd (advances tty calls b)) = 0%nat.
Proof.
  induction calls as [|[n o] calls IH]; intros b; simpl; [reflexivity|].
  pose proof (advance_no_finish tty n o b) as H1.
  destruct (advance tty n o b) as [b1 l1]; simpl in H1.
  specialize (IH b1).
  destruct (advances tty calls b1) as [b2 l2]; simpl in *.
  rewrite finishes_app. lia.
Qed.

Lemma finish_active tty b :
  active b ->
  finished_ (fst (finish tty b)) = true /\
  finishes (snd (finish tty b)) = if tty then 1%nat else 0%nat.
Proof.
  intros (Hf & [tr Ht] & [d Hd]). unfold finish.
  rewrite Hf, Ht, Hd. destruct tty; simpl; auto.
Qed.

Lemma finish_finished tty b :
  finished_ b = true -> finish tty b = (b, []).
Proof. intros Hf. unfold finish. rewrite Hf. reflexivity. Qed.

Lemma destroy_active tty b :
  active b ->
  destroy tty b = (if tty then finish tty b else (b, [])) /\
  finishes (snd (destroy tty b)) = if tty then 1%nat else 0%nat.
Proof.
  intros Hb. pose proof (finish_active tty b Hb) as [_ Hn].
  destruct Hb as (Hf & _). unfold destroy. rewrite Hf.
  destruct tty; simpl; auto.
Qed.

Lemma destroy_finished tty b :
  finished_ b = true -> destroy tty b = (b, []).
Proof. intros Hf. unfold destroy. rewrite Hf. reflexivity. Qed.

(** C4. Scoped teardown: the destructor of a bar that is still active runs
    the one-shot [finish] when the interactive-output signal is true, which
    dispatches exactly one terminal render and leaves the bar finished, and
    does nothing when the signal is false. A bar that is constructed,
    advanced any number of times and never finished by hand is such a bar:
    its whole life holds exactly one terminal render under an interactive
    signal and none otherwise. *)
Theorem scoped_teardown_finishes_once :
  forall (tty : bool),
    (forall b : t,
        owns b ->
        finished_ b = false ->
        destroy tty b = (if tty then finish tty b else (b, [])) /\
        finished_ (fst (destroy tty b)) = tty /\
        finishes (snd (destroy tty b)) = (if tty then 1%nat else 0%nat)) /\
    (forall (total : Z) (display : option display_policy) (now : Z)
            (calls : list (Z * oracle)),
        let b := fst (advances tty calls (fst (create tty total display now))) in
        owns b /\ finished_ b = false /\
        finishes (scoped tty total display now calls)
          = (if tty then 1%nat else 0%nat)).
Proof.
  intros tty. split.
  - intros b Ho Hf.
    assert (Hb : active b) by (split; [exact Hf | exact (Ho Hf)]).
    destruct (destroy_active tty b Hb) as [Hd Hn].
    split; [exact Hd|]. split; [|exact Hn].
    rewrite Hd. destruct tty; [apply (finish_active true b Hb) | exact Hf].
  - intros total display now calls b.
    assert (Hb : active b) by apply advances_active, create_active.
    split; [intros _; apply Hb|]. split; [apply Hb|].
    destruct (destroy_active tty b Hb) as [_ Hn].
    unfold scoped.
    pose proof (create_no_finish tty total display now) as H0.
    subst b. destruct (create tty total display now) as [b0 l0]; simpl in *.
    pose proof (advances_no_finish tty calls b0) as H1.
    destruct (advances tty calls b0) as [b1 l1]; simpl in *.
    rewrite !finishes_app. lia.
Qed.

End BarLifetime.

(** ** Moves *)

Section BarMoves.

Import progress_bar.

Lemma owns_create tty total display now :
  owns (fst (create tty total display now)).
Proof. unfold owns, create; simpl; eauto. Qed.

Lemma owns_advance tty n o b : owns b -> owns (fst (advance tty n o b)).
Proof.
  unfold owns. rewrite advance_finished, advance_tracker, advance_display.
  intros H Hf. destruct (H Hf) as [[tr ->] Hd]. simpl; eauto.
Qed.

Lemma owns_finish tty b : owns (fst (finish tty b)).
Proof.
  unfold owns, finish. destruct (finished_ b) eqn:Hf; simpl.
  - congruence.
  - destruct tty, (tracker_ b), (display_ b); simpl; congruence.
Qed.

Lemma owns_moved_from b : owns (moved_from b).
Proof. unfold owns, moved_from; simpl; congruence. Qed.

Lemma owns_move_construct b :
  owns b -> owns (fst (move_construct b)) /\ owns (snd (move_construct b)).
Proof.
  intros H. split; [|apply owns_moved_from].
  unfold owns, move_construct in *; simpl. exact H.
Qed.

Lemma owns_move_assign this other (h h' : heap) :
  map_Forall (fun _ b => owns b) h ->
  move_assign this other h = Some h' ->
  map_Forall (fun _ b => owns b) h'.
Proof.
  unfold move_assign. intros Hall.
  destruct (h !! this) as [a|] eqn:Ha; [|discriminate].
  destruct (h !! other) as [o|] eqn:Ho; [|discriminate].
  destruct (decide (this = other)); intros [= <-]; [exact Hall|].
  apply map_Forall_insert_2; [apply owns_moved_from|].
  apply map_Forall_insert_2; [|exact Hall].
  pose proof (Hall _ _ Ho) as H. unfold owns in *; simpl. exact H.
Qed.

(** A bar move-assigned to itself is left as it is. *)
Lemma move_assign_self (h : heap) (this : addr) (a : t) :
  h !! this = Some a -> move_assign this this h = Some h.
Proof.
  intros Ha. unfold move_assign. rewrite Ha.
  rewrite decide_True by reflexivity. reflexivity.
Qed.

(** C8. Moves: after a move construction, and after a move assignment
    between two different bars, the tracker and the display are with the
    destination and the source is left finished, so the destructor of the
    source dispatches nothing and changes nothing; what the destructor of
    the destination dispatches is what the destructor of the source would
    have dispatched before the move, so no bar is finalized twice. *)
Theorem moved_from_source_is_finished :
  forall (tty : bool),
    (forall other : t,
        let new := fst (move_construct other) in
        let source := snd (move_construct other) in
        tracker_ new = tracker_ other /\
        display_ new = display_ other /\
        finished_ source = true /\
        destroy tty source = (source, []) /\
        snd (destroy tty new) = snd (destroy tty other)) /\
    (forall (h : heap) (this other : addr) (a o : t),
        h !! this = Some a ->
        h !! other = Some o ->
        this <> other ->
        exists (h' : heap) (new source : t),
          move_assign this other h = Some h' /\
          h' !! this = Some new /\
          h' !! other = Some source /\
          tracker_ new = tracker_ o /\
          display_ new = display_ o /\
          finished_ source = true /\
          destroy tty source = (source, []) /\
          destroy_at tty other h' = Some (delete other h', []) /\
          snd (destroy tty new) = snd (destroy tty o)).
Proof.
  intros tty. split.
  - intros other new source. subst new source. unfold move_construct; simpl.
    repeat split.
    unfold destroy, finish; simpl.
    destruct (finished_ other), tty; simpl; try reflexivity.
    destruct (tracker_ other), (display_ other); reflexivity.
  - intros h this other a o Ha Ho Hne.
    eexists _, _, (moved_from o). unfold move_assign. rewrite Ha, Ho.
    rewrite decide_False by exact Hne.
    split; [reflexivity|]. split.
    { rewrite lookup_insert_ne by congruence. apply lookup_insert_eq. }
    split; [apply lookup_insert_eq|].
    simpl. repeat split.
    + unfold destroy_at. rewrite lookup_insert_eq. reflexivity.
    + unfold destroy, finish; simpl.
      destruct (finished_ o), tty; simpl; try reflexivity.
      destruct (tracker_ o), (display_ o); reflexivity.
Qed.

End BarMoves.

(** ** The range-for loop *)

Section RangeLoop.

Import progress_bar progress_range.

Lemma advance_calls_app tr1 tr2 :
  advance_calls (tr1 ++ tr2) = (advance_calls tr1 + advance_calls tr2)%nat.
Proof. unfold advance_calls. rewrite filter_app, length_app. reflexivity. Qed.

Lemma advance_calls_displayed l : advance_calls (map Displayed l) = 0%nat.
Proof. induction l as [|e l IH]; [reflexivity | exact IH]. Qed.

Lemma loop_unfold fuel tty env it last h :
  loop (S fuel) tty env it last h =
  if neq it last then
    match incr tty (env (current_ it)) it h with
    | Some (it', h', tr) =>
        match loop fuel tty env it' last h' with
        | Some (h'', tr') => Some (h'', tr ++ tr')
        | None => None
        end
    | None => None
    end
  else Some (h, []).
Proof. reflexivity. Qed.

Lemma loop_at_end fuel tty env e o h :
  loop fuel tty env (mk_iter e e o) (mk_iter e e None) h = Some (h, []).
Proof.
  destruct fuel; simpl; unfold neq; simpl; rewrite Nat.eqb_refl; reflexivity.
Qed.

(** The loop from position [k] with [m] positions to go: it ends within
    [m] rounds, and calls [advance] at every increment but the last. *)
Lemma loop_from tty env a (m : nat) :
  forall (extra k e : nat) (h : heap) (trk : progress_tracker.t),
    (k + m = e)%nat ->
    tracker_at a h = Some trk ->
    wrap64 (progress_tracker.current_ trk) = progress_tracker.current_ trk ->
    exists h' tr trk',
      loop (m + extra) tty env (mk_iter k e (Some a)) (mk_iter e e None) h
        = Some (h', tr) /\
      advance_calls tr = (m - 1)%nat /\
      tracker_at a h' = Some trk' /\
      progress_tracker.total_ trk' = progress_tracker.total_ trk /\
      progress_tracker.current_ trk'
        = wrap64 (progress_tracker.current_ trk + Z.of_nat (m - 1)).
Proof.
  induction m as [|m IH]; intros extra k e h trk He Ht Hw.
  - exists h, [], trk. replace k with e by lia. rewrite loop_at_end.
    simpl. rewrite Z.add_0_r. auto.
  - change (S m + extra)%nat with (S (m + extra)). rewrite loop_unfold.
    unfold neq; cbn [current_ end_ bar_].
    replace (k =? e)%nat with false by (symmetry; apply Nat.eqb_neq; lia).
    cbn [negb]. unfold incr; cbn [current_ end_ bar_].
    destruct (Nat.eqb_spec (S k) e) as [Hend|Hmore].
    + assert (m = 0%nat) as -> by lia. rewrite Hend.
      rewrite loop_at_end. exists h, [], trk. simpl. rewrite Z.add_0_r. auto.
    + unfold tracker_at in Ht.
      destruct (h !! a) as [b|] eqn:Hb; [|discriminate].
      pose proof (advance_tracker tty 1 (env k) b) as Htr.
      destruct (progress_bar.advance tty 1 (env k) b) as [b' l] eqn:Hadv.
      simpl in Htr. rewrite Ht in Htr. simpl in Htr.
      assert (Ht' : tracker_at a (<[a := b']> h)
                    = Some (progress_tracker.advance 1 (now_advance (env k)) trk)).
      { unfold tracker_at. rewrite lookup_insert_eq. exact Htr. }
      assert (Hw' : wrap64 (progress_tracker.current_
                              (progress_tracker.advance 1 (now_advance (env k)) trk))
                    = progress_tracker.current_
                        (progress_tracker.advance 1 (now_advance (env k)) trk)).
      { simpl. unfold wrap64. apply Zmod_mod. }
      destruct (IH extra (S k) e (<[a := b']> h) _ ltac:(lia) Ht' Hw')
        as (h' & tr & trk' & Hl & Hn & Hat & Htot & Hcur).
      rewrite Hl. exists h', (Advanced a :: map Displayed l ++ tr), trk'.
      split; [reflexivity|]. split.
      { change (Advanced a :: map Displayed l ++ tr)
          with ([Advanced a] ++ map Displayed l ++ tr).
        rewrite !advance_calls_app, advance_calls_displayed, Hn.
        unfold advance_calls; simpl. lia. }
      split; [exact Hat|]. split; [exact Htot|].
      rewrite Hcur. simpl progress_tracker.current_.
      unfold wrap64. rewrite Zplus_mod_idemp_l. f_equal. lia.
Qed.

(** C9. The iterator wrapper: an increment advances the bar only when the
    position after it is not the end, so a complete iteration from
    [begin()] to [end()] over a container of [n] elements ends within [n]
    rounds and calls [advance] exactly [n - 1] times (one less than the
    number of elements, for every [n >= 1]; none for an empty container):
    the bar's counter ends at [n - 1] against a total of [n]. *)
Theorem range_loop_advances_one_short :
  forall (A : Type) (container : list A) (tty : bool) (env : nat -> oracle)
         (a : addr) (now : Z) (h : heap) (extra : nat),
    let n := length container in
    exists (h' : heap) (tr : list step) (trk : progress_tracker.t),
      for_each (n + extra) tty env container a now h = Some (h', tr) /\
      advance_calls tr = (n - 1)%nat /\
      (container <> [] -> S (advance_calls tr) = n) /\
      tracker_at a h' = Some trk /\
      progress_tracker.total_ trk = wrap64 (Z.of_nat n) /\
      progress_tracker.current_ trk = wrap64 (Z.of_nat (n - 1)).
Proof.
  intros A container tty env a now h extra n.
  unfold for_each, progress_range.create.
  destruct (progress_bar.create tty (Z.of_nat (length container)) None now)
    as [b0 l0] eqn:Hc.
  assert (Hb0 : tracker_ b0
                = Some (progress_tracker.create (Z.of_nat n) now)).
  { unfold progress_bar.create in Hc. injection Hc as <- _. reflexivity. }
  unfold begin_, end_of; simpl.
  assert (Ht : tracker_at a (<[a := b0]> h)
               = Some (progress_tracker.create (Z.of_nat n) now)).
  { unfold tracker_at. rewrite lookup_insert_eq. exact Hb0. }
  destruct (loop_from tty env a n extra 0 n (<[a := b0]> h) _ eq_refl Ht
              eq_refl)
    as (h' & tr & trk & Hl & Hn & Hat & Htot & Hcur).
  fold n. rewrite Hl. exists h', (map Displayed l0 ++ tr), trk.
  split; [reflexivity|].
  rewrite advance_calls_app, advance_calls_displayed. simpl.
  split; [exact Hn|]. split.
  { intros Hne. rewrite Hn. destruct container; [congruence|]. simpl in n. lia. }
  split; [exact Hat|]. split; [exact Htot|].
  exact Hcur.
Qed.

End RangeLoop.

(** ** Threads on one bar: invariants of every run *)

Section BarThreads.

Import progress_bar bar_threads.

Lemma sum_insert {A} (f : A -> nat) (l : list A) (i : nat) (x y : A) :
  l !! i = Some y ->
  (fold_right Nat.add 0 (map f (<[i := x]> l)) + f y
   = fold_right Nat.add 0 (map f l) + f x)%nat.
Proof.
  revert i. induction l as [|a l IH]; intros [|i] H; simpl in *; try discriminate.
  - injection H as ->. lia.
  - specialize (IH i H). lia.
Qed.

Lemma step_can_display tty c p rest b th' b' acts :
  step tty c p rest b = Some (th', b', acts) ->
  can_display tty b' = can_display tty b.
Proof.
  unfold step, can_display. intros H.
  destruct p; step_cases; simpl; use_fields; reflexivity.
Qed.

(** The flag only goes up, and every rise is a [Won] in the trace. *)
Lemma step_wins tty c p rest b th' b' acts :
  step tty c p rest b = Some (th', b', acts) ->
  (wins acts + (if finished_ b then 1 else 0)
   = (if finished_ b' then 1 else 0))%nat.
Proof.
  unfold step. intros H.
  destruct p; step_cases; simpl; use_fields; reflexivity.
Qed.

Lemma step_finish_calls tty c p rest b th' b' acts :
  step tty c p rest b = Some (th', b', acts) ->
  finished_ b' = true \/
  (finished_ b' = finished_ b /\
   finish_calls th' = finish_calls (mk_thread p rest)).
Proof.
  unfold step. intros H.
  destruct p; step_cases; simpl; use_fields; auto.
Qed.

Lemma step_past_guard tty c p rest b th' b' acts :
  step tty c p rest b = Some (th', b', acts) ->
  can_display tty b = false ->
  past_guard (mk_thread p rest) = false ->
  past_guard th' = false /\ terminal_renders acts = 0%nat.
Proof.
  unfold step. intros H Hcd Hpg.
  destruct p; simpl in Hpg; try discriminate; step_cases; simpl;
    rewrite ?Hcd; auto; try congruence.
  destruct p0; auto.
Qed.

Lemma step_terminal tty c p rest b th' b' acts :
  step tty c p rest b = Some (th', b', acts) ->
  can_display tty b = true ->
  (terminal_renders acts + owes_finish th'
   = owes_finish (mk_thread p rest) + wins acts)%nat.
Proof.
  unfold step. intros H Hcd.
  destruct p; step_cases; simpl; rewrite ?Hcd; auto;
    try (destruct p0; reflexivity);
    try (destruct (min_render_interval <=? _); reflexivity);
    not_displayable Hcd.
Qed.

Lemma step_renders tty c p rest b th' b' acts :
  step tty c p rest b = Some (th', b', acts) ->
  can_display tty b = true ->
  (renders acts + owes_render th'
   = owes_render (mk_thread p rest) + length (grants acts))%nat.
Proof.
  unfold step. intros H Hcd.
  destruct p; step_cases; simpl; rewrite ?Hcd; auto;
    try (destruct p0; reflexivity);
    try (destruct (min_render_interval <=? _); reflexivity);
    not_displayable Hcd.
Qed.

Lemma step_no_render tty c p rest b th' b' acts :
  step tty c p rest b = Some (th', b', acts) ->
  can_display tty b = false ->
  past_guard (mk_thread p rest) = false ->
  renders acts = 0%nat /\ grants acts = [].
Proof.
  unfold step. intros H Hcd Hpg.
  destruct p; simpl in Hpg; try discriminate; step_cases; simpl; auto.
Qed.

(** What a step does to the gate's timestamp: nothing, unless it is a
    compare-and-swap that finds the timestamp it expects. *)
Lemma step_gate tty c p rest b th' b' acts :
  step tty c p rest b = Some (th', b', acts) ->
  (grants acts = [] /\ last_render_time_ b' = last_render_time_ b) \/
  (exists now_ms,
      p = GateCas now_ms (last_render_time_ b) /\
      grants acts = [now_ms] /\ last_render_time_ b' = now_ms).
Proof.
  unfold step. intros H.
  destruct p; step_cases; simpl; auto.
  right. exists now_ms. apply andb_prop in Heqb0 as [He _].
  apply Z.eqb_eq in He. subst. auto.
Qed.

Lemma step_window tty c p rest b th' b' acts :
  step tty c p rest b = Some (th', b', acts) ->
  window_ok th'.
Proof.
  unfold step, window_ok. intros H.
  destruct p; step_cases; simpl; auto.
  - destruct p0; simpl; auto.
  - destruct (can_display tty b); simpl; auto.
  - destruct (Z.leb_spec min_render_interval (now_ms - last_render_time_ b));
      simpl; auto.
  - destruct (can_display tty b); simpl; auto.
Qed.

Lemma run_one_cases tty st c :
  run_one tty st c = st \/
  exists th th' b' acts,
    threads st !! who c = Some th /\
    step tty c (at_ th) (pending th) (bar st) = Some (th', b', acts) /\
    run_one tty st c
    = mk_state b' (acts ++ trace st) (<[who c := th']> (threads st)).
Proof.
  unfold run_one.
  destruct (threads st !! who c) as [th|] eqn:Hth; [|auto].
  destruct (step tty c (at_ th) (pending th) (bar st)) as [[[th' b'] acts]|]
    eqn:Hs; [|auto].
  right. exists th, th', b', acts. auto.
Qed.

Lemma thread_eta (th : thread) : mk_thread (at_ th) (pending th) = th.
Proof. destruct th; reflexivity. Qed.

Lemma wins_app l1 l2 : wins (l1 ++ l2) = (wins l1 + wins l2)%nat.
Proof. unfold wins. rewrite filter_app, length_app. reflexivity. Qed.

Lemma terminal_renders_app l1 l2 :
  terminal_renders (l1 ++ l2) = (terminal_renders l1 + terminal_renders l2)%nat.
Proof. unfold terminal_renders. rewrite filter_app, length_app. reflexivity. Qed.

Lemma renders_app l1 l2 : renders (l1 ++ l2) = (renders l1 + renders l2)%nat.
Proof. unfold renders. rewrite filter_app, length_app. reflexivity. Qed.

Lemma grants_app l1 l2 : grants (l1 ++ l2) = grants l1 ++ grants l2.
Proof.
  induction l1 as [|[] l1 IH]; simpl; rewrite ?IH; reflexivity.
Qed.

Lemma inv_guard_step tty cd st c :
  inv_guard tty cd st -> inv_guard tty cd (run_one tty st c).
Proof.
  intros [Hcd Hpg].
  destruct (run_one_cases tty st c) as [-> | (th & th' & b' & acts & Hth & Hs & ->)];
    [split; assumption|].
  split; simpl.
  - rewrite (step_can_display _ _ _ _ _ _ _ _ Hs). exact Hcd.
  - intros ->. specialize (Hpg eq_refl).
    apply Forall_insert; [exact Hpg|].
    refine (proj1 (step_past_guard _ _ _ _ _ _ _ _ Hs Hcd _)).
    rewrite thread_eta. exact (proj1 (Forall_lookup _ _) Hpg _ _ Hth).
Qed.

Lemma inv_finish_step tty cd n st c :
  inv_guard tty cd st ->
  inv_finish cd n st -> inv_finish cd n (run_one tty st c).
Proof.
  intros [Hcd Hpg] (Hw & Hn & Ht).
  destruct (run_one_cases tty st c) as [-> | (th & th' & b' & acts & Hth & Hs & ->)];
    [repeat split; assumption|].
  pose proof (step_wins _ _ _ _ _ _ _ _ Hs) as Hsw.
  unfold inv_finish; simpl. rewrite wins_app, terminal_renders_app.
  split; [|split].
  - destruct (finished_ (bar st)), (finished_ b'); simpl in *; lia.
  - destruct (step_finish_calls _ _ _ _ _ _ _ _ Hs) as [Hf | [Hf Hc]]; [auto|].
    destruct Hn as [Hn|Hn]; [left; congruence|]. right.
    rewrite thread_eta in Hc.
    pose proof (sum_insert finish_calls _ _ th' _ Hth) as Hsum.
    unfold finish_calls_all in *. lia.
  - destruct cd.
    + pose proof (step_terminal _ _ _ _ _ _ _ _ Hs Hcd) as Hst.
      rewrite thread_eta in Hst.
      pose proof (sum_insert owes_finish _ _ th' _ Hth) as Hsum.
      unfold owes_finish_all in *. lia.
    + specialize (Hpg eq_refl).
      assert (Hg : past_guard (mk_thread (at_ th) (pending th)) = false).
      { rewrite thread_eta. exact (proj1 (Forall_lookup _ _) Hpg _ _ Hth). }
      destruct (step_past_guard _ _ _ _ _ _ _ _ Hs Hcd Hg) as [_ ->]. lia.
Qed.

Lemma owes_render_guard th : past_guard th = false -> owes_render th = 0%nat.
Proof. unfold past_guard, owes_render. destruct (at_ th); congruence. Qed.

Lemma inv_gate_step tty cd st c :
  inv_guard tty cd st ->
  inv_gate cd st -> inv_gate cd (run_one tty st c).
Proof.
  intros [Hcd Hpg] (Ha & Hl & Hwin & Hr).
  destruct (run_one_cases tty st c) as [-> | (th & th' & b' & acts & Hth & Hs & ->)];
    [repeat split; assumption|].
  unfold inv_gate; simpl. rewrite grants_app, renders_app, length_app.
  assert (Hth_ok : window_ok th) by exact (proj1 (Forall_lookup _ _) Hwin _ _ Hth).
  assert (Hgate :
    apart (grants acts ++ grants (trace st)) /\
    Forall (fun g => g <= last_render_time_ b') (grants acts ++ grants (trace st))).
  { destruct (step_gate _ _ _ _ _ _ _ _ Hs) as [[-> ->] | (now_ms & Hp & -> & ->)];
      simpl; [auto|].
    unfold window_ok in Hth_ok. rewrite Hp in Hth_ok.
    assert (Hall : Forall (fun g' => min_render_interval <= now_ms - g')
                          (grants (trace st))).
    { eapply Forall_impl; [exact Hl|]. simpl. intros g Hg. lia. }
    repeat split; auto.
    constructor; [lia|].
    eapply Forall_impl; [exact Hall|]. simpl. unfold min_render_interval.
    intros g Hg. lia. }
  destruct Hgate as [Ha' Hl'].
  split; [exact Ha'|]. split; [exact Hl'|]. split.
  - apply Forall_insert; [exact Hwin|]. exact (step_window _ _ _ _ _ _ _ _ Hs).
  - destruct cd.
    + pose proof (step_renders _ _ _ _ _ _ _ _ Hs Hcd) as Hst.
      rewrite thread_eta in Hst.
      pose proof (sum_insert owes_render _ _ th' _ Hth) as Hsum.
      unfold owes_render_all in *. lia.
    + specialize (Hpg eq_refl).
      assert (Hg : past_guard (mk_thread (at_ th) (pending th)) = false).
      { rewrite thread_eta. exact (proj1 (Forall_lookup _ _) Hpg _ _ Hth). }
      destruct (step_no_render _ _ _ _ _ _ _ _ Hs Hcd Hg) as [-> ->].
      destruct (step_past_guard _ _ _ _ _ _ _ _ Hs Hcd Hg) as [Hg' _].
      rewrite thread_eta in Hg.
      pose proof (sum_insert owes_render _ _ th' _ Hth) as Hsum.
      rewrite (owes_render_guard _ Hg), (owes_render_guard _ Hg') in Hsum.
      unfold owes_render_all in *. simpl. lia.
Qed.

Lemma step_winner tty c p rest b th' b' acts :
  step tty c p rest b = Some (th', b', acts) ->
  (owes_finish th' = 1%nat ->
   owes_finish (mk_thread p rest) = 1%nat \/ acts = [Won (who c)]) /\
  (forall tid d tr,
      In (Dispatched tid (Finish d tr)) acts ->
      tid = who c /\ owes_finish (mk_thread p rest) = 1%nat) /\
  (forall tid, In (Won tid) acts -> tid = who c).
Proof.
  unfold step. intros H.
  destruct p; step_cases; simpl;
    (split; [|split]); auto;
    try (intros tid d0 tr0 [Hin|[]]; inversion Hin; auto);
    try (intros tid [Hin|[]]; inversion Hin; auto);
    try (intros tid d0 tr0 []); try (intros tid []);
    try (intros; discriminate).
  all: try (destruct p0; simpl; intros; discriminate).
  all: try (destruct (can_display tty b); simpl; intros; discriminate).
  all: try (destruct (min_render_interval <=? _); simpl; intros; discriminate).
Qed.

Lemma inv_winner_step tty st c :
  inv_winner st -> inv_winner (run_one tty st c).
Proof.
  intros [Hth Hdisp].
  destruct (run_one_cases tty st c) as [-> | (th & th' & b' & acts & Hlk & Hs & ->)];
    [split; assumption|].
  destruct (step_winner _ _ _ _ _ _ _ _ Hs) as (Hown & Hd & Hw).
  rewrite thread_eta in Hown, Hd.
  assert (Hlt : (who c < length (threads st))%nat)
    by (eapply lookup_lt_Some; exact Hlk).
  split; simpl.
  - intros i thi Hi Howes. apply in_or_app.
    destruct (decide (i = who c)) as [->|Hne].
    + rewrite list_lookup_insert_eq in Hi by exact Hlt.
      injection Hi as <-.
      destruct (Hown Howes) as [Hold | ->]; [|left; left; reflexivity].
      right. exact (Hth _ _ Hlk Hold).
    + rewrite list_lookup_insert_ne in Hi by congruence.
      right. exact (Hth _ _ Hi Howes).
  - intros tid d tr Hin. apply in_app_or in Hin as [Hin|Hin]; apply in_or_app.
    + destruct (Hd _ _ _ Hin) as [-> Hold]. right. exact (Hth _ _ Hlk Hold).
    + right. exact (Hdisp _ _ _ Hin).
Qed.

Lemma inv_winner_run tty sched : forall st,
  inv_winner st -> inv_winner (run tty sched st).
Proof.
  induction sched as [|c sched IH]; intros st H; [exact H|].
  simpl. apply IH, inv_winner_step, H.
Qed.

Lemma run_snoc tty sched c st :
  run tty (sched ++ [c]) st = run_one tty (run tty sched st) c.
Proof. unfold run. rewrite fold_left_app. reflexivity. Qed.

Lemma inv_run tty cd n sched : forall st,
  inv_guard tty cd st -> inv_finish cd n st -> inv_gate cd st ->
  inv_guard tty cd (run tty sched st) /\
  inv_finish cd n (run tty sched st) /\
  inv_gate cd (run tty sched st).
Proof.
  induction sched as [|c sched IH]; intros st Hg Hf Hga; [auto|].
  simpl. apply IH.
  - apply inv_guard_step; assumption.
  - apply inv_finish_step; assumption.
  - apply inv_gate_step; assumption.
Qed.

End BarThreads.

(** ** Threads on one bar: schedules that complete *)

Section BarSchedules.

Import progress_bar bar_threads.

Lemma bar_run_app tty s1 s2 st : run tty (s1 ++ s2) st = run tty s2 (run tty s1 st).
Proof. unfold run. apply fold_left_app. Qed.

Lemma bar_run_cons tty c s st : run tty (c :: s) st = run tty s (run_one tty st c).
Proof. reflexivity. Qed.

(** A thread that finds the mutex free, or holds it, can run its next
    operation unless it has none left; the operation brings it nearer its
    end and leaves the mutex free or with the thread. *)
Lemma step_solo_some tty c p rest b th' b' acts :
  step tty c p rest b = Some (th', b', acts) ->
  mutex_ok (mk_thread p rest) b ->
  (work th' < work (mk_thread p rest))%nat /\ mutex_ok th' b'.
Proof.
  unfold step, mutex_ok, work. simpl. intros H Hm.
  destruct p as [|q| | | | | | | | | | |];
    [| destruct q; simpl in H | ..];
    step_cases; simpl in *; auto;
    try (destruct (can_display tty b); simpl);
    try (destruct (min_render_interval <=? _); simpl);
    (split; [lia|auto]).
Qed.

Lemma step_solo_none tty c p rest b :
  step tty c p rest b = None ->
  mutex_ok (mk_thread p rest) b ->
  done (mk_thread p rest) = true.
Proof.
  unfold step, mutex_ok, done. simpl. intros H Hm.
  destruct p; step_cases; simpl in *; auto; congruence.
Qed.

Lemma bar_done_work th : work th = 0%nat -> done th = true.
Proof.
  unfold work, done. destruct th as [p pend]; simpl.
  destruct p, pend as [|[] ?]; simpl; intros; try lia; reflexivity.
Qed.

Lemma bar_work_done th : done th = true -> work th = 0%nat.
Proof.
  unfold work, done. destruct th as [p pend]; simpl.
  destruct p, pend; simpl; intros; try discriminate; reflexivity.
Qed.

Lemma bar_done_mutex th b : done th = true -> mutex_ok th b -> render_mutex_ b = None.
Proof.
  unfold done, mutex_ok. destruct (at_ th); try discriminate. auto.
Qed.

(** A thread picked as many times as it may have operations left runs
    alone to its end and leaves the mutex free; the other threads stay
    where they are. *)
Lemma bar_solo_run tty now tid : forall (k : nat) (st : state) (th : thread),
  threads st !! tid = Some th ->
  mutex_ok th (bar st) ->
  (work th <= k)%nat ->
  exists b' tr' th',
    run tty (replicate k (mk_choice tid now true)) st
    = mk_state b' tr' (<[tid := th']> (threads st)) /\
    done th' = true /\ render_mutex_ b' = None.
Proof.
  induction k as [|k IH]; intros st th Hth Hm Hk.
  - exists (bar st), (trace st), th. simpl.
    rewrite list_insert_id by exact Hth.
    assert (Hd : done th = true) by (apply bar_done_work; lia).
    split; [destruct st; reflexivity|]. split; [exact Hd|].
    eapply bar_done_mutex; eauto.
  - change (replicate (S k) (mk_choice tid now true))
      with (mk_choice tid now true :: replicate k (mk_choice tid now true)).
    rewrite bar_run_cons. unfold run_one. simpl who. rewrite Hth.
    rewrite <- (thread_eta th) in Hm.
    destruct (step tty (mk_choice tid now true) (at_ th) (pending th) (bar st))
      as [[[th1 b1] acts]|] eqn:Hs.
    + destruct (step_solo_some _ _ _ _ _ _ _ _ Hs Hm) as [Hw Hm1].
      rewrite thread_eta in Hw.
      assert (Hlt : (tid < length (threads st))%nat)
        by (eapply lookup_lt_Some; exact Hth).
      destruct (IH (mk_state b1 (acts ++ trace st) (<[tid := th1]> (threads st))) th1)
        as (b' & tr' & th' & Hrun & Hd & Hfree).
      { simpl. apply list_lookup_insert_eq. exact Hlt. }
      { exact Hm1. }
      { lia. }
      exists b', tr', th'. rewrite Hrun. simpl.
      rewrite list_insert_insert_eq. auto.
    + pose proof (step_solo_none _ _ _ _ _ Hs Hm) as Hd.
      rewrite thread_eta in Hd, Hm.
      destruct (IH st th Hth Hm) as (b' & tr' & th' & Hrun & Hd' & Hfree).
      { rewrite (bar_work_done _ Hd). lia. }
      exists b', tr', th'. auto.
Qed.

(** Every pool of threads that have not started has a schedule under which
    all calls return. *)
Lemma bar_in_turn_completes tty now :
  forall (todo finished : list thread) (b : progress_bar.t) (tr : list action),
    forallb done finished = true ->
    Forall (fun th => at_ th = Idle) todo ->
    render_mutex_ b = None ->
    all_done (run tty (in_turn (length finished) now todo)
                  (mk_state b tr (finished ++ todo))) = true.
Proof.
  induction todo as [|th rest IH]; intros finished b tr Hfin Hidle Hfree.
  - simpl. unfold all_done; simpl. rewrite app_nil_r. exact Hfin.
  - simpl. rewrite bar_run_app. unfold solo.
    apply Forall_cons in Hidle as [Hth Hrest].
    destruct (bar_solo_run tty now (length finished) (work th)
                (mk_state b tr (finished ++ th :: rest)) th)
      as (b' & tr' & th' & Hrun & Hd & Hfree').
    { simpl. apply list_lookup_middle. reflexivity. }
    { unfold mutex_ok. rewrite Hth. exact Hfree. }
    { lia. }
    rewrite Hrun. simpl.
    replace (<[length finished := th']> (finished ++ th :: rest))
      with ((finished ++ [th']) ++ rest).
    2:{ rewrite insert_app_r_alt by lia. rewrite Nat.sub_diag. simpl.
        rewrite <- app_assoc. reflexivity. }
    replace (S (length finished)) with (length (finished ++ [th']))
      by (rewrite length_app; simpl; lia).
    apply IH; [|exact Hrest|exact Hfree'].
    rewrite forallb_app. simpl. rewrite Hfin, Hd. reflexivity.
Qed.

Lemma start_completes tty now b calls :
  render_mutex_ b = None ->
  all_done (run tty (in_turn 0 now (threads (start b calls))) (start b calls))
  = true.
Proof.
  intros Hfree. unfold start. simpl threads.
  apply (bar_in_turn_completes tty now (map (mk_thread Idle) calls) [] b []);
    [reflexivity | | exact Hfree].
  apply Forall_forall. intros th Hin. apply list_elem_of_In in Hin.
  apply in_map_iff in Hin as (c & <- & _). reflexivity.
Qed.

(** One thread running one call of [finish] alone is [finish], and one
    thread running one call of [advance] alone is [advance]; the display's
    calls are in the trace, newest first. *)
Lemma solo_finish tty now b :
  render_mutex_ b = None ->
  let st := run tty (replicate 5 (mk_choice 0 now true))
                (start b [[FinishOp]]) in
  bar st = fst (finish tty b) /\ dispatched (trace st) = snd (finish tty b).
Proof.
  intros Hfree. destruct b as [trk d f last m]. simpl in Hfree. subst m.
  unfold finish; simpl.
  destruct f, tty, trk, d; simpl; auto.
Qed.

Lemma run_one_single tty now ok p rest b tr :
  run_one tty (mk_state b tr [mk_thread p rest]) (mk_choice 0 now ok)
  = match step tty (mk_choice 0 now ok) p rest b with
    | Some (th', b', acts) => mk_state b' (acts ++ tr) [th']
    | None => mk_state b tr [mk_thread p rest]
    end.
Proof. reflexivity. Qed.

Lemma solo_gate tty now ok b tr :
  render_mutex_ b = None ->
  let st := run tty (replicate 7 (mk_choice 0 now ok))
                (mk_state b tr [mk_thread Gate []]) in
  bar st = fst (try_render tty now ok b) /\
  dispatched (trace st) = dispatched tr ++ snd (try_render tty now ok b) /\
  threads st = [mk_thread Idle []].
Proof.
  intros Hfree. destruct b as [trk d f last m]. simpl in Hfree. subst m.
  unfold try_render, run.
  cbn [replicate fold_left tracker_ display_ last_render_time_].
  rewrite run_one_single. cbn [step]. unfold can_display.
  cbn [tracker_ display_].
  destruct tty, trk as [trk|], d as [d|]; cbn [andb present];
    try (repeat split; unfold dispatched; simpl; rewrite ?app_nil_r; reflexivity).
  rewrite !run_one_single. cbn [step clock last_render_time_].
  rewrite !run_one_single. cbn [step clock last_render_time_].
  destruct (min_render_interval <=? to_milliseconds now - last) eqn:Hw;
    try (repeat split; unfold dispatched; simpl; rewrite ?app_nil_r; reflexivity).
  rewrite !run_one_single. cbn [step last_render_time_ weak_ok].
  rewrite Z.eqb_refl. cbn [andb].
  destruct ok;
    repeat split; unfold dispatched; simpl; rewrite ?app_nil_r; reflexivity.
Qed.

Lemma solo_tracker_part tty n now trk d f last :
  run tty (replicate 5 (mk_choice 0 now true))
      (start (progress_bar.mk (Some trk) d f last None) [[Advance n]])
  = mk_state
      (progress_bar.mk (Some (progress_tracker.advance n now trk)) d f last None)
      [] [mk_thread Gate []].
Proof.
  unfold start, run. cbn [replicate fold_left map].
  rewrite run_one_single. cbn [step tracker_ tracker_threads.enter].
  rewrite run_one_single.
  cbn [step tracker_ set_tracker tracker_threads.step_in].
  rewrite run_one_single.
  cbn [step tracker_ set_tracker tracker_threads.step_in].
  rewrite run_one_single.
  cbn [step tracker_ set_tracker tracker_threads.step_in].
  rewrite run_one_single.
  cbn [step tracker_ set_tracker tracker_threads.step_in].
  reflexivity.
Qed.

Lemma solo_advance_bar tty n o b :
  render_mutex_ b = None ->
  let st := run tty (replicate 5 (mk_choice 0 (now_advance o) true)
                     ++ replicate 7 (mk_choice 0 (now_render o) (cas_ok o)))
                (start b [[Advance n]]) in
  bar st = fst (advance tty n o b) /\
  dispatched (trace st) = snd (advance tty n o b).
Proof.
  intros Hfree st. subst st. rewrite bar_run_app. unfold advance.
  destruct b as [trk d f last m]. simpl in Hfree. subst m.
  destruct trk as [trk|]; cbn [tracker_ display_ finished_ last_render_time_ render_mutex_].
  - rewrite solo_tracker_part.
    destruct (solo_gate tty (now_render o) (cas_ok o)
                (progress_bar.mk (Some (progress_tracker.advance n (now_advance o) trk))
                                 d f last None) [] eq_refl) as (H1 & H2 & _).
    split; [exact H1 | exact H2].
  - unfold try_render. cbn [tracker_]. destruct tty; split; reflexivity.
Qed.

End BarSchedules.

(** ** Threads on one bar: the one-shot flag and the gate *)

Section BarThreadsResults.

Import progress_bar bar_threads.

Lemma start_idle (f : thread -> nat) (calls : list (list op)) :
  (forall rest, f (mk_thread Idle rest) = 0%nat) ->
  fold_right Nat.add 0%nat (map f (map (mk_thread Idle) calls)) = 0%nat.
Proof.
  intros Hf.
  induction calls as [|c calls IH]; simpl; [reflexivity|].
  rewrite Hf, IH. reflexivity.
Qed.

Lemma start_forall (P : thread -> Prop) (calls : list (list op)) :
  (forall rest, P (mk_thread Idle rest)) ->
  Forall P (map (mk_thread Idle) calls).
Proof.
  intros HP.
  induction calls as [|c calls IH]; simpl; constructor; auto.
Qed.

Lemma inv_start tty b calls :
  inv_guard tty (can_display tty b) (start b calls) /\
  inv_gate (can_display tty b) (start b calls) /\
  (finished_ b = false ->
   inv_finish (can_display tty b) (finish_calls_all (threads (start b calls)))
              (start b calls)).
Proof.
  split; [|split].
  - split; [reflexivity|]. intros _. apply start_forall. reflexivity.
  - repeat split; simpl; try constructor.
    + apply start_forall. intros rest. exact I.
    + unfold owes_render_all. rewrite start_idle; reflexivity.
  - intros Hf. unfold inv_finish. simpl trace. simpl bar. rewrite Hf.
    split; [reflexivity|]. split; [right; reflexivity|].
    unfold owes_finish_all. simpl threads. rewrite start_idle by reflexivity.
    destruct (can_display tty b); reflexivity.
Qed.

Lemma inv_winner_start b calls : inv_winner (start b calls).
Proof.
  split; simpl.
  - intros i th Hi Howes. apply list_lookup_fmap_Some in Hi as (c & -> & _).
    discriminate Howes.
  - intros tid d tr [].
Qed.

Lemma done_idle (f : thread -> nat) (ths : list thread) :
  (forall th, done th = true -> f th = 0%nat) ->
  forallb done ths = true ->
  fold_right Nat.add 0%nat (map f ths) = 0%nat.
Proof.
  intros Hf. induction ths as [|th ths IH]; simpl; [reflexivity|].
  intros H. apply andb_prop in H as [H1 H2].
  rewrite (Hf _ H1), (IH H2). reflexivity.
Qed.

Lemma done_owes_finish th : done th = true -> owes_finish th = 0%nat.
Proof. unfold done, owes_finish. destruct (at_ th); congruence. Qed.

Lemma done_owes_render th : done th = true -> owes_render th = 0%nat.
Proof. unfold done, owes_render. destruct (at_ th); congruence. Qed.

Lemma done_finish_calls th : done th = true -> finish_calls th = 0%nat.
Proof.
  unfold done, finish_calls.
  destruct (at_ th), (pending th); simpl; congruence.
Qed.

Lemma can_display_owns tty b :
  owns b -> finished_ b = false -> can_display tty b = tty.
Proof.
  intros Ho Hf. destruct (Ho Hf) as [[tr Ht] [d Hd]].
  unfold can_display. rewrite Ht, Hd. simpl. destruct tty; reflexivity.
Qed.

(** C3 (as the code has it). [finish] is a one-shot transition: whatever
    the threads, their calls and the schedule, the flag of an active bar
    goes from false to true at most once and the display's terminal
    operation is dispatched at most once, by the thread that won the flag;
    once every call has returned, with at least one call of [finish] among
    them, the bar is finished, the flag went up exactly once, and the
    terminal operation was dispatched exactly once when
    [is_tty() && tracker_ && display_] holds and not at all when it does
    not. For an active bar, which owns its tracker and display, that
    condition is the interactive-output signal. There is always a schedule
    under which every call returns. A call of [finish] on a finished bar is
    a no-op. *)
Theorem finish_is_one_shot :
  forall (tty : bool) (b : progress_bar.t) (calls : list (list op))
         (schedule : list choice),
    finished_ b = false ->
    (1 <= finish_calls_all (threads (start b calls)))%nat ->
    let st := run tty schedule (start b calls) in
    (wins (trace st) <= 1)%nat /\
    (terminal_renders (trace st) <= wins (trace st))%nat /\
    (forall tid d tr,
        In (Dispatched tid (Finish d tr)) (trace st) -> In (Won tid) (trace st)) /\
    (all_done st = true ->
     finished_ (bar st) = true /\
     wins (trace st) = 1%nat /\
     terminal_renders (trace st)
       = (if can_display tty b then 1%nat else 0%nat)) /\
    (owns b -> can_display tty b = tty) /\
    (forall now : Z,
        render_mutex_ b = None ->
        all_done (run tty (in_turn 0 now (threads (start b calls)))
                      (start b calls)) = true) /\
    (forall b' : progress_bar.t,
        finished_ b' = true -> finish tty b' = (b', [])).
Proof.
  intros tty b calls schedule Hf Hn st.
  destruct (inv_start tty b calls) as (Hg0 & Hga0 & Hf0).
  destruct (inv_run tty _ _ schedule _ Hg0 (Hf0 Hf) Hga0)
    as (Hg & (Hw & Hc & Ht) & Hga).
  fold st in Hg, Hw, Hc, Ht, Hga.
  split; [|split; [|split; [|split; [|split; [|split]]]]].
  - rewrite Hw. destruct (finished_ (bar st)); lia.
  - destruct (can_display tty b); lia.
  - exact (proj2 (inv_winner_run tty schedule _ (inv_winner_start b calls))).
  - intros Hdone. unfold all_done in Hdone.
    assert (Hfin : finished_ (bar st) = true).
    { destruct Hc as [Hc|Hc]; [exact Hc|].
      unfold finish_calls_all in Hc at 1.
      rewrite (done_idle _ _ done_finish_calls Hdone) in Hc. lia. }
    rewrite Hfin in Hw. split; [exact Hfin|]. split; [exact Hw|].
    unfold owes_finish_all in Ht.
    rewrite (done_idle _ _ done_owes_finish Hdone) in Ht.
    destruct (can_display tty b); lia.
  - intros Ho. apply can_display_owns; assumption.
  - intros now Hfree. apply start_completes. exact Hfree.
  - intros b' Hb'. unfold finish. rewrite Hb'. reflexivity.
Qed.

(** Without the interactive-output signal the winning call of [finish]
    dispatches nothing: the claim of C3 that exactly one terminal render is
    dispatched fails there. The bar is one that its constructor has just
    built; [finish] is called once directly, and three times by two threads. *)
Lemma finish_without_tty_dispatches_nothing :
  let b := fst (create false 100 None 0) in
  let st := run false (in_turn 0 0 (threads (start b [[FinishOp; FinishOp]; [FinishOp]])))
                (start b [[FinishOp; FinishOp]; [FinishOp]]) in
  finished_ b = false /\
  finished_ (fst (finish false b)) = true /\
  finishes (snd (finish false b)) = 0%nat /\
  all_done st = true /\
  finished_ (bar st) = true /\
  terminal_renders (trace st) = 0%nat.
Proof. cbv zeta. repeat split; vm_compute; reflexivity. Qed.

Lemma finish_is_one_shot_witness :
  let b := fst (create true 100 None 0) in
  let calls := [[FinishOp; Advance 1]; [Advance 2; FinishOp]; [FinishOp]] in
  let schedule :=
    [mk_choice 1 5 true; mk_choice 0 6 true; mk_choice 2 7 true;
     mk_choice 0 8 true; mk_choice 1 9 true]
    ++ in_turn 0 40000000 (threads (run true
         [mk_choice 1 5 true; mk_choice 0 6 true; mk_choice 2 7 true;
          mk_choice 0 8 true; mk_choice 1 9 true] (start b calls))) in
  let st := run true schedule (start b calls) in
  (finished_ b = false /\ (1 <= finish_calls_all (threads (start b calls)))%nat) /\
  all_done st = true /\
  finished_ (bar st) = true /\
  wins (trace st) = 1%nat /\
  terminal_renders (trace st) = 1%nat.
Proof.
  cbv zeta.
  assert (H1 : finished_ (fst (create true 100 None 0)) = false) by reflexivity.
  assert (H2 : (1 <= finish_calls_all
                  (threads (start (fst (create true 100 None 0))
                     [[FinishOp; Advance 1]; [Advance 2; FinishOp]; [FinishOp]])))%nat).
  { vm_compute. lia. }
  split; [split; [exact H1 | exact H2]|].
  assert (Hd : all_done
    (run true
       ([mk_choice 1 5 true; mk_choice 0 6 true; mk_choice 2 7 true;
         mk_choice 0 8 true; mk_choice 1 9 true]
        ++ in_turn 0 40000000 (threads (run true
             [mk_choice 1 5 true; mk_choice 0 6 true; mk_choice 2 7 true;
              mk_choice 0 8 true; mk_choice 1 9 true]
             (start (fst (create true 100 None 0))
                [[FinishOp; Advance 1]; [Advance 2; FinishOp]; [FinishOp]]))))
       (start (fst (create true 100 None 0))
          [[FinishOp; Advance 1]; [Advance 2; FinishOp]; [FinishOp]])) = true).
  { vm_compute. reflexivity. }
  split; [exact Hd|].
  destruct (finish_is_one_shot true _ _
              ([mk_choice 1 5 true; mk_choice 0 6 true; mk_choice 2 7 true;
                mk_choice 0 8 true; mk_choice 1 9 true]
               ++ in_turn 0 40000000 (threads (run true
                    [mk_choice 1 5 true; mk_choice 0 6 true; mk_choice 2 7 true;
                     mk_choice 0 8 true; mk_choice 1 9 true]
                    (start (fst (create true 100 None 0))
                       [[FinishOp; Advance 1]; [Advance 2; FinishOp]; [FinishOp]]))))
              H1 H2) as (_ & _ & _ & Hall & _).
  destruct (Hall Hd) as (Hf & Hw & Ht).
  split; [exact Hf|]. split; [exact Hw|]. exact Ht.
Defined.

(** C7. The render gate: [try_render] dispatches a render only when the
    bar is displayable, [now - last_render_time_] is at least the 33 ms of
    [min_render_interval] and the compare-and-swap that replaces the
    timestamp by [now] succeeds; in every other case it returns at once,
    with the bar as it was and nothing rendered. Among threads, whatever
    the schedule: every grant is a compare-and-swap won after the window
    check, any two granted timestamps are at least 33 ms apart (at most one
    caller per interval window is let through), and once every call has
    returned, as it does under some schedule, the renders dispatched are
    exactly the grants. *)
Theorem render_gate_throttles :
  forall (tty : bool),
    (forall (now : Z) (cas_succeeds : bool) (b : progress_bar.t),
        let '(b', log) := try_render tty now cas_succeeds b in
        (log <> [] ->
         min_render_interval <= to_milliseconds now - last_render_time_ b /\
         cas_succeeds = true /\
         can_display tty b = true /\
         last_render_time_ b' = to_milliseconds now /\
         exists d tr, log = [Render d tr]) /\
        (log = [] -> b' = b) /\
        ((to_milliseconds now - last_render_time_ b < min_render_interval
          \/ cas_succeeds = false) -> b' = b /\ log = [])) /\
    (forall (b : progress_bar.t) (calls : list (list op))
            (schedule : list choice),
        let st := run tty schedule (start b calls) in
        apart (grants (trace st)) /\
        (renders (trace st) <= length (grants (trace st)))%nat /\
        (all_done st = true ->
         renders (trace st) = length (grants (trace st))) /\
        (forall now : Z,
            render_mutex_ b = None ->
            all_done (run tty (in_turn 0 now (threads (start b calls)))
                          (start b calls)) = true)) /\
    min_render_interval = 33.
Proof.
  intros tty. split; [|split; [|reflexivity]].
  - intros now cas b. unfold try_render, can_display.
    destruct tty; simpl;
      [|repeat split; auto; intros; congruence].
    destruct (tracker_ b) as [tr|] eqn:Htr; simpl;
      [|repeat split; auto; intros; congruence].
    destruct (display_ b) as [d|] eqn:Hd; simpl;
      [|repeat split; auto; intros; congruence].
    destruct (Z.leb_spec min_render_interval
                (to_milliseconds now - last_render_time_ b)) as [Hw|Hw];
      [|repeat split; auto; intros; congruence].
    destruct cas; [|repeat split; auto; intros; congruence].
    split; [|split].
    + intros _. repeat split; eauto.
    + discriminate.
    + intros [H|H]; [lia|discriminate].
  - intros b calls schedule st.
    destruct (inv_start tty b calls) as (Hg0 & Hga0 & _).
    assert (Hg : inv_guard tty (can_display tty b) st).
    { subst st. clear Hga0. revert Hg0. generalize (start b calls).
      induction schedule as [|c sched IH]; intros s Hs; [exact Hs|].
      simpl. apply IH, inv_guard_step, Hs. }
    assert (Hga : inv_gate (can_display tty b) st).
    { subst st. clear Hg. revert Hg0 Hga0. generalize (start b calls).
      induction schedule as [|c sched IH]; intros s Hs Hs'; [exact Hs'|].
      simpl. apply IH; [apply inv_guard_step, Hs | apply inv_gate_step; assumption]. }
    destruct Hga as (Ha & _ & _ & Hr).
    split; [exact Ha|]. split; [lia|]. split.
    + intros Hdone. unfold all_done in Hdone. unfold owes_render_all in Hr.
      rewrite (done_idle _ _ done_owes_render Hdone) in Hr. lia.
    + intros now Hfree. apply start_completes. exact Hfree.
Qed.

End BarThreadsResults.

(** ** The ring of samples under one thread *)

Section TrackerHistory.

Import progress_tracker tracker_history.

Lemma advance_all_cons c calls tr :
  advance_all (c :: calls) tr = advance_all calls (advance (fst c) (snd c) tr).
Proof. reflexivity. Qed.

Lemma advance_history n now tr :
  history_ (advance n now tr)
  = <[Z.to_nat (history_index_ tr mod HISTORY_SIZE) :=
        mk_entry (wrap64 (current_ tr + n)) (to_microseconds (now - start_time_ tr))]>
      (history_ tr).
Proof. unfold advance. cbn [history_]. apply stores_one_sample. Qed.

Lemma advance_all_length calls : forall tr,
  length (history_ (advance_all calls tr)) = length (history_ tr).
Proof.
  induction calls as [|c calls IH]; intros tr; [reflexivity|].
  rewrite advance_all_cons, IH, advance_history. apply length_insert.
Qed.

Lemma advance_all_start calls : forall tr,
  start_time_ (advance_all calls tr) = start_time_ tr.
Proof.
  induction calls as [|c calls IH]; intros tr; [reflexivity|].
  rewrite advance_all_cons, IH. reflexivity.
Qed.

Lemma advance_all_total calls : forall tr,
  total_ (advance_all calls tr) = total_ tr.
Proof.
  induction calls as [|c calls IH]; intros tr; [reflexivity|].
  rewrite advance_all_cons, IH. reflexivity.
Qed.

Lemma advance_all_cache calls : forall tr,
  cache_ (advance_all calls tr) = cache_ tr.
Proof.
  induction calls as [|c calls IH]; intros tr; [reflexivity|].
  rewrite advance_all_cons, IH. reflexivity.
Qed.

Lemma advance_all_current calls : forall tr,
  current_ (advance_all calls tr)
  = match calls with
    | [] => current_ tr
    | _ => wrap64 (current_ tr + tracker_threads.sum (map fst calls))
    end.
Proof.
  induction calls as [|c calls IH]; intros tr; [reflexivity|].
  rewrite advance_all_cons, IH. destruct calls as [|c' calls].
  - cbn. f_equal. lia.
  - cbn [advance current_ map tracker_threads.sum fold_right].
    rewrite wrap64_add_l. f_equal. lia.
Qed.

Lemma advance_all_counter calls tr :
  wrap64 (current_ tr) = current_ tr ->
  current_ (advance_all calls tr)
  = wrap64 (current_ tr + tracker_threads.sum (map fst calls)).
Proof.
  intros Hw. rewrite advance_all_current. destruct calls; [|reflexivity].
  cbn. rewrite Z.add_0_r. symmetry. exact Hw.
Qed.

Lemma slot_advance n now tr i : slot (advance n now tr) i = slot tr (S i).
Proof.
  unfold slot, advance, HISTORY_SIZE, wrap64. cbn [history_index_].
  f_equal. rewrite Nat2Z.inj_succ.
  Z.div_mod_to_equations. lia.
Qed.

Lemma slot_apart tr i j :
  (i < j)%nat -> (j - i < Z.to_nat HISTORY_SIZE)%nat -> slot tr i <> slot tr j.
Proof.
  unfold slot, HISTORY_SIZE. intros Hij Hd Heq.
  apply Z2Nat.inj in Heq; [|Z.div_mod_to_equations; lia..].
  Z.div_mod_to_equations. lia.
Qed.

Lemma slot_bound tr i : (slot tr i < Z.to_nat HISTORY_SIZE)%nat.
Proof. unfold slot, HISTORY_SIZE. Z.div_mod_to_equations. lia. Qed.

(** A run leaves alone every slot that none of its calls draws. *)
Lemma advance_all_other_slot calls : forall tr s,
  (forall j, (j < length calls)%nat -> slot tr j <> s) ->
  history_ (advance_all calls tr) !! s = history_ tr !! s.
Proof.
  induction calls as [|c calls IH]; intros tr s Hs; [reflexivity|].
  rewrite advance_all_cons, IH.
  - rewrite advance_history. apply list_lookup_insert_ne.
    specialize (Hs 0%nat ltac:(simpl; lia)). unfold slot in Hs.
    rewrite Z.add_0_r in Hs. exact Hs.
  - intros j Hj. rewrite slot_advance. apply Hs. simpl. lia.
Qed.

Lemma ring_slot calls : forall tr i,
  length (history_ tr) = Z.to_nat HISTORY_SIZE ->
  (i < length calls)%nat ->
  (length calls - i <= Z.to_nat HISTORY_SIZE)%nat ->
  history_ (advance_all calls tr) !! slot tr i
  = Some (mk_entry (progress_after tr calls i) (stamp tr calls i)).
Proof.
  induction calls as [|c calls IH]; intros tr i Hlen Hi Hwin; [simpl in Hi; lia|].
  rewrite advance_all_cons. destruct i as [|i].
  - rewrite advance_all_other_slot.
    + rewrite advance_history. unfold slot, progress_after, stamp.
      rewrite Z.add_0_r. cbn [take map tracker_threads.sum fold_right nth].
      rewrite Z.add_0_r.
      apply list_lookup_insert_eq. rewrite Hlen.
      pose proof (slot_bound tr 0) as Hb. unfold slot in Hb.
      rewrite Z.add_0_r in Hb. exact Hb.
    + intros j Hj. rewrite slot_advance. intros Heq. symmetry in Heq. revert Heq.
      apply slot_apart; cbn [length] in Hwin; lia.
  - rewrite <- slot_advance with (n := fst c) (now := snd c).
    rewrite IH.
    + unfold progress_after, stamp.
      cbn [advance current_ start_time_ take map tracker_threads.sum fold_right nth].
      rewrite wrap64_add_l. do 3 f_equal. unfold tracker_threads.sum. lia.
    + rewrite advance_history, length_insert. exact Hlen.
    + simpl in Hi. lia.
    + simpl in Hwin. lia.
Qed.

(** X1. The ring keeps the samples of the last 64 calls, each whole. After a
    run of calls of [advance] by one thread the ring still has its 64
    slots, and the slot call [i] drew, [(history_index_ + i) mod 64], holds
    the sample of the last call of the run that drew that slot: the counter
    after that call and the microseconds it computed. For each of the last
    64 calls that is the call's own sample; an older sample has been
    overwritten. *)
Theorem ring_keeps_last_samples :
  forall (calls : list (Z * Z)) (tr : t) (i : nat),
    length (history_ tr) = Z.to_nat HISTORY_SIZE ->
    (i < length calls)%nat ->
    let last := (i + 64 * ((length calls - 1 - i) / 64))%nat in
    length (history_ (advance_all calls tr)) = Z.to_nat HISTORY_SIZE /\
    (i <= last < length calls)%nat /\
    (length calls - i <= 64 -> last = i)%nat /\
    slot tr last = slot tr i /\
    history_ (advance_all calls tr) !! slot tr i
    = Some (mk_entry (progress_after tr calls last) (stamp tr calls last)).
Proof.
  intros calls tr i Hlen Hi last.
  pose proof (Nat.div_mod_eq (length calls - 1 - i) 64) as Hdm.
  pose proof (Nat.mod_upper_bound (length calls - 1 - i) 64 ltac:(lia)) as Hub.
  assert (Hlast : (i <= last < length calls)%nat) by (unfold last; lia).
  assert (Hslot : slot tr last = slot tr i).
  { unfold slot, last, HISTORY_SIZE. f_equal.
    rewrite Nat2Z.inj_add, Nat2Z.inj_mul.
    replace (history_index_ tr + (Z.of_nat i + Z.of_nat 64 * Z.of_nat ((length calls - 1 - i) / 64)))
      with (history_index_ tr + Z.of_nat i + Z.of_nat ((length calls - 1 - i) / 64) * 64) by lia.
    apply Z.mod_add. lia. }
  split; [rewrite advance_all_length; exact Hlen|].
  split; [exact Hlast|].
  split.
  { intros Hwin. unfold last. rewrite Nat.div_small by lia. lia. }
  split; [exact Hslot|].
  rewrite <- Hslot. apply ring_slot; [exact Hlen | lia |].
  unfold HISTORY_SIZE. unfold last. lia.
Qed.

Lemma ring_keeps_last_samples_witness :
  let calls := map (fun k => (2, 1000 * Z.of_nat k)) (seq 1 70) in
  let tr := create 1000 0 in
  (length (history_ tr) = Z.to_nat HISTORY_SIZE /\ (3 < length calls)%nat) /\
  history_ (advance_all calls tr) !! 3%nat = Some (mk_entry 136 68).
Proof.
  cbv zeta. split; [split; [reflexivity | vm_compute; lia]|].
  exact (proj2 (proj2 (proj2 (proj2
    (ring_keeps_last_samples (map (fun k => (2, 1000 * Z.of_nat k)) (seq 1 70))
       (create 1000 0) 3 eq_refl ltac:(vm_compute; lia)))))).
Defined.

(** ** The index and the timestamps over a run *)

Lemma advance_all_index calls : forall tr,
  0 <= history_index_ tr < 2 ^ 64 ->
  history_index_ (advance_all calls tr)
  = wrap64 (history_index_ tr + Z.of_nat (length calls)).
Proof.
  induction calls as [|c calls IH]; intros tr Hk.
  - simpl. rewrite Z.add_0_r. symmetry. apply wrap64_small. exact Hk.
  - rewrite advance_all_cons, IH.
    + cbn [advance history_index_ length]. rewrite wrap64_add_l. f_equal. lia.
    + cbn [advance history_index_]. apply wrap64_range.
Qed.

Lemma timestamps_fit_advance n now tr :
  timestamps_fit tr -> clock_fits tr now -> timestamps_fit (advance n now tr).
Proof.
  unfold timestamps_fit, clock_fits. intros Hfit [_ Hnow].
  rewrite advance_history. apply Forall_insert; [exact Hfit|]. exact Hnow.
Qed.

(** ** The cache of the rate *)

Lemma estimate_cache tr c :
  estimate (mk (current_ tr) (total_ tr) (start_time_ tr) (history_ tr)
               (history_index_ tr) c)
  = estimate tr.
Proof. reflexivity. Qed.

Lemma estimate_advance_all calls tr c :
  estimate (advance_all calls
              (mk (current_ tr) (total_ tr) (start_time_ tr) (history_ tr)
                  (history_index_ tr) c))
  = estimate (advance_all calls tr).
Proof.
  revert tr c. induction calls as [|x calls IH]; intros tr c; [reflexivity|].
  rewrite !advance_all_cons.
  exact (IH (advance (fst x) (snd x) tr) c).
Qed.

(** X3. The rate is cached for 100 ms. Once [get_rate] has computed a rate, at
    [now1], a call at [now2] less than 100 ms later returns that rate over
    again and changes nothing, however many calls of [advance] came in
    between; a call 100 ms later or more returns the estimate from the ring
    as it is then. *)
Theorem rate_cache_holds :
  forall (now1 now2 : Z) (calls : list (Z * Z)) (tr : t),
    cache_fresh now1 tr = false ->
    let r1 := fst (get_rate now1 tr) in
    let tr2 := advance_all calls (snd (get_rate now1 tr)) in
    (to_milliseconds (now2 - now1) < 100 -> get_rate now2 tr2 = (r1, tr2)) /\
    (100 <= to_milliseconds (now2 - now1) ->
     fst (get_rate now2 tr2) = estimate (advance_all calls tr)).
Proof.
  intros now1 now2 calls tr Hstale r1 tr2.
  assert (Hc : cache_ tr2 = mk_cache (estimate tr)
                 (to_milliseconds (now1 - start_time_ tr)) now1).
  { unfold tr2. rewrite advance_all_cache. unfold get_rate. rewrite Hstale.
    reflexivity. }
  assert (Hr1 : r1 = estimate tr).
  { unfold r1, get_rate. rewrite Hstale. reflexivity. }
  split; intros Hms.
  - unfold get_rate, cache_fresh. rewrite Hc. cbn [last_update rate].
    replace (to_milliseconds (now2 - now1) <? 100) with true
      by (symmetry; apply Z.ltb_lt; exact Hms).
    rewrite Hr1. reflexivity.
  - unfold get_rate at 1, cache_fresh. rewrite Hc. cbn [last_update].
    replace (to_milliseconds (now2 - now1) <? 100) with false
      by (symmetry; apply Z.ltb_ge; exact Hms).
    cbn [fst]. unfold tr2, get_rate. rewrite Hstale. cbn [snd].
    apply estimate_advance_all.
Qed.

Lemma rate_cache_holds_witness :
  let tr := advance 1 2005000 (advance 10 1005000 (create 100 5000)) in
  let now1 := 1000000000 in
  let now2 := 1099000000 in
  let calls := [(5, 1050000000); (7, 1080000000)] in
  cache_fresh now1 tr = false /\
  get_rate now2 (advance_all calls (snd (get_rate now1 tr)))
  = (fst (get_rate now1 tr), advance_all calls (snd (get_rate now1 tr))).
Proof.
  cbv zeta. split; [reflexivity|].
  apply (rate_cache_holds 1000000000 1099000000
           [(5, 1050000000); (7, 1080000000)]
           (advance 1 2005000 (advance 10 1005000 (create 100 5000)))
           eq_refl).
  vm_compute. reflexivity.
Defined.

End TrackerHistory.

(** ** The rate of a tracker advanced by one thread *)

Section TrackerWindow.

Import progress_tracker tracker_history.

Lemma stamp_ascending tr calls :
  ascending tr calls ->
  forall i j, (i < j)%nat -> (j < length calls)%nat ->
              stamp tr calls i < stamp tr calls j.
Proof.
  intros [_ Hs] i j Hij. induction j as [|j IH]; [lia|].
  intros Hj. destruct (decide (i = j)) as [->|Hne].
  - apply Hs. exact Hj.
  - transitivity (stamp tr calls j); [apply IH; lia | apply Hs; exact Hj].
Qed.

Lemma stamp_positive tr calls :
  ascending tr calls ->
  forall i, (i < length calls)%nat -> 0 < stamp tr calls i.
Proof.
  intros Ha i Hi. destruct i as [|i]; [apply Ha|].
  pose proof (stamp_ascending tr calls Ha 0 (S i) ltac:(lia) Hi).
  destruct Ha as [H0 _]. lia.
Qed.

Lemma timestamps_fit_advance_all calls : forall tr,
  timestamps_fit tr ->
  Forall (fun c => clock_fits tr (snd c)) calls ->
  timestamps_fit (advance_all calls tr).
Proof.
  induction calls as [|c calls IH]; intros tr Hfit Hc; [exact Hfit|].
  rewrite advance_all_cons. inversion Hc as [|? ? Hc1 Hc2]; subst.
  apply IH; [apply timestamps_fit_advance; assumption|].
  exact Hc2.
Qed.

Lemma stamps_clock_fit tr calls :
  ascending tr calls ->
  stamp tr calls (length calls - 1) <= INT64_MAX ->
  Forall (fun c => clock_fits tr (snd c)) calls.
Proof.
  intros Ha Hmax. apply List.Forall_forall. intros c Hin.
  destruct (In_nth calls c (0, 0) Hin) as (i & Hi & Hnth).
  unfold clock_fits. replace (to_microseconds (snd c - start_time_ tr))
    with (stamp tr calls i) by (unfold stamp; rewrite Hnth; reflexivity).
  pose proof (stamp_positive tr calls Ha i Hi) as Hpos.
  assert (stamp tr calls i <= stamp tr calls (length calls - 1)).
  { destruct (decide (i = length calls - 1)%nat) as [->|Hne]; [lia|].
    pose proof (stamp_ascending tr calls Ha i (length calls - 1) ltac:(lia) ltac:(lia)).
    lia. }
  unfold INT64_MIN. lia.
Qed.

(** Every slot the scan visits was drawn by one of the calls whose sample
    the ring still holds. *)
Lemma window_slot (tr : t) (m j : nat) :
  history_index_ tr = 0 ->
  (j < Nat.min (Z.to_nat HISTORY_SIZE) m)%nat ->
  exists i, (oldest_kept m <= i < m)%nat /\ slot tr i = j.
Proof.
  unfold oldest_kept, slot, HISTORY_SIZE. intros -> Hj.
  exists (Z.to_nat (Z.of_nat (m - Nat.min m 64)
                    + (Z.of_nat j - Z.of_nat (m - Nat.min m 64)) mod 64)).
  split.
  - Z.div_mod_to_equations. lia.
  - rewrite Z2Nat.id by (Z.div_mod_to_equations; lia).
    rewrite Z.add_0_l, Zplus_mod_idemp_r.
    replace (Z.of_nat (m - Nat.min m 64) + (Z.of_nat j - Z.of_nat (m - Nat.min m 64)))
      with (Z.of_nat j) by lia.
    rewrite Z.mod_small by lia. apply Nat2Z.id.
Qed.

Lemma sum_app_Z (l1 l2 : list Z) :
  tracker_threads.sum (l1 ++ l2) = tracker_threads.sum l1 + tracker_threads.sum l2.
Proof.
  unfold tracker_threads.sum. induction l1 as [|x l1 IH]; simpl; [reflexivity|].
  rewrite IH. lia.
Qed.

Lemma progress_between tr calls o :
  (o < length calls)%nat ->
  wrap64 (progress_after tr calls (length calls - 1) - progress_after tr calls o)
  = wrap64 (tracker_threads.sum (map fst (drop (S o) calls))).
Proof.
  intros Ho. unfold progress_after, wrap64.
  rewrite <- Zminus_mod. f_equal.
  replace (S (length calls - 1)) with (length calls) by lia.
  rewrite firstn_all.
  rewrite <- (take_drop (S o) calls) at 1.
  rewrite map_app, sum_app_Z. lia.
Qed.

(** X4. The rate a single thread sees. A tracker is constructed and advanced by
    [m >= 2] calls, under a clock that moves on by a microsecond at least
    from call to call; its cache is stale. Then [get_rate] returns the
    increments of the calls after the oldest call whose sample the ring
    still holds (call [m - min(m, 64)]), over the time from that call to the
    last, times 1e6: the average over the last [min(m, 64) - 1] calls. The
    increment of the oldest kept call itself, and so the first call's, does
    not count. *)
Theorem rate_over_window :
  forall (total start now : Z) (calls : list (Z * Z)),
    let tr0 := create total start in
    let tr := advance_all calls tr0 in
    let m := length calls in
    let o := oldest_kept m in
    (2 <= m)%nat -> Z.of_nat m < 2 ^ 64 ->
    ascending tr0 calls ->
    stamp tr0 calls (m - 1) <= INT64_MAX ->
    cache_fresh now tr = false ->
    fst (get_rate now tr)
    = div (mul d1e6
             (of_Z (wrap64 (tracker_threads.sum (map fst (drop (S o) calls))))))
          (of_Z (stamp tr0 calls (m - 1) - stamp tr0 calls o)).
Proof.
  intros total start now calls tr0 tr m o Hm Hm64 Hasc Hmax Hstale.
  destruct (get_rate_stale now tr Hstale) as [-> _].
  assert (Hlen0 : length (history_ tr0) = Z.to_nat HISTORY_SIZE)
    by (unfold tr0, create; cbn [history_]; apply length_replicate).
  assert (Hidx : history_index_ tr = Z.of_nat m).
  { unfold tr. rewrite advance_all_index by (cbn; lia).
    cbn [tr0 create history_index_]. apply wrap64_small. fold m. lia. }
  assert (Hk : entries_to_check tr = Nat.min (Z.to_nat HISTORY_SIZE) m).
  { unfold entries_to_check. rewrite Hidx. unfold HISTORY_SIZE. lia. }
  assert (Ho : (o < m - 1)%nat /\ (m - o <= Z.to_nat HISTORY_SIZE)%nat).
  { unfold o, oldest_kept, HISTORY_SIZE. lia. }
  (* the samples of the window *)
  assert (Hsample : forall i, (o <= i < m)%nat ->
            (slot tr0 i < entries_to_check tr)%nat /\
            get_entry (history_ tr) (slot tr0 i)
            = mk_entry (progress_after tr0 calls i) (stamp tr0 calls i)).
  { intros i Hi. split.
    - rewrite Hk. unfold slot, HISTORY_SIZE. cbn [tr0 create history_index_].
      unfold o, oldest_kept, HISTORY_SIZE in Hi.
      Z.div_mod_to_equations. lia.
    - unfold get_entry. apply nth_lookup_Some.
      unfold tr. apply ring_slot; [exact Hlen0 | fold m; lia | fold m; lia]. }
  assert (Hfit : timestamps_fit tr).
  { unfold tr. apply timestamps_fit_advance_all.
    - unfold timestamps_fit, tr0, create. cbn [history_].
      apply Forall_replicate. unfold INT64_MAX. cbn. lia.
    - apply stamps_clock_fit; assumption. }
  pose proof (scanned_history (history_ tr) (entries_to_check tr) Hfit)
    as (Hall & Hn0 & Hom & Hnew & Hold & _ & _).
  set (s := scan_history (history_ tr) (entries_to_check tr)) in *.
  (* every visited slot holds the sample of a call of the window *)
  assert (Hcall : forall j, (j < entries_to_check tr)%nat ->
            exists i, (o <= i < m)%nat /\
              get_entry (history_ tr) j
              = mk_entry (progress_after tr0 calls i) (stamp tr0 calls i)).
  { intros j Hj. rewrite Hk in Hj.
    destruct (window_slot tr0 m j eq_refl Hj) as (i & Hi & <-).
    exists i. split; [exact Hi|]. apply Hsample. exact Hi. }
  destruct (Hsample o ltac:(lia)) as [Hso Heo].
  destruct (Hsample (m - 1)%nat ltac:(lia)) as [Hsn Hen].
  pose proof (stamp_positive tr0 calls Hasc) as Hpos.
  pose proof (stamp_ascending tr0 calls Hasc) as Hup.
  pose proof (Hall _ Hso) as Hbo. rewrite Heo in Hbo. cbn [timestamp] in Hbo.
  specialize (Hbo (Hpos o ltac:(fold m; lia))).
  pose proof (Hall _ Hsn) as Hbn. rewrite Hen in Hbn. cbn [timestamp] in Hbn.
  specialize (Hbn (Hpos (m - 1)%nat ltac:(fold m; lia))).
  pose proof (Hup o (m - 1)%nat ltac:(lia) ltac:(fold m; lia)) as Hlt.
  (* the newest sample is the last call's *)
  destruct (Hnew ltac:(specialize (Hpos (m - 1)%nat ltac:(fold m; lia)); lia))
    as [Hni Hnt].
  destruct (Hcall _ Hni) as (cn & Hcn & Hcne).
  rewrite Hcne in Hnt. cbn [timestamp] in Hnt.
  assert (cn = (m - 1)%nat) as ->.
  { destruct (decide (cn = m - 1)%nat) as [|Hne]; [assumption|].
    pose proof (Hup cn (m - 1)%nat ltac:(lia) ltac:(fold m; lia)). lia. }
  (* the oldest sample is the oldest kept call's *)
  destruct (Hold ltac:(lia)) as (Hoi & Hot & _).
  destruct (Hcall _ Hoi) as (co & Hco & Hcoe).
  rewrite Hcoe in Hot. cbn [timestamp] in Hot.
  assert (co = o) as ->.
  { destruct (decide (co = o)) as [|Hne]; [assumption|].
    pose proof (Hup o co ltac:(lia) ltac:(fold m; lia)). lia. }
  unfold estimate. fold s.
  replace (oldest_time s <? newest_time s) with true
    by (symmetry; apply Z.ltb_lt; lia).
  replace (Nat.eqb (newest_idx s) (oldest_idx s)) with false.
  2:{ symmetry. apply Nat.eqb_neq. intros Heq. rewrite Heq in Hcne.
      rewrite Hcne in Hcoe. injection Hcoe as _ Hts. lia. }
  cbn [andb negb].
  replace (0 <? newest_time s - oldest_time s) with true
    by (symmetry; apply Z.ltb_lt; lia).
  rewrite Hcne, Hcoe. cbn [progress]. rewrite <- Hnt, <- Hot.
  unfold m. rewrite progress_between by (fold m; lia). reflexivity.
Qed.

Lemma ascending_check tr calls :
  (0 <? stamp tr calls 0) = true ->
  forallb (fun i => stamp tr calls i <? stamp tr calls (S i))
          (seq 0 (length calls - 1)) = true ->
  ascending tr calls.
Proof.
  intros H0 Hs. split; [apply Z.ltb_lt; exact H0|].
  intros i Hi. apply Z.ltb_lt.
  apply (proj1 (forallb_forall _ _) Hs i). apply in_seq. lia.
Qed.

Lemma rate_over_window_witness :
  let calls := map (fun k => (2, 5000 + 1000000 * Z.of_nat k)) (seq 1 70) in
  let tr := advance_all calls (create 1000 5000) in
  let now := 1000000000 in
  ((2 <= length calls)%nat /\ Z.of_nat (length calls) < 2 ^ 64 /\
   ascending (create 1000 5000) calls /\
   stamp (create 1000 5000) calls (length calls - 1) <= INT64_MAX /\
   cache_fresh now tr = false) /\
  fst (get_rate now tr) = div (mul d1e6 (of_Z 126)) (of_Z 63000).
Proof.
  cbv zeta.
  assert (Ha : ascending (create 1000 5000)
                 (map (fun k => (2, 5000 + 1000000 * Z.of_nat k)) (seq 1 70))).
  { apply ascending_check; vm_compute; reflexivity. }
  split.
  - split; [vm_compute; lia|]. split; [vm_compute; reflexivity|].
    split; [exact Ha|]. split; [vm_compute; discriminate | vm_compute; reflexivity].
  - rewrite (rate_over_window 1000 5000 1000000000
               (map (fun k => (2, 5000 + 1000000 * Z.of_nat k)) (seq 1 70))
               ltac:(vm_compute; lia) ltac:(vm_compute; reflexivity) Ha
               ltac:(vm_compute; discriminate) ltac:(vm_compute; reflexivity)).
    vm_compute. reflexivity.
Defined.

End TrackerWindow.

(** ** Threads on one tracker: the slots they draw *)

Section TrackerSlots.

Import progress_tracker tracker_threads tracker_slots.

Lemma step_draws now th tr th' tr' :
  step now th tr = Some (th', tr') ->
  wrap64 (history_index_ tr' + draws th') = wrap64 (history_index_ tr + draws th) /\
  length (history_ tr') = length (history_ tr) /\
  (slot_in_ring th -> slot_in_ring th') /\
  total_ tr' = total_ tr /\ start_time_ tr' = start_time_ tr /\
  cache_ tr' = cache_ tr.
Proof.
  unfold step, draws, slot_in_ring. destruct th as [p pend]; simpl.
  destruct p; [destruct pend as [|n rest]|..]; simpl;
    intros [= <- <-]; simpl;
    repeat split; auto;
    unfold store_progress, store_timestamp; rewrite ?length_insert; auto.
  - f_equal. lia.
  - rewrite wrap64_add_l. f_equal. lia.
  - intros _. unfold HISTORY_SIZE. Z.div_mod_to_equations. lia.
Qed.

Lemma run_one_draws st pick :
  wrap64 (history_index_ (tracker (run_one st pick))
          + draws_all (threads (run_one st pick)))
  = wrap64 (history_index_ (tracker st) + draws_all (threads st)) /\
  length (history_ (tracker (run_one st pick))) = length (history_ (tracker st)) /\
  (Forall slot_in_ring (threads st) ->
   Forall slot_in_ring (threads (run_one st pick))) /\
  total_ (tracker (run_one st pick)) = total_ (tracker st) /\
  start_time_ (tracker (run_one st pick)) = start_time_ (tracker st) /\
  cache_ (tracker (run_one st pick)) = cache_ (tracker st).
Proof.
  unfold run_one. destruct pick as [tid now].
  destruct (threads st !! tid) as [th|] eqn:Hth; [|repeat split; auto].
  destruct (step now th (tracker st)) as [[th' tr']|] eqn:Hs;
    [|repeat split; auto].
  simpl. destruct (step_draws _ _ _ _ _ Hs) as (Hc & Hl & Hr & Ht & Hst & Hca).
  split; [|split; [exact Hl|split; [|auto]]].
  - pose proof (sumZ_insert draws _ _ th' _ Hth) as Hsum.
    unfold draws_all.
    replace (history_index_ tr' + sum (map draws (<[tid := th']> (threads st))))
      with ((history_index_ tr' + draws th') + (sum (map draws (threads st)) - draws th))
      by lia.
    replace (history_index_ (tracker st) + sum (map draws (threads st)))
      with ((history_index_ (tracker st) + draws th)
            + (sum (map draws (threads st)) - draws th))
      by lia.
    rewrite <- wrap64_add_l, Hc, wrap64_add_l. reflexivity.
  - intros Hall. apply Forall_insert; [exact Hall|].
    apply Hr. exact (proj1 (Forall_lookup _ _) Hall _ _ Hth).
Qed.

Lemma run_draws schedule : forall st,
  wrap64 (history_index_ (tracker (run schedule st))
          + draws_all (threads (run schedule st)))
  = wrap64 (history_index_ (tracker st) + draws_all (threads st)) /\
  length (history_ (tracker (run schedule st))) = length (history_ (tracker st)) /\
  (Forall slot_in_ring (threads st) ->
   Forall slot_in_ring (threads (run schedule st))) /\
  total_ (tracker (run schedule st)) = total_ (tracker st) /\
  start_time_ (tracker (run schedule st)) = start_time_ (tracker st) /\
  cache_ (tracker (run schedule st)) = cache_ (tracker st).
Proof.
  induction schedule as [|pick sched IH]; intros st; [repeat split; auto|].
  simpl. destruct (IH (run_one st pick)) as (H1 & H2 & H3 & H4 & H5 & H6).
  destruct (run_one_draws st pick) as (G1 & G2 & G3 & G4 & G5 & G6).
  rewrite H1, H2, H4, H5, H6. repeat split; auto.
Qed.

Lemma draws_spawn calls : draws_all (spawn calls) = calls_made calls.
Proof.
  unfold draws_all, spawn, calls_made.
  induction calls as [|c calls IH]; simpl; [reflexivity|].
  rewrite IH. unfold draws. simpl. lia.
Qed.

Lemma draws_done ths : forallb done ths = true -> draws_all ths = 0.
Proof.
  unfold draws_all. induction ths as [|th ths IH]; simpl; [reflexivity|].
  intros H. apply andb_prop in H as [H1 H2]. rewrite (IH H2).
  unfold done in H1. unfold draws.
  destruct (at_ th), (pending th); try discriminate. reflexivity.
Qed.

(** X5. Every call draws one slot, and a slot of the ring. Threads call
    [advance] on one tracker, their operations scheduled in any order. At
    every moment the index plus the draws still to come is the prior index
    plus the number of calls, in the arithmetic of [std::size_t]; every
    thread past its draw holds a slot below 64, so every store goes into
    the ring, which keeps its 64 slots; the total, the start time and the
    cache are not touched. Once every call has returned the index has moved
    by the number of calls. *)
Theorem every_call_draws_one_slot :
  forall (tr : t) (calls : list (list Z)) (schedule : list (nat * Z)),
    let st := run schedule (mk_state tr (spawn calls)) in
    wrap64 (history_index_ (tracker st) + draws_all (threads st))
    = wrap64 (history_index_ tr + calls_made calls) /\
    Forall slot_in_ring (threads st) /\
    length (history_ (tracker st)) = length (history_ tr) /\
    total_ (tracker st) = total_ tr /\
    start_time_ (tracker st) = start_time_ tr /\
    cache_ (tracker st) = cache_ tr /\
    (all_done st = true ->
     wrap64 (history_index_ (tracker st))
     = wrap64 (history_index_ tr + calls_made calls)).
Proof.
  intros tr calls schedule st.
  destruct (run_draws schedule (mk_state tr (spawn calls)))
    as (H1 & H2 & H3 & H4 & H5 & H6).
  fold st in H1, H2, H3, H4, H5, H6. cbn [tracker threads] in *.
  rewrite draws_spawn in H1.
  split; [exact H1|]. split.
  { apply H3. unfold spawn. apply Forall_map. apply Forall_true.
    intros c. exact I. }
  repeat (split; [assumption|]).
  intros Hd. rewrite <- H1. unfold all_done in Hd.
  rewrite (draws_done _ Hd), Z.add_0_r. reflexivity.
Qed.

End TrackerSlots.

(** ** The time left *)

Section TimeLeft.

Import progress_tracker.

Lemma get_rate_nonneg now tr :
  nonneg (rate (cache_ tr)) = true -> timestamps_fit tr ->
  nonneg (fst (get_rate now tr)) = true /\
  nonneg (rate (cache_ (snd (get_rate now tr)))) = true /\
  timestamps_fit (snd (get_rate now tr)).
Proof.
  intros Hc Hfit. unfold get_rate.
  destruct (cache_fresh now tr); cbn [fst snd cache_ rate].
  - auto.
  - pose proof (estimate_nonneg tr Hfit). auto.
Qed.

Lemma eta_operand_nonneg (z : Z) (r : double) :
  0 <= z < 2 ^ 64 -> nonneg r = true -> leb r zero = false ->
  nonneg (mul (div (of_Z z) r) d1000) = true.
Proof.
  intros Hz Hr Hle.
  apply mul_nonneg_r; [|reflexivity].
  destruct r as [[]|[]| |[] m e]; try discriminate Hr; try discriminate Hle.
  - destruct (Z.eq_dec z 0) as [->|Hne]; [reflexivity|].
    pose proof (of_Z_finite_pos z ltac:(lia)) as Hf.
    destruct (of_Z z) as [| | |[] mx ex]; try discriminate Hf. reflexivity.
  - apply div_nonneg; [apply of_Z_nonneg; lia | reflexivity].
Qed.

(** X6. The time left is never negative, and is zero at the end. The rate in
    the cache of a tracker is at all times a number and not negative: the
    constructor leaves 0 there, and [get_rate] returns and caches such a
    rate as long as the timestamps fit [int64_t]. With such a rate, [eta()]
    is not negative when the conversion to [int64_t] is defined, for a
    counter below, at or beyond the total; and for a tracker whose counter
    is at its total, [eta()] is zero. *)
Theorem eta_is_zero_when_complete :
  forall (now : Z) (tr : t),
    nonneg (rate (cache_ tr)) = true ->
    timestamps_fit tr ->
    nonneg (fst (get_rate now tr)) = true /\
    nonneg (rate (cache_ (snd (eta now tr)))) = true /\
    timestamps_fit (snd (eta now tr)) /\
    (forall ms, fst (eta now tr) = Some ms -> 0 <= ms) /\
    (current_ tr = total_ tr -> fst (eta now tr) = Some 0).
Proof.
  intros now tr Hc Hfit.
  destruct (get_rate_nonneg now tr Hc Hfit) as (Hr & Hc' & Hfit').
  rewrite eta_unfold. cbn [fst snd].
  split; [exact Hr|]. split; [exact Hc'|]. split; [exact Hfit'|].
  destruct (leb (fst (get_rate now tr)) zero) eqn:Hle.
  - split; [intros ms [= <-]; lia | reflexivity].
  - split.
    + intros ms. apply to_int64_nonneg.
      apply eta_operand_nonneg; [|exact Hr | exact Hle].
      unfold remaining. apply wrap64_range.
    + intros Heq. unfold remaining. rewrite Heq, Z.sub_diag.
      change (of_Z (wrap64 0)) with zero.
      destruct (fst (get_rate now tr)) as [[]|[]| |[] m e];
        try discriminate Hr; try discriminate Hle; reflexivity.
Qed.

Lemma eta_is_zero_when_complete_witness :
  let tr := advance 90 2005000 (advance 10 1005000 (create 100 5000)) in
  let now := 1000000000 in
  (nonneg (rate (cache_ tr)) = true /\ timestamps_fit tr) /\
  current_ tr = total_ tr /\
  fst (eta now tr) = Some 0.
Proof.
  cbv zeta.
  assert (Hfit : timestamps_fit
                   (advance 90 2005000 (advance 10 1005000 (create 100 5000))))
    by (apply timestamps_fit_check; vm_compute; reflexivity).
  split; [split; [reflexivity | exact Hfit]|].
  split; [reflexivity|].
  apply (eta_is_zero_when_complete 1000000000
           (advance 90 2005000 (advance 10 1005000 (create 100 5000)))
           eq_refl Hfit).
  reflexivity.
Defined.

End TimeLeft.

(** ** The rate is finite *)

Section RateIsFinite.

Import progress_tracker tracker_threads tracker_slots.

(** The quotient of [get_rate]: for any difference of counters and any
    difference of timestamps above zero it is a number, not negative and
    below 2^87. *)
Lemma rate_quotient_finite progress_diff time_diff :
  0 <= progress_diff < 2 ^ 64 -> 0 < time_diff <= INT64_MAX ->
  nonneg (div (mul d1e6 (of_Z progress_diff)) (of_Z time_diff)) = true /\
  below 87 (div (mul d1e6 (of_Z progress_diff)) (of_Z time_diff)).
Proof.
  intros Hp Ht. unfold INT64_MAX in Ht.
  assert (Hy : at_least 1 (of_Z time_diff))
    by (apply of_Z_at_least; [lia | change (2 ^ (1 - 1)) with 1; lia]).
  assert (Hx : below 86 (mul d1e6 (of_Z progress_diff))).
  { replace 86 with (20 + 65 + 1) by lia.
    apply mul_below; [vm_compute; discriminate | | |];
      [|unfold emin, prec, emax; lia..].
    replace 65 with (64 + 1) by lia. apply of_Z_below; [exact Hp|].
    unfold prec, emax. lia. }
  split.
  - apply div_nonneg.
    + apply mul_nonneg; [reflexivity|]. apply of_Z_nonneg. lia.
    + apply of_Z_finite_pos. lia.
  - destruct (of_Z time_diff) as [| | |[] my ey]; try contradiction.
    cbn [at_least] in Hy.
    replace 87 with (86 - 1 + 2) by lia.
    apply div_below; [exact Hx | exact Hy | |]; unfold emin, prec, emax; lia.
Qed.

Lemma estimate_below tr : timestamps_fit tr -> below 87 (estimate tr).
Proof.
  intros Hfit.
  pose proof (scanned_history (history_ tr) (entries_to_check tr) Hfit)
    as (_ & Hn0 & Ho & Hnew & Hold & _ & _).
  unfold estimate.
  set (s := scan_history (history_ tr) (entries_to_check tr)) in *.
  destruct (Z.ltb_spec (oldest_time s) (newest_time s)) as [Hlt|Hge];
    [|exact I].
  destruct (negb (Nat.eqb (newest_idx s) (oldest_idx s))); [|exact I].
  cbn [andb].
  destruct (Z.ltb_spec 0 (newest_time s - oldest_time s)) as [Hd|Hd];
    [|exact I].
  assert (Hpos : 0 < newest_time s).
  { destruct (Z.lt_ge_cases 0 (newest_time s)) as [|Hle]; [assumption|].
    assert (Hlow : oldest_time s < INT64_MAX) by (unfold INT64_MAX; lia).
    destruct (Hold Hlow) as (_ & _ & ?). lia. }
  assert (Hmax : newest_time s <= INT64_MAX).
  { destruct (Hnew Hpos) as [_ <-]. apply (time_at_fits tr _ Hfit). }
  assert (Hmin : 0 < oldest_time s) by (apply Hold; lia).
  apply rate_quotient_finite; [apply wrap64_range | lia].
Qed.

Lemma get_rate_below now tr :
  timestamps_fit tr -> below 87 (rate (cache_ tr)) ->
  below 87 (fst (get_rate now tr)) /\
  below 87 (rate (cache_ (snd (get_rate now tr)))).
Proof.
  intros Hfit Hc. unfold get_rate.
  destruct (cache_fresh now tr); cbn [fst snd cache_ rate]; [auto|].
  pose proof (estimate_below tr Hfit). auto.
Qed.

Lemma entry_fits (h : list history_entry) (idx : nat) :
  Forall (fun e => timestamp e <= INT64_MAX) h ->
  timestamp (get_entry h idx) <= INT64_MAX.
Proof.
  intros Hfit. unfold get_entry.
  destruct (nth_in_or_default idx h empty_entry) as [Hin| ->].
  - exact (proj1 (List.Forall_forall _ _) Hfit _ Hin).
  - unfold INT64_MAX; simpl; lia.
Qed.

Lemma step_stamps now th tr th' tr' :
  step now th tr = Some (th', tr') ->
  to_microseconds (now - start_time_ tr) <= INT64_MAX ->
  timestamps_fit tr -> stamp_fits th ->
  timestamps_fit tr' /\ stamp_fits th' /\
  start_time_ tr' = start_time_ tr /\ cache_ tr' = cache_ tr.
Proof.
  unfold step, stamp_fits, timestamps_fit. destruct th as [p pend]; simpl.
  destruct p; [destruct pend as [|n rest]|..]; simpl;
    intros [= <- <-] Hnow Hfit Hth; simpl; repeat split; auto.
  - unfold store_progress. apply Forall_insert; [exact Hfit|].
    simpl. apply entry_fits. exact Hfit.
  - unfold store_timestamp. apply Forall_insert; [exact Hfit|].
    simpl. exact Hth.
Qed.

Lemma run_one_stamps st pick :
  to_microseconds (snd pick - start_time_ (tracker st)) <= INT64_MAX ->
  timestamps_fit (tracker st) -> Forall stamp_fits (threads st) ->
  timestamps_fit (tracker (run_one st pick)) /\
  Forall stamp_fits (threads (run_one st pick)) /\
  start_time_ (tracker (run_one st pick)) = start_time_ (tracker st) /\
  cache_ (tracker (run_one st pick)) = cache_ (tracker st).
Proof.
  intros Hnow Hfit Hall. unfold run_one. destruct pick as [tid now].
  cbn [snd] in Hnow.
  destruct (threads st !! tid) as [th|] eqn:Hth; [|auto].
  destruct (step now th (tracker st)) as [[th' tr']|] eqn:Hs; [|auto].
  cbn [tracker threads].
  destruct (step_stamps _ _ _ _ _ Hs Hnow Hfit
              (proj1 (Forall_lookup _ _) Hall _ _ Hth)) as (H1 & H2 & H3 & H4).
  split; [exact H1|]. split; [|auto].
  apply Forall_insert; assumption.
Qed.

Lemma run_stamps schedule : forall st,
  clocks_fit (start_time_ (tracker st)) schedule ->
  timestamps_fit (tracker st) -> Forall stamp_fits (threads st) ->
  timestamps_fit (tracker (run schedule st)) /\
  cache_ (tracker (run schedule st)) = cache_ (tracker st).
Proof.
  induction schedule as [|pick sched IH]; intros st Hclk Hfit Hall; [auto|].
  apply Forall_cons_1 in Hclk as [Hnow Hclk].
  destruct (run_one_stamps st pick Hnow Hfit Hall) as (H1 & H2 & H3 & H4).
  cbn [run fold_left]. fold (run sched (run_one st pick)).
  rewrite <- H3 in Hclk.
  destruct (IH (run_one st pick) Hclk H1 H2) as [G1 G2].
  split; [exact G1 | congruence].
Qed.

Lemma clocks_fit_check start schedule :
  forallb (fun pick => to_microseconds (snd pick - start) <=? INT64_MAX)
          schedule = true ->
  clocks_fit start schedule.
Proof.
  intros H. unfold clocks_fit. apply List.Forall_forall. intros e He.
  apply Z.leb_le. exact (proj1 (forallb_forall _ _) H e He).
Qed.

(** X24. The rate is finite. Threads call [advance] on one tracker, their
    operations scheduled in any order, under a clock whose microseconds
    since the start [int64_t] holds. At every moment of the run, between
    any two operations, the timestamps of the ring are such, and
    [get_rate()] on the tracker as it stands returns a number that is not
    negative and is finite, below 2^87, be it the cached rate or a new
    estimate; so does the quotient [1e6 * progress_diff / time_diff] for
    any difference of counters and any difference of timestamps above
    zero, whatever a scan that runs while others store may have read. A
    tracker as constructed meets what is asked of the first state. *)
Theorem rate_is_finite :
  forall (tr : t) (calls : list (list Z)) (schedule : list (nat * Z)) (now : Z),
    timestamps_fit tr ->
    nonneg (rate (cache_ tr)) = true ->
    below 87 (rate (cache_ tr)) ->
    clocks_fit (start_time_ tr) schedule ->
    let st := run schedule (mk_state tr (spawn calls)) in
    let r := fst (get_rate now (tracker st)) in
    timestamps_fit (tracker st) /\
    nonneg r = true /\ below 87 r /\
    (forall progress_diff time_diff : Z,
        0 <= progress_diff < 2 ^ 64 -> 0 < time_diff <= INT64_MAX ->
        nonneg (div (mul d1e6 (of_Z progress_diff)) (of_Z time_diff)) = true /\
        below 87 (div (mul d1e6 (of_Z progress_diff)) (of_Z time_diff))) /\
    (forall total now0 : Z,
        timestamps_fit (create total now0) /\
        nonneg (rate (cache_ (create total now0))) = true /\
        below 87 (rate (cache_ (create total now0)))).
Proof.
  intros tr calls schedule now Hfit Hnn Hb Hclk st r.
  destruct (run_stamps schedule (mk_state tr (spawn calls)) Hclk Hfit)
    as [Hfit' Hcache].
  { unfold spawn. apply Forall_map. apply Forall_true. intros c. exact I. }
  fold st in Hfit', Hcache. cbn [tracker] in Hcache.
  split; [exact Hfit'|].
  destruct (get_rate_nonneg now (tracker st)) as (Hr & _ & _);
    [rewrite Hcache; exact Hnn | exact Hfit' |].
  destruct (get_rate_below now (tracker st) Hfit') as [Hrb _];
    [rewrite Hcache; exact Hb|].
  split; [exact Hr|]. split; [exact Hrb|].
  split; [exact rate_quotient_finite|].
  intros total now0. split; [|split; [reflexivity | exact I]].
  unfold timestamps_fit, create. cbn [history_].
  apply Forall_replicate. unfold INT64_MAX. cbn. lia.
Qed.

Lemma rate_is_finite_witness :
  let tr := create 1000 5000 in
  let calls := [[1; 1]; [1; 1]] in
  let schedule :=
    [(0%nat, 1005000); (1%nat, 1006000); (0%nat, 1007000); (0%nat, 2005000);
     (1%nat, 2006000); (0%nat, 2007000); (1%nat, 3005000); (0%nat, 3006000);
     (1%nat, 3007000); (1%nat, 3008000)] in
  (timestamps_fit tr /\ nonneg (rate (cache_ tr)) = true /\
   below 87 (rate (cache_ tr)) /\ clocks_fit (start_time_ tr) schedule) /\
  nonneg (fst (get_rate 1000000000
                 (tracker (run schedule (mk_state tr (spawn calls)))))) = true /\
  below 87 (fst (get_rate 1000000000
                   (tracker (run schedule (mk_state tr (spawn calls)))))).
Proof.
  cbv zeta.
  assert (Hfit : timestamps_fit (create 1000 5000))
    by (apply timestamps_fit_check; vm_compute; reflexivity).
  assert (Hclk : clocks_fit (start_time_ (create 1000 5000))
                   [(0%nat, 1005000); (1%nat, 1006000); (0%nat, 1007000);
                    (0%nat, 2005000); (1%nat, 2006000); (0%nat, 2007000);
                    (1%nat, 3005000); (0%nat, 3006000); (1%nat, 3007000);
                    (1%nat, 3008000)])
    by (apply clocks_fit_check; vm_compute; reflexivity).
  split; [split; [exact Hfit | split; [reflexivity | split; [exact I | exact Hclk]]]|].
  destruct (rate_is_finite (create 1000 5000) [[1; 1]; [1; 1]] _ 1000000000
              Hfit eq_refl I Hclk) as (_ & Hr & Hb & _).
  split; [exact Hr | exact Hb].
Defined.

End RateIsFinite.

(** ** The bar over a run of calls *)

Section BarRuns.

Import progress_bar bar_members.

Lemma try_render_events tty now cas b :
  Forall (fun e => is_render e = true /\
                   exists d, display_ b = Some d /\ sent_to d e)
         (snd (try_render tty now cas b)) /\
  (length (snd (try_render tty now cas b)) <= 1)%nat /\
  (tty = false -> snd (try_render tty now cas b) = []).
Proof.
  try_render_cases tty cas b;
    (split; [|split; [simpl; lia | try congruence; auto]]);
    try (apply List.Forall_nil);
    (apply List.Forall_cons; [|apply List.Forall_nil]);
    (split; [reflexivity | eexists; split; reflexivity]).
Qed.

Lemma advances_cons tty n o calls b :
  advances tty ((n, o) :: calls) b
  = (fst (advances tty calls (fst (advance tty n o b))),
     snd (advance tty n o b) ++ snd (advances tty calls (fst (advance tty n o b)))).
Proof.
  cbn [advances]. destruct (advance tty n o b) as [b1 l1]. cbn [fst snd].
  destruct (advances tty calls b1) as [b2 l2]. reflexivity.
Qed.

Lemma advances_tracker tty calls : forall b,
  tracker_ (fst (advances tty calls b))
  = option_map (tracker_history.advance_all (tracker_calls calls)) (tracker_ b).
Proof.
  induction calls as [|[n o] calls IH]; intros b.
  - simpl. destruct (tracker_ b); reflexivity.
  - rewrite advances_cons. cbn [fst]. rewrite IH, advance_tracker.
    destruct (tracker_ b); reflexivity.
Qed.

Lemma advances_display tty calls : forall b,
  display_ (fst (advances tty calls b)) = display_ b.
Proof.
  induction calls as [|[n o] calls IH]; intros b; [reflexivity|].
  rewrite advances_cons. cbn [fst]. rewrite IH. apply advance_display.
Qed.

Lemma advances_finished tty calls : forall b,
  finished_ (fst (advances tty calls b)) = finished_ b.
Proof.
  induction calls as [|[n o] calls IH]; intros b; [reflexivity|].
  rewrite advances_cons. cbn [fst]. rewrite IH. apply advance_finished.
Qed.

Lemma advances_events tty calls : forall b,
  Forall (fun e => is_render e = true /\
                   exists d, display_ b = Some d /\ sent_to d e)
         (snd (advances tty calls b)) /\
  (length (snd (advances tty calls b)) <= length calls)%nat /\
  (tty = false -> snd (advances tty calls b) = []).
Proof.
  induction calls as [|[n o] calls IH]; intros b.
  - simpl. repeat split; auto.
  - rewrite advances_cons. cbn [snd].
    destruct (IH (fst (advance tty n o b))) as (H1 & H2 & H3).
    rewrite advance_display in H1.
    assert (Ha : Forall (fun e => is_render e = true /\
                           exists d, display_ b = Some d /\ sent_to d e)
                        (snd (advance tty n o b)) /\
                 (length (snd (advance tty n o b)) <= 1)%nat /\
                 (tty = false -> snd (advance tty n o b) = [])).
    { unfold advance.
      destruct (try_render_events tty (now_render o) (cas_ok o)
                  (match tracker_ b with
                   | Some tr =>
                       mk (Some (progress_tracker.advance n (now_advance o) tr))
                          (display_ b) (finished_ b) (last_render_time_ b)
                          (render_mutex_ b)
                   | None => b
                   end)) as (G1 & G2 & G3).
      split; [|auto].
      destruct (tracker_ b); exact G1. }
    destruct Ha as (A1 & A2 & A3).
    split; [apply Forall_app; auto|]. split.
    + rewrite length_app. cbn [length]. lia.
    + intros Ht. rewrite (A3 Ht), (H3 Ht). reflexivity.
Qed.

Lemma sum_ones {A} (l : list A) :
  tracker_threads.sum (map (fun _ => 1) l) = Z.of_nat (length l).
Proof.
  induction l as [|y l IH]; [reflexivity|].
  cbn [map length]. rewrite Nat2Z.inj_succ, <- IH. unfold tracker_threads.sum.
  cbn [fold_right]. lia.
Qed.

(** X7. A bar advanced by a run of calls. Whatever the gate lets through, the
    counter, the total, the start time and the ring of its tracker are
    those of the tracker advanced by the same calls (the cache is the
    display's to refresh): the accessors show the counter moved by the sum
    of the increments, in the arithmetic of [std::size_t], and the total it
    had. The display and the finished flag stay as they were; the log holds
    renders only, all sent to the bar's own display, one per call at most,
    and none without a terminal. *)
Theorem advances_accumulate :
  forall (tty : bool) (calls : list (Z * oracle)) (b : t),
    let b' := fst (advances tty calls b) in
    let log := snd (advances tty calls b) in
    option_map counters (tracker_ b')
    = option_map
        (fun tr => counters (tracker_history.advance_all (tracker_calls calls) tr))
        (tracker_ b) /\
    current b'
    = (match calls, tracker_ b with
       | _ :: _, Some _ =>
           wrap64 (current b + tracker_threads.sum (map fst calls))
       | _, _ => current b
       end) /\
    total b' = total b /\
    display_ b' = display_ b /\
    finished_ b' = finished_ b /\
    Forall (fun e => is_render e = true /\
                     exists d, display_ b = Some d /\ sent_to d e) log /\
    (length log <= length calls)%nat /\
    (tty = false -> log = []).
Proof.
  intros tty calls b b' log.
  pose proof (advances_tracker tty calls b) as Ht. fold b' in Ht.
  destruct (advances_events tty calls b) as (E1 & E2 & E3).
  split; [rewrite Ht; destruct (tracker_ b); reflexivity|].
  split.
  { unfold current. rewrite Ht. destruct (tracker_ b) as [tr|]; cbn [option_map].
    - unfold progress_tracker.current. rewrite advance_all_current.
      unfold tracker_calls. destruct calls as [|c calls]; [reflexivity|].
      cbn [map]. rewrite !map_map. reflexivity.
    - destruct calls; reflexivity. }
  split.
  { unfold total. rewrite Ht. destruct (tracker_ b) as [tr|]; cbn [option_map];
      [|reflexivity].
    unfold progress_tracker.total. apply advance_all_total. }
  split; [apply advances_display|].
  split; [apply advances_finished|].
  auto.
Qed.


(** X9. A bar that was moved from is inert. What a move leaves in its source
    has no tracker and no display: the accessors return zero, [advance],
    [finish], the destructor and [force_render] dispatch nothing and leave
    the bar as it is. *)
Theorem moved_from_bar_is_inert :
  forall (other : t) (tty : bool) (n now : Z) (o : oracle),
    let z := snd (move_construct other) in
    current z = 0 /\ total z = 0 /\ percentage z = zero /\
    rate now z = (zero, z) /\
    advance tty n o z = (z, []) /\
    pre_increment tty o z = (z, []) /\
    add_assign tty n o z = (z, []) /\
    finish tty z = (z, []) /\
    destroy tty z = (z, []) /\
    force_render tty z = [].
Proof.
  intros other tty n now o z.
  unfold z, move_construct, moved_from. cbn [snd].
  unfold current, total, percentage, rate, pre_increment, add_assign, advance,
    try_render, finish, destroy, force_render.
  cbn. destruct tty; repeat split; reflexivity.
Qed.

End BarRuns.


(** ** Threads on one bar: the render mutex *)

Section RenderLock.

Import progress_bar bar_threads render_lock.

Lemma step_mutex tty c p rest b th' b' acts :
  step tty c p rest b = Some (th', b', acts) ->
  (holds (mk_thread p rest) = false /\ holds th' = false /\
   render_mutex_ b' = render_mutex_ b) \/
  (holds (mk_thread p rest) = false /\ holds th' = true /\
   render_mutex_ b = None /\ render_mutex_ b' = Some (who c)) \/
  (holds (mk_thread p rest) = true /\ holds th' = true /\
   render_mutex_ b' = render_mutex_ b) \/
  (holds (mk_thread p rest) = true /\ holds th' = false /\
   render_mutex_ b' = None).
Proof.
  unfold step, holds. intros H.
  destruct p; step_cases; cbn [at_ render_mutex_ set_tracker set_finished
                                set_last set_mutex];
    try (destruct (can_display tty b));
    try (destruct (min_render_interval <=? _));
    try (match goal with
         | |- context [match ?q with tracker_threads.Call => _ | _ => _ end] =>
             destruct q
         end);
    auto 10.
Qed.

Lemma inv_mutex_step tty st c :
  inv_mutex st -> inv_mutex (run_one tty st c).
Proof.
  intros [HA HB].
  destruct (run_one_cases tty st c) as [-> | (th & th' & b' & acts & Hth & Hs & ->)];
    [split; assumption|].
  assert (Hlt : (who c < length (threads st))%nat)
    by (eapply lookup_lt_Some; exact Hth).
  pose proof (step_mutex _ _ _ _ _ _ _ _ Hs) as Hcases.
  rewrite thread_eta in Hcases.
  split; cbn [bar threads].
  - intros i thi Hi Hh.
    destruct (decide (i = who c)) as [->|Hne].
    + rewrite list_lookup_insert_eq in Hi by exact Hlt. injection Hi as <-.
      destruct Hcases as [(_ & H2 & _) | [(_ & _ & _ & H4) | [(H1 & _ & H3) | (_ & H2 & _)]]];
        try congruence.
      rewrite H3. apply (HA _ _ Hth H1).
    + rewrite list_lookup_insert_ne in Hi by auto.
      pose proof (HA _ _ Hi Hh) as Hm.
      destruct Hcases as [(_ & _ & H3) | [(_ & _ & H3 & _) | [(_ & _ & H3) | (H1 & _ & _)]]];
        try congruence.
      pose proof (HA _ _ Hth H1). congruence.
  - intros tid Hm.
    destruct Hcases as [(H1 & _ & H3) | [(_ & H2 & _ & H4) | [(_ & H2 & H3) | (_ & _ & H3)]]];
      try congruence.
    + rewrite H3 in Hm. destruct (HB _ Hm) as (tht & Ht & Hht).
      exists tht. split; [|exact Hht].
      rewrite list_lookup_insert_ne; [exact Ht|]. intros <-. congruence.
    + rewrite H4 in Hm. injection Hm as <-. exists th'.
      split; [apply list_lookup_insert_eq; exact Hlt | exact H2].
    + rewrite H3 in Hm. destruct (HB _ Hm) as (tht & Ht & Hht).
      destruct (decide (tid = who c)) as [->|Hne].
      * exists th'. split; [apply list_lookup_insert_eq; exact Hlt | exact H2].
      * exists tht. split; [|exact Hht].
        rewrite list_lookup_insert_ne; auto.
Qed.

Lemma inv_mutex_run tty sched : forall st,
  inv_mutex st -> inv_mutex (run tty sched st).
Proof.
  induction sched as [|c sched IH]; intros st H; [exact H|].
  simpl. apply IH, inv_mutex_step, H.
Qed.

Lemma inv_mutex_start b calls :
  render_mutex_ b = None -> inv_mutex (start b calls).
Proof.
  intros Hm. split; cbn [start bar threads].
  - intros i th Hi Hh. apply list_lookup_fmap_Some in Hi as (c & -> & _).
    discriminate Hh.
  - intros tid Ht. congruence.
Qed.

Lemma not_all_done (ths : list thread) :
  forallb done ths = false ->
  exists i th, ths !! i = Some th /\ done th = false.
Proof.
  induction ths as [|th ths IH]; simpl; [discriminate|].
  destruct (done th) eqn:Hd; simpl.
  - intros H. destruct (IH H) as (i & th0 & Hi & Hd0).
    exists (S i), th0. auto.
  - intros _. exists 0%nat, th. auto.
Qed.

Lemma step_holder tty c th b :
  holds th = true -> is_Some (step tty c (at_ th) (pending th) b).
Proof.
  unfold holds, step. destruct (at_ th); try discriminate; intros _;
    try (destruct (tracker_ b), (display_ b)); eauto.
Qed.

Lemma step_free tty c th b :
  render_mutex_ b = None -> done th = false ->
  is_Some (step tty c (at_ th) (pending th) b).
Proof.
  unfold done, step. intros Hm Hd.
  destruct (at_ th) as [|q| | | | | | | | | | |];
    [destruct (pending th) as [|[n|] rest]; [discriminate|..]|..];
    rewrite ?Hm;
    try (destruct (tracker_ b) as [tr|]);
    try (destruct (display_ b));
    try (destruct (finished_ b));
    try (destruct (tracker_threads.enter n tr));
    try (destruct (tracker_threads.step_in (clock c) q tr));
    try (destruct ((last_render_time_ b =? _) && weak_ok c));
    eauto.
Qed.

(** X11. The display is called by one thread at a time. Threads call [advance]
    and [finish] on one bar whose mutex is free at the start, their
    operations scheduled in any order. At every moment at most one thread
    is between the lock and the unlock of [render_mutex_], where the display
    is called, and that thread is the one the mutex records: a render and a
    terminal render never overlap, nor two renders. No moment is a dead
    end: unless every call has returned, some thread can run its next
    operation (the holder of the mutex, when it is held). *)
Theorem display_calls_exclusive :
  forall (tty : bool) (b : t) (calls : list (list op)) (sched : list choice),
    render_mutex_ b = None ->
    let st := run tty sched (start b calls) in
    (forall i j thi thj,
        threads st !! i = Some thi -> threads st !! j = Some thj ->
        holds thi = true -> holds thj = true -> i = j) /\
    (forall i th,
        threads st !! i = Some th -> holds th = true ->
        render_mutex_ (bar st) = Some i) /\
    (forall tid,
        render_mutex_ (bar st) = Some tid ->
        exists th, threads st !! tid = Some th /\ holds th = true) /\
    (all_done st = false ->
     exists tid, forall now ok, can_step tty st (mk_choice tid now ok)).
Proof.
  intros tty b calls sched Hm st.
  destruct (inv_mutex_run tty sched _ (inv_mutex_start b calls Hm)) as [HA HB].
  fold st in HA, HB.
  split.
  { intros i j thi thj Hi Hj Hhi Hhj.
    pose proof (HA _ _ Hi Hhi). pose proof (HA _ _ Hj Hhj). congruence. }
  split; [exact HA|]. split; [exact HB|].
  intros Hnd. unfold all_done in Hnd.
  destruct (render_mutex_ (bar st)) as [tid|] eqn:Hmx.
  - destruct (HB tid eq_refl) as (th & Hth & Hh).
    exists tid. intros now ok. exists th. split; [exact Hth|].
    apply step_holder. exact Hh.
  - destruct (not_all_done _ Hnd) as (i & th & Hi & Hd).
    exists i. intros now ok. exists th. split; [exact Hi|].
    apply step_free; assumption.
Qed.

Lemma display_calls_exclusive_witness :
  let b := fst (create true 10 None 0) in
  let calls := [[Advance 1; FinishOp]; [Advance 2]] in
  let sched := map (fun k => mk_choice k 40000000 true)
                   [0; 0; 0; 0; 0; 0; 0; 0; 0; 0; 1; 1]%nat in
  render_mutex_ b = None /\
  render_mutex_ (bar (run true sched (start b calls))) = Some 0%nat /\
  exists tid, forall now ok,
    can_step true (run true sched (start b calls)) (mk_choice tid now ok).
Proof.
  cbv zeta. split; [reflexivity|]. split; [reflexivity|].
  apply (display_calls_exclusive true (fst (create true 10 None 0))
           [[Advance 1; FinishOp]; [Advance 2]]
           (map (fun k => mk_choice k 40000000 true)
                [0; 0; 0; 0; 0; 0; 0; 0; 0; 0; 1; 1]%nat)
           eq_refl).
  reflexivity.
Defined.

End RenderLock.

(** ** Threads on one bar: the renders a clock allows *)

Section RenderBudget.

Import progress_bar bar_threads render_budget.

Lemma step_reading tty c p rest b th' b' acts ceiling :
  step tty c p rest b = Some (th', b', acts) ->
  to_milliseconds (clock c) <= ceiling ->
  reading_ok ceiling (mk_thread p rest) ->
  reading_ok ceiling th'.
Proof.
  unfold step, reading_ok. intros H Hc Hr.
  destruct p; cbn [at_] in Hr; step_cases; cbn [at_];
    repeat match goal with
           | |- context [if ?x then _ else _] => destruct x
           | |- context [match ?x with _ => _ end] => is_var x; destruct x
           end;
    cbn; auto.
Qed.

Lemma inv_floor_step tty cd floor st c :
  inv_gate cd st -> inv_floor floor st -> inv_floor floor (run_one tty st c).
Proof.
  intros (_ & _ & Hwin & _) [Hlast Hgr].
  destruct (run_one_cases tty st c) as [-> | (th & th' & b' & acts & Hth & Hs & ->)];
    [split; assumption|].
  unfold inv_floor. cbn [bar trace]. rewrite grants_app.
  assert (Hth_ok : window_ok th) by exact (proj1 (Forall_lookup _ _) Hwin _ _ Hth).
  destruct (step_gate _ _ _ _ _ _ _ _ Hs) as [[-> ->] | (now_ms & Hp & -> & ->)].
  - split; assumption.
  - unfold window_ok in Hth_ok. rewrite Hp in Hth_ok.
    split; [unfold min_render_interval in *; lia|].
    constructor; [lia | exact Hgr].
Qed.

Lemma inv_ceiling_step tty floor ceiling st c :
  to_milliseconds (clock c) <= ceiling ->
  inv_ceiling floor ceiling st -> inv_ceiling floor ceiling (run_one tty st c).
Proof.
  intros Hc [Hlast Hrd].
  destruct (run_one_cases tty st c) as [-> | (th & th' & b' & acts & Hth & Hs & ->)];
    [split; assumption|].
  unfold inv_ceiling. cbn [bar threads].
  assert (Hth_ok : reading_ok ceiling th)
    by exact (proj1 (Forall_lookup _ _) Hrd _ _ Hth).
  split.
  - destruct (step_gate _ _ _ _ _ _ _ _ Hs) as [[_ ->] | (now_ms & Hp & _ & ->)];
      [exact Hlast|].
    unfold reading_ok in Hth_ok. rewrite Hp in Hth_ok. lia.
  - apply Forall_insert; [exact Hrd|].
    apply (step_reading _ _ _ _ _ _ _ _ _ Hs Hc).
    rewrite thread_eta. exact Hth_ok.
Qed.

Lemma budget_run tty cd floor ceiling sched : forall st,
  clock_within ceiling sched ->
  inv_guard tty cd st -> inv_gate cd st ->
  inv_floor floor st -> inv_ceiling floor ceiling st ->
  inv_gate cd (run tty sched st) /\
  inv_floor floor (run tty sched st) /\
  inv_ceiling floor ceiling (run tty sched st).
Proof.
  induction sched as [|c sched IH]; intros st Hclk Hg Hga Hf Hc; [auto|].
  inversion Hclk as [|? ? Hc1 Hc2]; subst.
  cbn [run fold_left]. apply IH.
  - exact Hc2.
  - apply inv_guard_step; assumption.
  - apply inv_gate_step; assumption.
  - eapply inv_floor_step; eassumption.
  - apply inv_ceiling_step; assumption.
Qed.

(** Timestamps an interval apart, between a floor and a top, are few. *)
Lemma apart_count floor (gs : list Z) : forall top : Z,
  apart gs ->
  Forall (fun g => floor + min_render_interval <= g) gs ->
  Forall (fun g => g <= top) gs ->
  floor <= top ->
  min_render_interval * Z.of_nat (length gs) <= top - floor.
Proof.
  induction gs as [|g older IH]; intros top Ha Hlo Hhi Htop.
  - simpl. lia.
  - destruct Ha as [Hgap Ha].
    apply Forall_cons_1 in Hlo as [Hg Hlo].
    apply Forall_cons_1 in Hhi as [Hgt _].
    assert (Hold : Forall (fun g' => g' <= g - min_render_interval) older).
    { eapply Forall_impl; [exact Hgap|]. simpl. intros g' H'. lia. }
    specialize (IH (g - min_render_interval) Ha Hlo Hold ltac:(lia)).
    cbn [length]. rewrite Nat2Z.inj_succ. unfold min_render_interval in *. lia.
Qed.

(** X12. The clock bounds the renders. Threads call [advance] and [finish] on
    one bar, under any interleaving. The timestamp of the gate never goes
    below its first value, and is that value or a reading of the clock;
    every grant of the gate raises it by 33 ms at least. So the renders
    the gate lets through number at most a 33rd of the milliseconds between
    the first timestamp and the latest reading of the clock, whatever the
    number of threads and of calls. *)
Theorem renders_bounded_by_clock :
  forall (tty : bool) (b : t) (calls : list (list op)) (sched : list choice)
         (ceiling : Z),
    clock_within ceiling sched ->
    let st := run tty sched (start b calls) in
    let floor := last_render_time_ b in
    floor <= last_render_time_ (bar st) <= Z.max floor ceiling /\
    min_render_interval * Z.of_nat (length (grants (trace st)))
    <= last_render_time_ (bar st) - floor /\
    (renders (trace st) <= length (grants (trace st)))%nat /\
    33 * Z.of_nat (renders (trace st)) <= Z.max 0 (ceiling - floor).
Proof.
  intros tty b calls sched ceiling Hclk st floor.
  destruct (inv_start tty b calls) as (Hg0 & Hga0 & _).
  assert (Hf0 : inv_floor floor (start b calls)).
  { split; [cbn; unfold floor; lia | constructor]. }
  assert (Hc0 : inv_ceiling floor ceiling (start b calls)).
  { split; [cbn; unfold floor; lia|]. cbn [start threads].
    apply Forall_map. apply Forall_true. intros l. exact I. }
  destruct (budget_run tty _ floor ceiling sched _ Hclk Hg0 Hga0 Hf0 Hc0)
    as ((Ha & Hl & _ & Hr) & (Hlast & Hlo) & (Hceil & _)).
  fold st in Ha, Hl, Hr, Hlast, Hlo, Hceil.
  pose proof (apart_count floor _ _ Ha Hlo Hl Hlast) as Hcount.
  split; [lia|]. split; [exact Hcount|]. split; [lia|].
  unfold min_render_interval in Hcount. lia.
Qed.

Lemma renders_bounded_by_clock_witness :
  let b := fst (create true 10 None 0) in
  let calls := [[Advance 1; FinishOp]; [Advance 2]] in
  let sched := map (fun k => mk_choice k 40000000 true)
                   [0; 0; 0; 0; 0; 0; 0; 0; 0; 0; 1; 1; 0; 0]%nat in
  clock_within 40 sched /\
  33 * Z.of_nat (renders (trace (run true sched (start b calls)))) <= 40 /\
  renders (trace (run true sched (start b calls))) = 1%nat.
Proof.
  cbv zeta.
  assert (Hclk : clock_within 40
                   (map (fun k => mk_choice k 40000000 true)
                        [0; 0; 0; 0; 0; 0; 0; 0; 0; 0; 1; 1; 0; 0]%nat)).
  { unfold clock_within. apply Forall_map. apply Forall_true.
    intros k. vm_compute. discriminate. }
  split; [exact Hclk|]. split; [|reflexivity].
  exact (proj2 (proj2 (proj2
    (renders_bounded_by_clock true (fst (create true 10 None 0))
       [[Advance 1; FinishOp]; [Advance 2]] _ 40 Hclk)))).
Defined.

End RenderBudget.

(** ** Threads on one bar: the counter *)

Section BarCounter.

Import progress_bar bar_threads bar_counter.

Lemma step_counter tty c p rest b th' b' acts tr :
  step tty c p rest b = Some (th', b', acts) ->
  tracker_ b = Some tr ->
  exists tr',
    tracker_ b' = Some tr' /\
    wrap64 (progress_tracker.current_ tr' + owed th')
    = wrap64 (progress_tracker.current_ tr + owed (mk_thread p rest)) /\
    progress_tracker.total_ tr' = progress_tracker.total_ tr.
Proof.
  unfold step, owed. intros H Ht. rewrite Ht in H.
  destruct p; step_cases;
    repeat match goal with
           | H : tracker_threads.enter _ _ = _ |- _ =>
               unfold tracker_threads.enter in H; injection H as <- <-
           | H : tracker_threads.step_in _ ?q _ = _ |- _ =>
               destruct q; cbn [tracker_threads.step_in] in H;
               injection H as <- <-
           end;
    cbn [tracker_ set_tracker set_finished set_last set_mutex pending map
         increment];
    (eexists; split; [first [reflexivity | eassumption]|]);
    (split; [|reflexivity]);
    cbn [progress_tracker.current_ progress_tracker.set_history];
    unfold tracker_threads.sum; cbn [fold_right];
    rewrite ?wrap64_add_l; f_equal; lia.
Qed.

Lemma bar_run_one_counter tty st c tr :
  tracker_ (bar st) = Some tr ->
  exists tr',
    tracker_ (bar (run_one tty st c)) = Some tr' /\
    wrap64 (progress_tracker.current_ tr' + owed_all (threads (run_one tty st c)))
    = wrap64 (progress_tracker.current_ tr + owed_all (threads st)) /\
    progress_tracker.total_ tr' = progress_tracker.total_ tr.
Proof.
  intros Ht.
  destruct (run_one_cases tty st c) as [-> | (th & th' & b' & acts & Hth & Hs & ->)];
    [exists tr; auto|].
  destruct (step_counter _ _ _ _ _ _ _ _ _ Hs Ht) as (tr' & Ht' & Hc & Htot).
  rewrite thread_eta in Hc.
  exists tr'. cbn [bar threads]. split; [exact Ht'|]. split; [|exact Htot].
  pose proof (sumZ_insert owed _ _ th' _ Hth) as Hsum.
  unfold owed_all.
  replace (progress_tracker.current_ tr'
           + tracker_threads.sum (map owed (<[who c := th']> (threads st))))
    with ((progress_tracker.current_ tr' + owed th')
          + (tracker_threads.sum (map owed (threads st)) - owed th))
    by lia.
  replace (progress_tracker.current_ tr
           + tracker_threads.sum (map owed (threads st)))
    with ((progress_tracker.current_ tr + owed th)
          + (tracker_threads.sum (map owed (threads st)) - owed th))
    by lia.
  rewrite <- wrap64_add_l, Hc, wrap64_add_l. reflexivity.
Qed.

Lemma bar_run_counter tty sched : forall st tr,
  tracker_ (bar st) = Some tr ->
  exists tr',
    tracker_ (bar (run tty sched st)) = Some tr' /\
    wrap64 (progress_tracker.current_ tr' + owed_all (threads (run tty sched st)))
    = wrap64 (progress_tracker.current_ tr + owed_all (threads st)) /\
    progress_tracker.total_ tr' = progress_tracker.total_ tr.
Proof.
  induction sched as [|c sched IH]; intros st tr Ht; [exists tr; auto|].
  destruct (bar_run_one_counter tty st c tr Ht) as (tr1 & Ht1 & Hc1 & Htot1).
  destruct (IH (run_one tty st c) tr1 Ht1) as (tr' & Ht' & Hc & Htot).
  exists tr'. cbn [run fold_left]. split; [exact Ht'|].
  split; [rewrite <- Hc1; exact Hc | rewrite <- Htot1; exact Htot].
Qed.

(** The counter holds a [std::size_t] once it does. *)
Lemma step_wrapped tty c p rest b th' b' acts tr :
  step tty c p rest b = Some (th', b', acts) ->
  tracker_ b = Some tr ->
  wrap64 (progress_tracker.current_ tr) = progress_tracker.current_ tr ->
  exists tr',
    tracker_ b' = Some tr' /\
    wrap64 (progress_tracker.current_ tr') = progress_tracker.current_ tr'.
Proof.
  unfold step. intros H Ht Hw. rewrite Ht in H.
  destruct p; step_cases;
    repeat match goal with
           | H : tracker_threads.enter _ _ = _ |- _ =>
               unfold tracker_threads.enter in H; injection H as <- <-
           | H : tracker_threads.step_in _ ?q _ = _ |- _ =>
               destruct q; cbn [tracker_threads.step_in] in H;
               injection H as <- <-
           end;
    cbn [tracker_ set_tracker set_finished set_last set_mutex];
    (eexists; split; [first [reflexivity | eassumption]|]);
    cbn [progress_tracker.current_ progress_tracker.set_history];
    first [exact Hw | apply wrap64_idem].
Qed.

Lemma bar_run_wrapped tty sched : forall st tr,
  tracker_ (bar st) = Some tr ->
  wrap64 (progress_tracker.current_ tr) = progress_tracker.current_ tr ->
  exists tr',
    tracker_ (bar (run tty sched st)) = Some tr' /\
    wrap64 (progress_tracker.current_ tr') = progress_tracker.current_ tr'.
Proof.
  induction sched as [|c sched IH]; intros st tr Ht Hw; [exists tr; auto|].
  cbn [run fold_left].
  destruct (run_one_cases tty st c)
    as [-> | (th & th' & b' & acts & Hth & Hs & ->)]; [exact (IH st tr Ht Hw)|].
  destruct (step_wrapped _ _ _ _ _ _ _ _ _ Hs Ht Hw) as (tr1 & Ht1 & Hw1).
  exact (IH (mk_state b' (acts ++ trace st) (<[who c := th']> (threads st)))
            tr1 Ht1 Hw1).
Qed.

Lemma bar_owed_start b calls :
  owed_all (threads (start b calls)) = increments calls.
Proof.
  unfold owed_all, start, increments. cbn [threads].
  rewrite map_map. reflexivity.
Qed.

Lemma bar_owed_done ths : forallb done ths = true -> owed_all ths = 0.
Proof.
  unfold owed_all. induction ths as [|th ths IH]; [reflexivity|].
  cbn [forallb map]. intros H. apply andb_prop in H as [H1 H2].
  change (tracker_threads.sum (?x :: ?l)) with (x + tracker_threads.sum l).
  rewrite (IH H2). unfold done in H1. unfold owed.
  destruct (at_ th), (pending th); try discriminate. reflexivity.
Qed.

(** X13. No increment is lost on a bar either. Threads call [advance] and
    [finish] on one bar that has a tracker, every call cut into its
    operations, scheduled in any order, with renders and the terminal
    render in between. At every moment the counter plus the increments of
    the calls of [advance] not yet begun is the prior counter plus all the
    increments, in the arithmetic of [std::size_t]; the total does not
    move. Once every call has returned, [current()] is the prior counter
    plus all the increments: neither the gate nor [finish] costs a count. *)
Theorem bar_advance_conserves_increments :
  forall (tty : bool) (b : t) (calls : list (list op)) (sched : list choice),
    let st := run tty sched (start b calls) in
    bar_members.total (bar st) = bar_members.total b /\
    (is_Some (tracker_ b) ->
     is_Some (tracker_ (bar st)) /\
     wrap64 (bar_members.current (bar st) + owed_all (threads st))
     = wrap64 (bar_members.current b + increments calls) /\
     (all_done st = true ->
      wrap64 (bar_members.current (bar st))
      = wrap64 (bar_members.current b + increments calls))).
Proof.
  intros tty b calls sched st.
  destruct (tracker_ b) as [tr|] eqn:Ht.
  - destruct (bar_run_counter tty sched (start b calls) tr Ht)
      as (tr' & Ht' & Hc & Htot).
    fold st in Ht', Hc. rewrite bar_owed_start in Hc.
    unfold bar_members.total, bar_members.current. rewrite Ht', Ht.
    split; [exact Htot|]. intros _. split; [eauto|].
    split; [exact Hc|].
    intros Hd. unfold all_done in Hd.
    rewrite (bar_owed_done _ Hd), Z.add_0_r in Hc. exact Hc.
  - split; [|intros [? [=]]].
    assert (Hnone : forall sched st0,
               tracker_ (bar st0) = None -> tracker_ (bar (run tty sched st0)) = None).
    { clear. induction sched as [|c sched IH]; intros st0 H0; [exact H0|].
      cbn [run fold_left]. apply IH.
      destruct (run_one_cases tty st0 c)
        as [-> | (th & th' & b' & acts & Hth & Hs & ->)]; [exact H0|].
      cbn [bar]. unfold step in Hs. rewrite H0 in Hs.
      destruct (at_ th); step_cases;
        cbn [tracker_ set_finished set_last set_mutex]; assumption. }
    unfold bar_members.total. rewrite Ht.
    unfold st. rewrite (Hnone sched (start b calls) Ht). reflexivity.
Qed.

Lemma sum_replicate (k : nat) (x : Z) :
  tracker_threads.sum (replicate k x) = Z.of_nat k * x.
Proof.
  induction k as [|k IH]; [reflexivity|].
  cbn [replicate].
  change (tracker_threads.sum (x :: ?l)) with (x + tracker_threads.sum l).
  rewrite IH. lia.
Qed.

Lemma map_replicate {A B} (f : A -> B) (k : nat) (x : A) :
  map f (replicate k x) = replicate k (f x).
Proof. induction k as [|k IH]; [reflexivity|]. cbn. rewrite IH. reflexivity. Qed.

Lemma increments_multi_thread threads iterations :
  0 < threads -> 0 <= iterations ->
  increments (multi_thread_advance threads iterations)
  = threads * (iterations / threads).
Proof.
  intros Ht Hi. unfold increments, multi_thread_advance.
  rewrite map_replicate, sum_replicate.
  rewrite map_replicate, sum_replicate. cbn [increment].
  assert (0 <= iterations / threads) by (apply Z.div_pos; lia).
  lia.
Qed.

(** X14. The multi-threaded benchmark leaves its bar short. Its bar has the
    total [iterations]; each of [threads] workers calls [advance()]
    [iterations / threads] times. Under every interleaving, once the
    workers have returned the counter is [threads * (iterations / threads)],
    that is [iterations - iterations mod threads]: the bar is complete when
    [threads] divides [iterations] and only then, and is short by less than
    [threads] otherwise. *)
Theorem benchmark_workers_fall_short :
  forall (tty : bool) (threads iterations now : Z) (sched : list choice),
    0 < threads -> 0 <= iterations < 2 ^ 64 ->
    let b := fst (create tty iterations None now) in
    let st := run tty sched (start b (multi_thread_advance threads iterations)) in
    all_done st = true ->
    bar_members.total (bar st) = iterations /\
    bar_members.current (bar st) = iterations - iterations mod threads /\
    (bar_members.current (bar st) = bar_members.total (bar st)
     <-> iterations mod threads = 0) /\
    0 <= bar_members.total (bar st) - bar_members.current (bar st) < threads.
Proof.
  intros tty threads iterations now sched Ht Hi b st Hd.
  assert (Hb : tracker_ b = Some (progress_tracker.create iterations now)).
  { unfold b, create. reflexivity. }
  destruct (bar_run_counter tty sched
              (start b (multi_thread_advance threads iterations)) _ Hb)
    as (tr' & Ht' & Hc & Htot).
  fold st in Ht', Hc. rewrite bar_owed_start in Hc.
  unfold all_done in Hd. rewrite (bar_owed_done _ Hd), Z.add_0_r in Hc.
  rewrite increments_multi_thread in Hc by lia.
  cbn [progress_tracker.create progress_tracker.current_ progress_tracker.total_]
    in Hc, Htot.
  pose proof (Z.mod_pos_bound iterations threads Ht) as Hmod.
  pose proof (Z.div_mod iterations threads ltac:(lia)) as Hdm.
  pose proof (Z.mod_le iterations threads ltac:(lia) ltac:(lia)) as Hle.
  assert (Hcur : wrap64 (progress_tracker.current_ tr')
                 = iterations - iterations mod threads).
  { rewrite Hc, Z.add_0_l.
    replace (threads * (iterations / threads))
      with (iterations - iterations mod threads) by lia.
    apply wrap64_small. lia. }
  assert (Hwrapped : wrap64 (progress_tracker.current_ tr')
                     = progress_tracker.current_ tr').
  { destruct (bar_run_wrapped tty sched
                (start b (multi_thread_advance threads iterations)) _ Hb eq_refl)
      as (tr1 & Ht1 & Hw1).
    fold st in Ht1. congruence. }
  unfold bar_members.total, bar_members.current. rewrite Ht'.
  unfold progress_tracker.total, progress_tracker.current.
  rewrite Htot, <- Hwrapped, Hcur, wrap64_small by lia.
  repeat split; lia.
Qed.

Lemma benchmark_workers_fall_short_witness :
  let sched := bar_threads.in_turn 0 40000000
                 (map (mk_thread Idle) (multi_thread_advance 3 10)) in
  let st := run true sched
              (start (fst (create true 10 None 0)) (multi_thread_advance 3 10)) in
  (0 < 3 /\ 0 <= 10 < 2 ^ 64 /\ all_done st = true) /\
  bar_members.current (bar st) = 9.
Proof.
  cbv zeta.
  assert (Hd : all_done
                 (run true (bar_threads.in_turn 0 40000000
                              (map (mk_thread Idle) (multi_thread_advance 3 10)))
                    (start (fst (create true 10 None 0))
                       (multi_thread_advance 3 10))) = true)
    by (vm_compute; reflexivity).
  split; [split; [lia | split; [lia | exact Hd]]|].
  exact (proj1 (proj2 (benchmark_workers_fall_short true 3 10 0 _
                         ltac:(lia) ltac:(lia) Hd))).
Defined.

End BarCounter.


(** ** The iterator's increments *)

Section IteratorMembers.

Import progress_bar progress_range range_members.

Lemma no_finish_is_render (l : list event) :
  finishes l = 0%nat -> forall e, In e l -> is_render e = true.
Proof.
  unfold finishes. induction l as [|x l IH]; intros Hnf e []; subst.
  - destruct e; [reflexivity | discriminate Hnf].
  - apply IH; [|assumption]. destruct x; [exact Hnf | discriminate Hnf].
Qed.

(** X16. An increment touches the iterator's own bar and nothing else. It moves
    the position by one and keeps the end and the bar pointer; it calls
    [advance] once at most, on the bar the iterator points to, and not at
    all on the step onto the end or through an iterator without a bar, such
    as [end()]; no other bar changes, and none appears or goes. The
    post-increment does the same and returns the iterator as it was, which
    compares unequal to the one it leaves. *)
Theorem increment_touches_own_bar :
  forall (tty : bool) (o : oracle) (it it' : progress_iterator) (h h' : heap)
         (tr : list step),
    incr tty o it h = Some (it', h', tr) ->
    it' = mk_iter (S (current_ it)) (end_ it) (bar_ it) /\
    (forall x, bar_ it <> Some x -> h' !! x = h !! x) /\
    (forall x, is_Some (h' !! x) <-> is_Some (h !! x)) /\
    (advance_calls tr <= 1)%nat /\
    (forall e, In (Displayed e) tr -> is_render e = true) /\
    (bar_ it = None \/ S (current_ it) = end_ it -> h' = h /\ tr = []) /\
    post_increment tty o it h = Some (it, (it', h', tr)) /\
    eq it it' = false /\ neq it it' = true.
Proof.
  intros tty o it it' h h' tr Hincr.
  assert (Hpost : post_increment tty o it h = Some (it, (it', h', tr)))
    by (unfold post_increment; rewrite Hincr; reflexivity).
  unfold incr in Hincr.
  assert (Hneq : forall (e : nat) (x : option addr),
             eq it (mk_iter (S (current_ it)) e x) = false /\
             neq it (mk_iter (S (current_ it)) e x) = true).
  { intros e x. unfold eq, neq. cbn [current_].
    replace (current_ it =? S (current_ it))%nat with false
      by (symmetry; apply Nat.eqb_neq; lia).
    split; reflexivity. }
  destruct (bar_ it) as [a|] eqn:Hbar; cbn [current_ end_] in Hincr.
  - destruct (Nat.eqb_spec (S (current_ it)) (end_ it)) as [Hend|Hmore].
    + injection Hincr as <- <- <-.
      split; [reflexivity|]. split; [intros; reflexivity|].
      split; [intros; reflexivity|]. split; [cbv; lia|].
      split; [intros e []|]. split; [auto|]. split; [exact Hpost|].
      apply Hneq.
    + destruct (h !! a) as [b|] eqn:Hb; [|discriminate].
      pose proof (advance_no_finish tty 1 o b) as Hnf.
      destruct (advance tty 1 o b) as [b' l] eqn:Hadv.
      injection Hincr as <- <- <-. cbn [snd] in Hnf.
      split; [reflexivity|]. split.
      { intros x Hx. apply lookup_insert_ne. congruence. }
      split.
      { intros x. destruct (decide (x = a)) as [->|Hx].
        - rewrite lookup_insert_eq, Hb. split; eauto.
        - rewrite lookup_insert_ne by auto. reflexivity. }
      split.
      { change (Advanced a :: map Displayed l)
          with ([Advanced a] ++ map Displayed l).
        rewrite advance_calls_app, advance_calls_displayed. simpl. lia. }
      split.
      { intros e [He|He]; [discriminate|].
        apply List.in_map_iff in He as (e' & [= ->] & Hin).
        exact (no_finish_is_render l Hnf _ Hin). }
      split; [intros [?|?]; [discriminate | lia]|].
      split; [exact Hpost|]. apply Hneq.
  - injection Hincr as <- <- <-.
    split; [reflexivity|]. split; [intros; reflexivity|].
    split; [intros; reflexivity|]. split; [cbv; lia|].
    split; [intros e []|]. split; [auto|]. split; [exact Hpost|].
    apply Hneq.
Qed.

Lemma increment_touches_own_bar_witness :
  let b := fst (progress_bar.create true 3 None 0) in
  let h : heap := <[1%nat := b]> ∅ in
  let it := mk_iter 0 3 (Some 1%nat) in
  exists it' h' tr,
    incr true (mk_oracle 1000000 40000000 true) it h = Some (it', h', tr) /\
    (advance_calls tr <= 1)%nat /\
    h' !! 2%nat = h !! 2%nat.
Proof.
  cbv zeta.
  destruct (incr true (mk_oracle 1000000 40000000 true)
              (mk_iter 0 3 (Some 1%nat))
              (<[1%nat := fst (progress_bar.create true 3 None 0)]> ∅))
    as [[[it' h'] tr]|] eqn:Hi; [|discriminate Hi].
  exists it', h', tr. split; [reflexivity|].
  destruct (increment_touches_own_bar _ _ _ _ _ _ _ Hi)
    as (_ & Hframe & _ & Hcalls & _).
  split; [exact Hcalls|]. apply Hframe. discriminate.
Defined.

End IteratorMembers.

(** ** The range-for statement *)

Section RangeStatement.

Import progress_bar progress_range range_members.

Lemma loop_calls_next env k m :
  loop_calls env k (S (S m)) = (1, env k) :: loop_calls env (S k) (S m).
Proof. unfold loop_calls. cbn [Nat.sub seq map]. rewrite Nat.sub_0_r. reflexivity. Qed.

(** The loop from position [k] with [m] positions to go is a run of calls
    of [advance] on the range's bar, and touches nothing else. *)
Lemma loop_as_advances tty env a (m : nat) :
  forall (extra k e : nat) (h : heap) (b : progress_bar.t),
    (k + m = e)%nat ->
    h !! a = Some b ->
    loop (m + extra) tty env (mk_iter k e (Some a)) (mk_iter e e None) h
    = Some (<[a := fst (advances tty (loop_calls env k m) b)]> h,
            steps_of a tty (loop_calls env k m) b).
Proof.
  induction m as [|m IH]; intros extra k e h b He Hb.
  - replace k with e by lia. rewrite loop_at_end.
    cbn. rewrite insert_id by exact Hb. reflexivity.
  - change (S m + extra)%nat with (S (m + extra)). rewrite loop_unfold.
    unfold neq; cbn [current_ end_ bar_].
    replace (k =? e)%nat with false by (symmetry; apply Nat.eqb_neq; lia).
    cbn [negb]. unfold incr; cbn [current_ end_ bar_].
    destruct (Nat.eqb_spec (S k) e) as [Hend|Hmore].
    + assert (m = 0%nat) as -> by lia. rewrite Hend.
      rewrite loop_at_end. cbn. rewrite insert_id by exact Hb. reflexivity.
    + destruct m as [|m]; [lia|]. rewrite Hb.
      rewrite loop_calls_next. rewrite advances_cons. cbn [steps_of fst].
      destruct (progress_bar.advance tty 1 (env k) b) as [b' l] eqn:Hadv.
      cbn [fst snd].
      rewrite (IH extra (S k) e (<[a := b']> h) b' ltac:(lia))
        by apply lookup_insert_eq.
      rewrite insert_insert_eq. reflexivity.
Qed.

Lemma events_of_app tr1 tr2 :
  events_of (tr1 ++ tr2) = events_of tr1 ++ events_of tr2.
Proof. unfold events_of. apply omap_app. Qed.

Lemma events_of_displayed l : events_of (map Displayed l) = l.
Proof.
  unfold events_of. induction l as [|e l IH]; [reflexivity|].
  cbn. rewrite IH. reflexivity.
Qed.

Lemma steps_of_events a tty calls : forall b,
  events_of (steps_of a tty calls b) = snd (advances tty calls b) /\
  advance_calls (steps_of a tty calls b) = length calls.
Proof.
  induction calls as [|[n o] calls IH]; intros b; [split; reflexivity|].
  rewrite advances_cons. cbn [steps_of snd length].
  destruct (IH (fst (advance tty n o b))) as [IH1 IH2].
  split.
  - change (Advanced a :: ?l) with ([Advanced a] ++ l).
    rewrite !events_of_app, events_of_displayed, IH1. reflexivity.
  - change (Advanced a :: ?l) with ([Advanced a] ++ l).
    rewrite !advance_calls_app, advance_calls_displayed, IH2. reflexivity.
Qed.

Lemma tqdm_result {A} (tty elide : bool) (container : list A) (a a' : addr)
    (now : Z) (h : heap) :
  a <> a' ->
  let b0 := fst (progress_bar.create tty (Z.of_nat (length container)) None now) in
  let l0 := snd (progress_bar.create tty (Z.of_nat (length container)) None now) in
  let ar := if elide then a else a' in
  exists h1,
    tqdm tty elide container a a' now h
    = Some (mk container ar, h1, map Displayed l0) /\
    h1 !! ar = Some b0 /\
    delete ar h1 = (if elide then delete a h else delete a' (delete a h)).
Proof.
  intros Hne b0 l0 ar. unfold tqdm, create.
  fold b0 l0.
  destruct (progress_bar.create tty (Z.of_nat (length container)) None now)
    as [b l] eqn:Hc. cbn [fst snd] in b0, l0. subst b0 l0.
  destruct elide; subst ar.
  - exists (<[a := b]> h). split; [reflexivity|].
    split; [apply lookup_insert_eq | apply delete_insert_eq].
  - unfold move_construct, destroy, destroy_at. cbn [range_bar_ container_].
    rewrite lookup_insert_eq. unfold progress_bar.move_construct.
    rewrite lookup_insert_ne by auto. rewrite lookup_insert_eq.
    assert (Hb : b = progress_bar.mk (tracker_ b) (display_ b) (finished_ b)
                       (last_render_time_ b) None).
    { unfold progress_bar.create in Hc. injection Hc as <- _. reflexivity. }
    rewrite <- Hb.
    assert (Hd : snd (progress_bar.destroy tty (moved_from b)) = []).
    { unfold progress_bar.destroy, moved_from. cbn. reflexivity. }
    rewrite Hd. cbn [map]. rewrite app_nil_r.
    eexists. split; [reflexivity|].
    split.
    + rewrite lookup_delete_ne by auto. apply lookup_insert_eq.
    + apply map_eq. intros i.
      destruct (decide (i = a')) as [->|Hi'];
        [rewrite !lookup_delete_eq; reflexivity|].
      rewrite !(lookup_delete_ne _ a') by auto.
      destruct (decide (i = a)) as [->|Hi];
        [rewrite !lookup_delete_eq; reflexivity|].
      rewrite !(lookup_delete_ne _ a) by auto.
      rewrite !lookup_insert_ne by auto. reflexivity.
Qed.

(** X17. The statement [for (auto&& x : tqdm(container)) { }] as a whole. Over a
    container of [n] elements it ends within [n] rounds; the display sees
    what it sees of a bar of total [n] that is constructed, advanced
    [n - 1] times by 1 and destroyed at the end of its scope, whether the
    compiler elides the move of the range out of [tqdm] or not (the move
    dispatches nothing, and the range it leaves behind dies in silence).
    On a terminal that is the first render, renders of the gate and one
    terminal render, which comes last and shows the counter at [n - 1] of
    [n]; without a terminal, nothing. Every bar the statement made is gone
    at the end and no other is touched. *)
Theorem range_for_statement :
  forall (A : Type) (container : list A) (tty elide : bool)
         (env : nat -> oracle) (a a' : addr) (now : Z) (h : heap)
         (extra : nat),
    a <> a' ->
    let n := length container in
    exists (h' : heap) (tr : list step),
      range_for (n + extra) tty elide env container a a' now h = Some (h', tr) /\
      h' = (if elide then delete a h else delete a' (delete a h)) /\
      advance_calls tr = (n - 1)%nat /\
      events_of tr
      = scoped tty (Z.of_nat n) None now (loop_calls env 0 n) /\
      exists (renders : list event) (trk : progress_tracker.t),
        events_of tr
        = (if tty
           then Render bar_display (progress_tracker.create (Z.of_nat n) now)
                  :: renders ++ [Finish bar_display trk]
           else []) /\
        Forall (fun e => is_render e = true) renders /\
        progress_tracker.current trk = wrap64 (Z.of_nat (n - 1)) /\
        progress_tracker.total trk = wrap64 (Z.of_nat n).
Proof.
  intros A container tty elide env a a' now h extra Hne n.
  destruct (tqdm_result tty elide container a a' now h Hne)
    as (h1 & Htq & Hb0 & Hdel).
  cbv zeta in Htq, Hb0, Hdel.
  set (ar := if elide then a else a') in *.
  set (b0 := fst (progress_bar.create tty (Z.of_nat (length container)) None now)) in *.
  set (l0 := snd (progress_bar.create tty (Z.of_nat (length container)) None now)) in *.
  unfold range_for. rewrite Htq. unfold begin_, end_of.
  cbn [container_ range_bar_]. fold n.
  rewrite (loop_as_advances tty env ar n extra 0 n h1 b0 eq_refl Hb0).
  set (calls := loop_calls env 0 n).
  unfold destroy, destroy_at. cbn [range_bar_]. rewrite lookup_insert_eq.
  rewrite delete_insert_eq, Hdel.
  destruct (steps_of_events ar tty calls b0) as [Hev Hadv].
  eexists. eexists. split; [reflexivity|]. split; [reflexivity|].
  assert (Hlog : events_of
                   (map Displayed l0 ++ steps_of ar tty calls b0
                    ++ map Displayed (snd (progress_bar.destroy tty
                                             (fst (advances tty calls b0)))))
                 = scoped tty (Z.of_nat n) None now calls).
  { rewrite !events_of_app, !events_of_displayed, Hev. unfold scoped.
    fold n in b0, l0.
    destruct (progress_bar.create tty (Z.of_nat n) None now) as [bc lc] eqn:Hc.
    cbn [fst snd] in b0, l0. subst b0 l0.
    destruct (advances tty calls bc) as [b1 l1]. reflexivity. }
  split.
  { rewrite !advance_calls_app, !advance_calls_displayed, Hadv.
    unfold calls, loop_calls. rewrite length_map, length_seq. lia. }
  split; [exact Hlog|].
  rewrite Hlog. unfold scoped, progress_bar.create.
  set (bc := progress_bar.mk (Some (progress_tracker.create (Z.of_nat n) now))
               (Some bar_display) false 0 None).
  pose proof (advances_tracker tty calls bc) as Ht.
  pose proof (advances_display tty calls bc) as Hd.
  pose proof (advances_finished tty calls bc) as Hf.
  destruct (advances_events tty calls bc) as (Hrs & _ & Hno).
  destruct (advances tty calls bc) as [b1 l1]. cbn [fst snd] in *.
  cbn [bc tracker_ option_map display_ finished_] in Ht, Hd, Hf.
  set (trk := tracker_history.advance_all (bar_members.tracker_calls calls)
                (progress_tracker.create (Z.of_nat n) now)) in *.
  exists l1, trk. split.
  { unfold progress_bar.destroy, finish. rewrite Hf, Ht, Hd.
    destruct tty; cbn; [reflexivity|]. rewrite (Hno eq_refl). reflexivity. }
  split.
  { eapply Forall_impl; [exact Hrs|]. intros e [He _]. exact He. }
  split.
  - unfold progress_tracker.current, trk.
    rewrite advance_all_counter by reflexivity.
    unfold bar_members.tracker_calls, calls, loop_calls. rewrite !map_map.
    cbn [fst snd]. rewrite sum_ones, length_seq. reflexivity.
  - unfold progress_tracker.total, trk. rewrite advance_all_total. reflexivity.
Qed.

Lemma range_for_statement_witness :
  let env := fun _ : nat => mk_oracle 1000000 40000000 true in
  (1%nat <> 2%nat) /\
  exists (h' : heap) (tr : list step),
    range_for 3 true false env [10; 20; 30] 1%nat 2%nat 0 ∅ = Some (h', tr) /\
    h' = delete 2%nat (delete 1%nat ∅) /\
    advance_calls tr = 2%nat.
Proof.
  cbv zeta. split; [discriminate|].
  destruct (range_for_statement Z [10; 20; 30] true false
              (fun _ : nat => mk_oracle 1000000 40000000 true)
              1%nat 2%nat 0 ∅ 0%nat ltac:(discriminate))
    as (h' & tr & Hrun & Hh & Hadv & _).
  exists h', tr. split; [exact Hrun|]. split; [exact Hh | exact Hadv].
Defined.

End RangeStatement.

(** ** Formatting a duration *)

Section Formatting.

Import format.

(** X18. [format_time] shows a duration in its two coarsest units. From an hour
    on it writes the hours and the minutes below 60 and drops the seconds,
    so the text is the duration rounded down to the minute; from a minute
    on it writes minutes and seconds, the duration rounded down to the
    second; below a minute it writes the seconds alone. A negative duration
    is never split: it is written in seconds, rounded toward zero, however
    long it is. *)
Theorem format_time_fields :
  forall ms : Z,
    (3600000 <= ms ->
     exists h m,
       format_time ms = pretty h +:+ "h" +:+ pretty m +:+ "m" /\
       0 < h /\ 0 <= m < 60 /\
       0 <= ms - (h * 3600000 + m * 60000) < 60000) /\
    (60000 <= ms < 3600000 ->
     exists m s,
       format_time ms = pretty m +:+ "m" +:+ pretty s +:+ "s" /\
       0 < m < 60 /\ 0 <= s < 60 /\
       0 <= ms - (m * 60000 + s * 1000) < 1000) /\
    (0 <= ms < 60000 ->
     exists s,
       format_time ms = pretty s +:+ "s" /\
       0 <= s < 60 /\ 0 <= ms - s * 1000 < 1000) /\
    (ms < 0 ->
     exists s,
       format_time ms = pretty s +:+ "s" /\
       s <= 0 /\ 0 <= s * 1000 - ms < 1000).
Proof.
  intros ms. unfold format_time.
  set (seconds := Z.quot ms 1000).
  set (minutes := Z.quot seconds 60).
  set (hours := Z.quot minutes 60).
  set (m60 := Z.rem minutes 60).
  set (s60 := Z.rem seconds 60).
  assert (Hq : ms = 1000 * seconds + Z.rem ms 1000 /\
               seconds = 60 * minutes + s60 /\
               minutes = 60 * hours + m60)
    by (repeat split; apply Z.quot_rem'; lia).
  destruct Hq as (Hq1 & Hq2 & Hq3).
  pose proof (Z.rem_bound_abs ms 1000 ltac:(lia)) as Hr1.
  pose proof (Z.rem_bound_abs seconds 60 ltac:(lia)) as Hr2.
  pose proof (Z.rem_bound_abs minutes 60 ltac:(lia)) as Hr3.
  fold s60 in Hr2. fold m60 in Hr3.
  pose proof (Z.rem_sign_nz ms 1000 ltac:(lia)) as Hs1.
  pose proof (Z.rem_sign_nz seconds 60 ltac:(lia)) as Hs2.
  pose proof (Z.rem_sign_nz minutes 60 ltac:(lia)) as Hs3.
  fold s60 in Hs2. fold m60 in Hs3.
  assert (Hsgn1 : (0 <= ms -> 0 <= Z.rem ms 1000) /\ (ms <= 0 -> Z.rem ms 1000 <= 0)).
  { split; intros H; [apply Z.rem_nonneg; lia | apply Z.rem_nonpos; lia]. }
  assert (Hsgn2 : (0 <= seconds -> 0 <= s60) /\ (seconds <= 0 -> s60 <= 0)).
  { split; intros H; [apply Z.rem_nonneg; lia | apply Z.rem_nonpos; lia]. }
  assert (Hsgn3 : (0 <= minutes -> 0 <= m60) /\ (minutes <= 0 -> m60 <= 0)).
  { split; intros H; [apply Z.rem_nonneg; lia | apply Z.rem_nonpos; lia]. }
  clear Hs1 Hs2 Hs3.
  assert (Hsec : (0 <= ms -> 0 <= seconds) /\ (ms <= 0 -> seconds <= 0)).
  { split; intros H; [apply Z.quot_pos; lia | apply Z.quot_le_upper_bound; lia]. }
  assert (Hmin : (0 <= seconds -> 0 <= minutes) /\ (seconds <= 0 -> minutes <= 0)).
  { split; intros H; [apply Z.quot_pos; lia | apply Z.quot_le_upper_bound; lia]. }
  assert (Hhr : (0 <= minutes -> 0 <= hours) /\ (minutes <= 0 -> hours <= 0)).
  { split; intros H; [apply Z.quot_pos; lia | apply Z.quot_le_upper_bound; lia]. }
  clearbody seconds minutes hours m60 s60.
  split; [|split; [|split]]; intros Hms.
  - replace (0 <? hours) with true by (symmetry; apply Z.ltb_lt; lia).
    exists hours, m60. split; [reflexivity|]. lia.
  - replace (0 <? hours) with false by (symmetry; apply Z.ltb_ge; lia).
    replace (0 <? minutes) with true by (symmetry; apply Z.ltb_lt; lia).
    exists minutes, s60. split; [reflexivity|]. lia.
  - replace (0 <? hours) with false by (symmetry; apply Z.ltb_ge; lia).
    replace (0 <? minutes) with false by (symmetry; apply Z.ltb_ge; lia).
    exists seconds. split; [reflexivity|]. lia.
  - replace (0 <? hours) with false by (symmetry; apply Z.ltb_ge; lia).
    replace (0 <? minutes) with false by (symmetry; apply Z.ltb_ge; lia).
    exists seconds. split; [reflexivity|]. lia.
Qed.

Lemma plain_pretty_N_go (x : N) : forall s : string,
  plain s = true -> plain (pretty_N_go x s) = true.
Proof.
  induction (N.lt_wf_0 x) as [x _ IH]. intros s Hs.
  destruct (N.eq_dec x 0%N) as [->|Hx].
  - rewrite pretty_N_go_0. exact Hs.
  - rewrite pretty_N_go_step by lia. apply IH.
    + apply N.div_lt; lia.
    + cbn [plain]. rewrite Hs, andb_true_r.
      unfold pretty_N_char.
      destruct (x `mod` 10)%N as [|[[[|[]|]|[|[]|]|]|[[|[]|]|[|[]|]|]|]];
        reflexivity.
Qed.

Lemma plain_pretty (z : Z) : plain (pretty z) = true.
Proof.
  assert (Hpos : forall p : positive, plain (pretty p) = true).
  { intros p. unfold pretty, pretty_positive, pretty, pretty_N.
    destruct (decide (N.pos p = 0%N)); [discriminate|].
    apply plain_pretty_N_go. reflexivity. }
  destruct z as [|p|p]; [reflexivity | apply Hpos|].
  unfold pretty, pretty_Z.
  change ("-" +:+ pretty p) with (String "-"%char (pretty p)).
  cbn [plain is_unit negb andb]. apply Hpos.
Qed.

(** A text is read in one way: a field ends at the first letter. *)
Lemma field_split (u : string) : forall (u' v v' : string) (c c' : ascii),
  plain u = true -> plain u' = true ->
  is_unit c = true -> is_unit c' = true ->
  u +:+ String c v = u' +:+ String c' v' ->
  u = u' /\ c = c' /\ v = v'.
Proof.
  induction u as [|x u IH]; intros [|x' u'] v v' c c' Hu Hu' Hc Hc' Heq.
  - injection Heq as -> ->. auto.
  - change (String c v = String x' (u' +:+ String c' v')) in Heq.
    injection Heq as -> _. cbn [plain] in Hu'. rewrite Hc in Hu'. discriminate.
  - change (String x (u +:+ String c v) = String c' v') in Heq.
    injection Heq as -> _. cbn [plain] in Hu. rewrite Hc' in Hu. discriminate.
  - change (String x (u +:+ String c v) = String x' (u' +:+ String c' v')) in Heq.
    injection Heq as -> Heq. cbn [plain] in Hu, Hu'.
    apply andb_prop in Hu as [_ Hu]. apply andb_prop in Hu' as [_ Hu'].
    destruct (IH u' v v' c c' Hu Hu' Hc Hc' Heq) as (-> & -> & ->). auto.
Qed.

Lemma field_read (x y : Z) (c c' : ascii) (v v' : string) :
  is_unit c = true -> is_unit c' = true ->
  pretty x +:+ String c v = pretty y +:+ String c' v' ->
  x = y /\ c = c' /\ v = v'.
Proof.
  intros Hc Hc' Heq.
  destruct (field_split _ _ _ _ _ _ (plain_pretty x) (plain_pretty y) Hc Hc' Heq)
    as (Hp & -> & ->).
  split; [|auto]. exact (pretty_Z_inj _ _ Hp).
Qed.

(** X19. The text of [format_time] tells the duration to the unit it shows. Two
    durations with the same text agree in their whole seconds, unless both
    are of an hour or more, where the seconds are not written: then they
    agree in their whole minutes. No text stands for two durations that
    differ by more. *)
Theorem format_time_is_unambiguous :
  forall a b : Z,
    format_time a = format_time b ->
    Z.quot a 1000 = Z.quot b 1000 \/
    (3600000 <= a /\ 3600000 <= b /\ a / 60000 = b / 60000).
Proof.
  intros a b. unfold format_time.
  set (sa := Z.quot a 1000). set (sb := Z.quot b 1000).
  set (ma := Z.quot sa 60). set (mb := Z.quot sb 60).
  set (ha := Z.quot ma 60). set (hb := Z.quot mb 60).
  assert (Hma : ma = 60 * ha + Z.rem ma 60) by (apply Z.quot_rem'; lia).
  assert (Hmb : mb = 60 * hb + Z.rem mb 60) by (apply Z.quot_rem'; lia).
  assert (Hsa : sa = 60 * ma + Z.rem sa 60) by (apply Z.quot_rem'; lia).
  assert (Hsb : sb = 60 * mb + Z.rem sb 60) by (apply Z.quot_rem'; lia).
  assert (Hhours : forall x, 0 < Z.quot (Z.quot (Z.quot x 1000) 60) 60 ->
                             3600000 <= x /\
                             Z.quot (Z.quot x 1000) 60 = x / 60000).
  { intros x Hx.
    assert (0 <= x).
    { destruct (Z_lt_le_dec x 0) as [Hneg|]; [|assumption].
      assert (Z.quot x 1000 <= 0) by (apply Z.quot_le_upper_bound; lia).
      assert (Z.quot (Z.quot x 1000) 60 <= 0) by (apply Z.quot_le_upper_bound; lia).
      assert (Z.quot (Z.quot (Z.quot x 1000) 60) 60 <= 0)
        by (apply Z.quot_le_upper_bound; lia).
      lia. }
    assert (H1 : 0 <= x / 1000) by (apply Z.div_pos; lia).
    assert (H2 : 0 <= x / 1000 / 60) by (apply Z.div_pos; lia).
    rewrite (Z.quot_div_nonneg x 1000) in Hx |- * by lia.
    rewrite (Z.quot_div_nonneg (x / 1000) 60) in Hx |- * by lia.
    rewrite (Z.quot_div_nonneg (x / 1000 / 60) 60) in Hx by lia.
    split; [|rewrite Z.div_div by lia; reflexivity].
    Z.div_mod_to_equations. lia. }
  destruct (Z.ltb_spec 0 ha) as [Hha|Hha], (Z.ltb_spec 0 hb) as [Hhb|Hhb].
  - intros Heq.
    apply field_read in Heq as (Hh & _ & Heq); [|reflexivity..].
    apply field_read in Heq as (Hm & _ & _); [|reflexivity..].
    right. destruct (Hhours a Hha) as [Ha Hqa]. destruct (Hhours b Hhb) as [Hb Hqb].
    split; [exact Ha|]. split; [exact Hb|].
    rewrite <- Hqa, <- Hqb. fold sa sb ma mb. lia.
  - destruct (Z.ltb_spec 0 mb) as [Hmb0|Hmb0]; intros Heq.
    + apply field_read in Heq as (_ & [=] & _); reflexivity.
    + apply field_read in Heq as (_ & [=] & _); reflexivity.
  - destruct (Z.ltb_spec 0 ma) as [Hma0|Hma0]; intros Heq.
    + apply field_read in Heq as (_ & [=] & _); reflexivity.
    + apply field_read in Heq as (_ & [=] & _); reflexivity.
  - destruct (Z.ltb_spec 0 ma) as [Hma0|Hma0], (Z.ltb_spec 0 mb) as [Hmb0|Hmb0];
      intros Heq.
    + apply field_read in Heq as (Hm & _ & Heq); [|reflexivity..].
      apply field_read in Heq as (Hs & _ & _); [|reflexivity..].
      left. lia.
    + apply field_read in Heq as (_ & [=] & _); reflexivity.
    + apply field_read in Heq as (_ & [=] & _); reflexivity.
    + apply field_read in Heq as (Hs & _ & _); [|reflexivity..].
      left. exact Hs.
Qed.

Lemma format_time_is_unambiguous_witness :
  format_time 61999 = format_time 61000 /\
  Z.quot 61999 1000 = Z.quot 61000 1000.
Proof.
  assert (H : format_time 61999 = format_time 61000) by (vm_compute; reflexivity).
  split; [exact H|].
  destruct (format_time_is_unambiguous 61999 61000 H) as [Hq|(Ha & _)];
    [exact Hq | exfalso; lia].
Defined.

End Formatting.

(** ** The bar the default display draws *)

Section BarCells.

Import bar_display.

Lemma to_int_nonneg x z : nonneg x = true -> to_int x = Some z -> 0 <= z.
Proof.
  unfold to_int. intros Hx.
  destruct (truncate x) as [t|] eqn:Ht; [|discriminate].
  pose proof (truncate_nonneg x t Hx Ht).
  destruct ((INT_MIN <=? t) && (t <=? INT_MAX)); [|discriminate].
  intros [= <-]. assumption.
Qed.

Lemma to_int_range x z : to_int x = Some z -> INT_MIN <= z <= INT_MAX.
Proof.
  unfold to_int. destruct (truncate x) as [t|]; [|discriminate].
  destruct (Z.leb_spec INT_MIN t), (Z.leb_spec t INT_MAX); simpl;
    try discriminate.
  intros [= <-]. lia.
Qed.

Lemma int_of_size_small n : 0 <= n <= INT_MAX -> int_of_size n = n.
Proof.
  unfold int_of_size, INT_MAX. intros H.
  rewrite Z.mod_small by lia.
  destruct (Z.ltb_spec n (2 ^ 31)); lia.
Qed.

(** What [fills] is when the percentage is a number, and not a negative
    one: no negative number. *)
Lemma fills_nonneg p width whole :
  nonneg p = true -> 0 <= width ->
  to_int (mul (div p d100) (of_Z width)) = Some whole -> 0 <= whole.
Proof.
  intros Hp Hw Hwhole.
  assert (Hq : nonneg (div p d100) = true) by (apply div_nonneg; [exact Hp | reflexivity]).
  destruct (Z.eq_dec width 0) as [->|Hne].
  - change (of_Z 0) with zero in Hwhole.
    destruct (div p d100) as [[]|[]| |[] m e]; try discriminate Hq;
      cbn in Hwhole; try discriminate Hwhole;
      injection Hwhole as <-; lia.
  - destruct (Z_lt_le_dec width (2 ^ 64)) as [Hlt|Hge].
    + eapply to_int_nonneg; [|exact Hwhole].
      apply mul_nonneg_r; [exact Hq|]. apply of_Z_finite_pos. lia.
    + eapply to_int_nonneg; [|exact Hwhole].
      pose proof (of_Z_nonneg width Hw) as Hy.
      destruct (div p d100) as [[]|[]| |[] m e]; try discriminate Hq;
      destruct (of_Z width) as [[]|[]| |[] my ey] eqn:Hof; try discriminate Hy;
        try reflexivity; try (cbn in Hwhole; discriminate Hwhole).
      apply nonneg_spec. unfold mul, SFmul. simpl xorb.
      apply binary_round_aux_sign. lia.
Qed.

Lemma block_length th k :
  In th themes -> (k <= 8)%nat -> String.length (block th k) = 1%nat.
Proof.
  intros Hth Hk. unfold themes in Hth. simpl in Hth.
  destruct Hth as [<-|[<-|[<-|[<-|[]]]]];
    do 9 (destruct k as [|k]; [reflexivity|]); lia.
Qed.

Lemma length_append (s1 s2 : string) :
  String.length (s1 +:+ s2) = (String.length s1 + String.length s2)%nat.
Proof. induction s1 as [|c s1 IH]; simpl; [reflexivity | rewrite IH; reflexivity]. Qed.

Lemma bar_text_length th cells :
  In th themes -> Forall (fun k => (k <= 8)%nat) cells ->
  String.length (bar_text th cells) = length cells.
Proof.
  intros Hth Hc. induction Hc as [|k cells Hk _ IH]; [reflexivity|].
  cbn [bar_text fold_right length]. rewrite length_append.
  rewrite (block_length th k Hth Hk). fold (bar_text th cells). rewrite IH.
  reflexivity.
Qed.

Lemma bar_cells_shape (p : double) (width : Z) (cells : list nat) :
  nonneg p = true ->
  0 <= width <= INT_MAX ->
  bar_cells p width = Some cells ->
  length cells = Z.to_nat width /\
  Forall (fun k => (k <= 8)%nat) cells /\
  (exists (full : nat) (rest : list nat),
      cells = replicate full 8%nat ++ rest /\
      (rest = [] \/
       exists k, (k <= 8)%nat /\
                 rest = k :: replicate (length rest - 1) 0%nat)).
Proof.
  intros Hp Hw Hcells.
  unfold bar_cells in Hcells.
  destruct (to_int (mul (div p d100) (of_Z width))) as [whole|] eqn:Hwhole;
    [|discriminate].
  pose proof (fills_nonneg p width whole Hp (proj1 Hw) Hwhole) as Hw0.
  rewrite int_of_size_small in Hcells by exact Hw.
  destruct (Z.ltb_spec whole width) as [Hlt|Hge].
  - destruct (to_int (mul (sub (mul (div p d100) (of_Z width)) (of_Z whole)) d8))
      as [fi|]; [|discriminate].
    injection Hcells as <-.
    set (k := Z.to_nat (if 8 <? (if fi <? 0 then 0 else fi) then 8
                        else if fi <? 0 then 0 else fi)).
    assert (Hk : (k <= 8)%nat).
    { unfold k. destruct (fi <? 0) eqn:H0; [simpl; lia|].
      destruct (Z.ltb_spec 8 fi); lia. }
    split; [|split].
    + rewrite length_app. cbn [length]. rewrite !length_replicate. lia.
    + apply Forall_app. split; [apply Forall_replicate; lia|].
      constructor; [exact Hk|]. apply Forall_replicate. lia.
    + exists (Z.to_nat (Z.min whole width)),
             (k :: replicate (Z.to_nat (width - (whole + 1))) 0%nat).
      split; [reflexivity|]. right. exists k. split; [exact Hk|].
      cbn [length]. rewrite length_replicate, Nat.sub_succ, Nat.sub_0_r.
      reflexivity.
  - injection Hcells as <-. split; [|split].
    + rewrite length_replicate. lia.
    + apply Forall_replicate. lia.
    + exists (Z.to_nat (Z.min whole width)), []. rewrite app_nil_r. auto.
Qed.

End BarCells.

(** ** The conversions of the bar *)

Section BarConversions.

Import bar_display.

Lemma sub_below a x y :
  below a x -> below a y ->
  emin prec emax <= a + 1 -> a + 1 < emax - prec ->
  below (a + 2) (sub x y).
Proof.
  intros Hx Hy Hmin Hmax.
  destruct x as [sx|sx| |sx mx ex]; try contradiction;
    destruct y as [sy|sy| |sy my ey]; try contradiction.
  - destruct sx, sy; exact I.
  - cbn [sub SFsub below] in *. lia.
  - cbn [sub SFsub below] in *. lia.
  - unfold sub, SFsub. cbn [below] in Hx, Hy.
    set (ez := Z.min ex ey).
    destruct (shl_align_spec mx ex ez) as (Hvx & _ & _).
    destruct (shl_align_spec my ey ez) as (Hvy & _ & _).
    set (X := Zpos (fst (shl_align mx ex ez))) in *.
    set (Y := Zpos (fst (shl_align my ey ez))) in *.
    replace (Z.min ex ez) with ez in Hvx by (unfold ez; lia).
    replace (Z.min ey ez) with ez in Hvy by (unfold ez; lia).
    pose proof (digits2_bounds mx) as [_ Hbx].
    pose proof (digits2_bounds my) as [_ Hby].
    assert (Hpx : 0 < 2 ^ (ex - ez)) by (apply Z.pow_pos_nonneg; unfold ez; lia).
    assert (Hpy : 0 < 2 ^ (ey - ez)) by (apply Z.pow_pos_nonneg; unfold ez; lia).
    assert (HX : X < 2 ^ (a - ez)).
    { apply Z.lt_le_trans with (2 ^ (Zpos (digits2_pos mx) + (ex - ez))).
      - rewrite Z.pow_add_r by (unfold ez; lia). nia.
      - apply Z.pow_le_mono_r; lia. }
    assert (HY : Y < 2 ^ (a - ez)).
    { apply Z.lt_le_trans with (2 ^ (Zpos (digits2_pos my) + (ey - ez))).
      - rewrite Z.pow_add_r by (unfold ez; lia). nia.
      - apply Z.pow_le_mono_r; lia. }
    assert (Haez : 0 <= a - ez) by (unfold ez; lia).
    assert (Hsum : X + Y < 2 ^ (a - ez + 1)).
    { rewrite Z.pow_add_r by lia. change (2 ^ 1) with 2. lia. }
    assert (Hmag : forall p : positive,
               Zpos p <= X + Y -> Zpos (digits2_pos p) + ez <= a + 1).
    { intros p Hp. pose proof (Zdigits2_lt (Zpos p) (a - ez + 1) ltac:(lia) ltac:(lia)).
      cbn [Zdigits2] in H. lia. }
    assert (HXp : 0 < X) by (unfold X; lia).
    assert (HYp : 0 < Y) by (unfold Y; lia).
    unfold binary_normalize.
    destruct (cond_Zopp sx X - cond_Zopp sy Y) as [|p|p] eqn:Ed; [exact I| |];
      (replace (a + 2) with (a + 1 + 1) by lia;
       apply binary_round_below; [apply Hmag | exact Hmin | exact Hmax]);
      destruct sx, sy; cbn [cond_Zopp] in Ed; lia.
Qed.

(** A double below [2^k], for [k] up to 31, converts to [int]. *)
Lemma to_int_below k x :
  0 <= k <= 31 -> below k x ->
  exists z, to_int x = Some z /\ - 2 ^ k < z < 2 ^ k.
Proof.
  intros Hk Hx. destruct (truncate_below k x ltac:(lia) Hx) as (z & Hz & Hr).
  exists z. split; [|exact Hr]. unfold to_int. rewrite Hz.
  assert (Hp : 2 ^ k <= 2 ^ 31) by (apply Z.pow_le_mono_r; lia).
  unfold INT_MIN, INT_MAX.
  destruct (Z.leb_spec (- 2 ^ 31) z), (Z.leb_spec z (2 ^ 31 - 1)); try lia.
  reflexivity.
Qed.

(** A percentage is a number, not negative and below 128: it is 0, or
    100, or a quotient that is not above 100. *)
Lemma percentage_below tr :
  progress_tracker.counters_fit tr ->
  nonneg (progress_tracker.percentage tr) = true /\
  below 7 (progress_tracker.percentage tr).
Proof.
  intros [Hc Ht]. unfold progress_tracker.percentage.
  destruct (Z.eqb_spec (progress_tracker.total_ tr) 0) as [|H0];
    [split; [reflexivity | exact I]|].
  set (q := div (mul d100 (of_Z (progress_tracker.current_ tr)))
                (of_Z (progress_tracker.total_ tr))).
  assert (Hx : nonneg (mul d100 (of_Z (progress_tracker.current_ tr))) = true).
  { apply mul_nonneg; [reflexivity|]. apply of_Z_nonneg. lia. }
  assert (Hy : finite_pos (of_Z (progress_tracker.total_ tr)) = true)
    by (apply of_Z_finite_pos; lia).
  pose proof (div_nonneg _ _ Hx Hy) as Hq. fold q in Hq.
  pose proof (div_short _ _ Hx Hy) as Hs. fold q in Hs.
  unfold Double.min.
  destruct (ltb d100 q) eqn:Hlt; [split; [reflexivity | vm_compute; discriminate]|].
  split; [exact Hq|].
  destruct q as [s|s| |s m e]; [exact I | | discriminate Hq |].
  - destruct s; [discriminate Hq | discriminate Hlt].
  - destruct s; [discriminate Hq|].
    cbn [below]. cbn [short] in Hs. unfold prec in Hs.
    change d100 with (S754_finite false 7036874417766400 (-46)) in Hlt.
    unfold ltb, SFltb, SFcompare in Hlt.
    destruct (Z.compare_spec (-46) e) as [He|He|He]; try discriminate Hlt; lia.
Qed.

(** The two conversions to [int] in [render] are defined for a percentage
    below 128 and a width below 2^19. *)
Lemma bar_cells_defined p width :
  nonneg p = true -> below 7 p -> 0 <= width < 2 ^ 19 ->
  exists cells, bar_cells p width = Some cells.
Proof.
  intros Hp Hb Hw. unfold bar_cells.
  assert (Hq : below 2 (div p d100)).
  { change d100 with (S754_finite false 7036874417766400 (-46)).
    replace 2 with (7 - 7 + 2) by lia.
    apply div_below; [exact Hb | vm_compute; discriminate | |];
      unfold emin, prec, emax; lia. }
  assert (Hwd : below 20 (of_Z width)).
  { replace 20 with (19 + 1) by lia. apply of_Z_below; [exact Hw|].
    unfold prec, emax; lia. }
  assert (Hf : below 23 (mul (div p d100) (of_Z width))).
  { replace 23 with (2 + 20 + 1) by lia.
    apply mul_below; [exact Hq | exact Hwd | |]; unfold emin, prec, emax; lia. }
  destruct (to_int_below 23 _ ltac:(lia) Hf) as (whole & Hwhole & Hr).
  rewrite Hwhole.
  pose proof (fills_nonneg p width whole Hp (proj1 Hw) Hwhole) as Hw0.
  destruct (whole <? int_of_size width); [|eauto].
  assert (Hwh : below 24 (of_Z whole)).
  { replace 24 with (23 + 1) by lia. apply of_Z_below; [lia|].
    unfold prec, emax; lia. }
  assert (Hfr : below 26 (sub (mul (div p d100) (of_Z width)) (of_Z whole))).
  { replace 26 with (24 + 2) by lia.
    apply sub_below; [apply (below_mono 23); [lia | exact Hf] | exact Hwh | |];
      unfold emin, prec, emax; lia. }
  assert (H8 : below 31 (mul (sub (mul (div p d100) (of_Z width)) (of_Z whole)) d8)).
  { replace 31 with (26 + 4 + 1) by lia.
    apply mul_below; [exact Hfr | vm_compute; discriminate | |];
      unfold emin, prec, emax; lia. }
  destruct (to_int_below 31 _ ltac:(lia) H8) as (fi & Hfi & _).
  rewrite Hfi. eauto.
Qed.

End BarConversions.

(** ** The width of the bar *)

Section BarWidth.

Import bar_display.

(** X20. The bar is as wide as it is set to be. For every tracker whose counters
    [std::size_t] holds, and every width below 2^19, both conversions to
    [int] in [render] are defined, and the cells drawn for the tracker's
    percentage are full cells first, then (unless the bar is full) one cell
    for the fraction, with an index clamped into the nine blocks, then
    empty cells: [width_] cells in all, each an index of the theme's array.
    In each of the four themes a cell is one character, so the text between
    the brackets is [width_] characters long. *)
Theorem bar_fills_the_width :
  forall (tr : progress_tracker.t) (width : Z),
    progress_tracker.counters_fit tr ->
    0 <= width < 2 ^ 19 ->
    exists cells : list nat,
      bar_cells (progress_tracker.percentage tr) width = Some cells /\
      length cells = Z.to_nat width /\
      Forall (fun k => (k <= 8)%nat) cells /\
      (exists (full : nat) (rest : list nat),
          cells = replicate full 8%nat ++ rest /\
          (rest = [] \/
           exists k, (k <= 8)%nat /\
                     rest = k :: replicate (length rest - 1) 0%nat)) /\
      (forall th, In th themes ->
                  String.length (bar_text th cells) = Z.to_nat width).
Proof.
  intros tr width Hfit Hw.
  destruct (percentage_below tr Hfit) as [Hp Hb].
  destruct (bar_cells_defined _ width Hp Hb Hw) as [cells Hcells].
  exists cells. split; [exact Hcells|].
  assert (Hw' : 0 <= width <= INT_MAX) by (unfold INT_MAX; lia).
  destruct (bar_cells_shape _ _ _ Hp Hw' Hcells) as (Hlen & Hall & Hshape).
  repeat (split; [assumption|]).
  intros th Hth. rewrite bar_text_length by assumption. exact Hlen.
Qed.

Lemma bar_fills_the_width_witness :
  let tr := progress_tracker.advance 25 0 (progress_tracker.create 100 0) in
  (progress_tracker.counters_fit tr /\ 0 <= 40 < 2 ^ 19) /\
  bar_cells (progress_tracker.percentage tr) 40
  = Some (replicate 10 8%nat ++ 0%nat :: replicate 29 0%nat) /\
  exists cells,
    bar_cells (progress_tracker.percentage tr) 40 = Some cells /\
    length cells = 40%nat /\
    String.length (bar_text ascii cells) = 40%nat.
Proof.
  cbv zeta.
  assert (Hfit : progress_tracker.counters_fit
                   (progress_tracker.advance 25 0 (progress_tracker.create 100 0)))
    by (vm_compute; repeat split; discriminate).
  assert (Hw : 0 <= 40 < 2 ^ 19) by lia.
  split; [split; [exact Hfit | exact Hw]|].
  split; [vm_compute; reflexivity|].
  destruct (bar_fills_the_width _ 40 Hfit Hw)
    as (cells & Hcells & Hlen & _ & _ & Htext).
  exists cells. split; [exact Hcells|]. split; [exact Hlen|].
  apply Htext. unfold themes. simpl. auto.
Defined.

End BarWidth.

(** ** Doubles: small integers convert exactly *)

Section DoubleExact.

Import bar_display.

(** A mantissa of 53 digits at a normal exponent is not rounded. *)
Lemma round_canonical m e :
  digits2_pos m = 53%positive -> -1074 <= e <= 971 ->
  binary_round_aux prec emax false (Zpos m) e loc_Exact = S754_finite false m e.
Proof.
  intros Hd He. unfold binary_round_aux, shr_fexp. cbn [Zdigits2]. rewrite Hd.
  assert (Hf : fexp prec emax (53 + e) - e = 0).
  { unfold fexp, SpecFloat.emin, prec, emax. lia. }
  rewrite Hf.
  cbn [shr shr_record_of_loc loc_of_shr_record shr_m round_nearest_even].
  cbn [Zdigits2]. rewrite Hd, Hf. cbn [shr shr_m].
  replace (e <=? emax - prec) with true
    by (symmetry; apply Z.leb_le; unfold emax, prec; lia).
  reflexivity.
Qed.

Lemma iter_xO_pow p k : Zpos (Pos.iter xO p k) = Zpos p * 2 ^ Zpos k.
Proof.
  induction k as [|k IH] using Pos.peano_ind.
  - simpl. lia.
  - rewrite Pos.iter_succ, Pos2Z.inj_xO, IH, Pos2Z.inj_succ, Z.pow_succ_r by lia.
    lia.
Qed.

(** The double of an integer below 2^53: a mantissa of 53 digits that holds
    the integer, shifted. *)
Lemma of_Z_canonical w :
  0 < w < 2 ^ 53 ->
  exists m e,
    of_Z w = S754_finite false m e /\
    digits2_pos m = 53%positive /\ -52 <= e <= 0 /\
    Zpos m = w * 2 ^ (- e).
Proof.
  intros [H0 H53]. destruct w as [|p|p]; try lia.
  unfold of_Z, binary_normalize, binary_round, shl_align.
  pose proof (digits2_bounds p) as [Hlo Hhi].
  set (d := Zpos (digits2_pos p)) in *.
  assert (Hd : 1 <= d <= 53).
  { split; [unfold d; lia|].
    destruct (Z_le_gt_dec d 53) as [|Hgt]; [assumption|].
    assert (2 ^ 53 <= 2 ^ (d - 1)) by (apply Z.pow_le_mono_r; lia). lia. }
  assert (Hfexp : fexp prec emax (d + 0) = d - 53).
  { unfold fexp, SpecFloat.emin, prec, emax. lia. }
  rewrite Hfexp.
  destruct (d - 53 - 0) as [|k|k] eqn:Hk; try lia.
  - exists p, 0. split; [|split; [|split]]; try lia.
    apply round_canonical; [|lia]. apply Pos2Z.inj. fold d. lia.
  - exists (Pos.iter xO p k), (d - 53).
    assert (Hdig : digits2_pos (Pos.iter xO p k) = 53%positive).
    { rewrite digits2_shift. apply Pos2Z.inj. rewrite Pos2Z.inj_add. fold d. lia. }
    split; [|split; [exact Hdig|split; [lia|]]].
    + apply round_canonical; [exact Hdig | lia].
    + rewrite iter_xO_pow. f_equal. f_equal. lia.
Qed.

(** Converted to a double and back, an integer below 2^53 is itself. *)
Lemma truncate_of_Z w : 0 <= w < 2 ^ 53 -> truncate (of_Z w) = Some w.
Proof.
  intros [H0 H53]. destruct (Z.eq_dec w 0) as [->|Hne]; [reflexivity|].
  destruct (of_Z_canonical w ltac:(lia)) as (m & e & -> & _ & He & Hm).
  unfold truncate. cbn [cond_Zopp]. f_equal.
  destruct e as [|q|q]; try lia.
  - rewrite Z.shiftl_0_r, Hm. simpl. lia.
  - rewrite Z.shiftr_div_pow2 by lia. rewrite Hm.
    replace (- Zneg q) with (Zpos q) by lia.
    apply Z.div_mul. apply Z.pow_nonzero; lia.
Qed.

(** Multiplying by 1.0 changes no normal number. *)
Lemma mul_one_l m e :
  digits2_pos m = 53%positive -> -1022 <= e <= 971 ->
  mul (S754_finite false 4503599627370496 (-52)) (S754_finite false m e)
  = S754_finite false m e.
Proof.
  intros Hd He. unfold mul, SFmul. cbn [xorb].
  replace (4503599627370496 * m)%positive with (Pos.iter xO m 52) by reflexivity.
  cbv [Pos.iter].
  unfold binary_round_aux, shr_fexp. cbn [Zdigits2 digits2_pos]. rewrite Hd.
  cbv [Pos.succ].
  replace (fexp prec emax (105 + (-52 + e)) - (-52 + e)) with 52
    by (unfold fexp, SpecFloat.emin, prec, emax; lia).
  cbn [shr shr_record_of_loc]. cbn [SpecFloat.iter_pos shr_1 orb].
  cbn [loc_of_shr_record shr_m round_nearest_even].
  cbn [Zdigits2]. rewrite Hd.
  replace (-52 + e + 52) with e by lia.
  replace (fexp prec emax (53 + e) - e) with 0
    by (unfold fexp, SpecFloat.emin, prec, emax; lia).
  cbn [shr shr_m].
  replace (e <=? emax - prec) with true
    by (symmetry; apply Z.leb_le; unfold emax, prec; lia).
  reflexivity.
Qed.

Lemma to_int_of_Z w : 0 <= w <= INT_MAX -> to_int (of_Z w) = Some w.
Proof.
  intros Hw. unfold to_int. unfold INT_MAX in Hw.
  rewrite truncate_of_Z by lia.
  replace ((INT_MIN <=? w) && (w <=? INT_MAX)) with true; [reflexivity|].
  symmetry. apply andb_true_intro. unfold INT_MIN, INT_MAX.
  split; apply Z.leb_le; lia.
Qed.

(** A tracker that has not been advanced is at 0 percent, whatever its
    total. *)
Lemma percentage_fresh total now :
  progress_tracker.percentage (progress_tracker.create total now) = zero.
Proof.
  unfold progress_tracker.percentage, progress_tracker.create.
  cbn [progress_tracker.total_ progress_tracker.current_].
  destruct (Z.eqb_spec (wrap64 total) 0) as [|Hne]; [reflexivity|].
  pose proof (wrap64_range total) as Hr.
  pose proof (of_Z_finite_pos (wrap64 total) ltac:(lia)) as Hpos.
  change (mul d100 (of_Z 0)) with zero.
  destruct (of_Z (wrap64 total)) as [| | |[] m e]; try discriminate Hpos.
  reflexivity.
Qed.

(** X21. The bar at its two ends. At a percentage of 0 every cell of the bar
    is the empty block, and at a percentage of 100 every cell is the full
    block, for every width that [int] holds: the fraction of the width is
    computed without a rounding error there, and the conversions to [int]
    are defined. A tracker that has not been advanced is at 0 percent, so
    the first render of a bar draws it empty. *)
Theorem bar_at_the_ends :
  forall width : Z,
    0 <= width <= INT_MAX ->
    bar_cells zero width = Some (replicate (Z.to_nat width) 0%nat) /\
    bar_cells d100 width = Some (replicate (Z.to_nat width) 8%nat) /\
    (forall total now,
        bar_cells (progress_tracker.percentage
                     (progress_tracker.create total now)) width
        = Some (replicate (Z.to_nat width) 0%nat)).
Proof.
  intros width Hw.
  cut (bar_cells zero width = Some (replicate (Z.to_nat width) 0%nat) /\
       bar_cells d100 width = Some (replicate (Z.to_nat width) 8%nat)).
  { intros [H0 H100]. split; [exact H0|]. split; [exact H100|].
    intros total now. rewrite percentage_fresh. exact H0. }
  pose proof Hw as Hw'. unfold INT_MAX in Hw'.
  unfold bar_cells. rewrite int_of_size_small by exact Hw.
  destruct (Z.eq_dec width 0) as [->|Hne]; [split; reflexivity|].
  destruct (of_Z_canonical width ltac:(lia)) as (m & e & Hof & Hd & He & Hm).
  split.
  - rewrite Hof.
    change (mul (div zero d100) (S754_finite false m e)) with zero.
    change (to_int zero) with (Some 0). cbv beta iota zeta.
    replace (0 <? width) with true by (symmetry; apply Z.ltb_lt; lia).
    change (to_int (mul (sub zero (of_Z 0)) d8)) with (Some 0).
    cbv beta iota zeta.
    replace (Z.min 0 width) with 0 by lia.
    change (Z.to_nat (if 8 <? (if 0 <? 0 then 0 else 0) then 8
                      else if 0 <? 0 then 0 else 0)) with 0%nat.
    change (replicate (Z.to_nat 0) 8%nat) with (@nil nat).
    replace (Z.to_nat width) with (S (Z.to_nat (width - (0 + 1)))) by lia.
    reflexivity.
  - change (div d100 d100) with (S754_finite false 4503599627370496 (-52)).
    rewrite Hof, mul_one_l by (try exact Hd; lia).
    rewrite <- Hof, to_int_of_Z by exact Hw. cbv beta iota zeta.
    rewrite Z.ltb_irrefl, Z.min_id. reflexivity.
Qed.

Lemma bar_at_the_ends_witness :
  0 <= 40 <= INT_MAX /\
  bar_cells d100 40 = Some (replicate 40 8%nat).
Proof.
  split; [vm_compute; split; discriminate|].
  apply (proj2 (bar_at_the_ends 40 ltac:(vm_compute; split; discriminate))).
Defined.

End DoubleExact.

(** ** The benchmark's batch loop *)

Section Benchmark.

Import progress_bar benchmark.

Lemma batch_loop_unfold fuel tty env iterations batch i k b :
  batch_loop (S fuel) tty env iterations batch i k b
  = if i <? iterations then
      let '(b1, l1) := advance tty batch (env k) b in
      match batch_loop fuel tty env iterations batch (wrap64 (i + batch)) (S k) b1 with
      | Some (b2, l2) => Some (b2, l1 ++ l2)
      | None => None
      end
    else Some (b, []).
Proof. reflexivity. Qed.

Lemma batch_loop_done fuel tty env iterations batch i k b :
  iterations <= i ->
  batch_loop fuel tty env iterations batch i k b = Some (b, []).
Proof.
  intros H. destruct fuel; cbn [batch_loop];
    replace (i <? iterations) with false by (symmetry; apply Z.ltb_ge; lia);
    reflexivity.
Qed.

(** The loop with [r] rounds to go is a run of [r] calls of
    [advance(batch)]. *)
Lemma batch_loop_runs tty env iterations batch (r : nat) :
  forall (extra : nat) (i : Z) (k : nat) (b : t),
    0 < batch -> 0 <= i -> iterations + batch <= 2 ^ 64 ->
    i + (Z.of_nat r - 1) * batch < iterations \/ r = 0%nat ->
    iterations <= i + Z.of_nat r * batch ->
    batch_loop (r + extra) tty env iterations batch i k b
    = Some (advances tty (map (fun j => (batch, env j)) (seq k r)) b).
Proof.
  induction r as [|r IH]; intros extra i k b Hb Hi Hfit Hlo Hhi.
  - rewrite batch_loop_done by lia. reflexivity.
  - change (S r + extra)%nat with (S (r + extra)). rewrite batch_loop_unfold.
    assert (Hlt : i < iterations) by nia.
    replace (i <? iterations) with true by (symmetry; apply Z.ltb_lt; exact Hlt).
    cbn [seq map]. rewrite advances_cons.
    destruct (advance tty batch (env k) b) as [b1 l1]. cbn [fst snd].
    rewrite wrap64_small by lia.
    rewrite (IH extra (i + batch) (S k) b1) by (try lia; try nia).
    destruct (advances tty _ b1). reflexivity.
Qed.

Lemma sum_batches {A} (f : A -> oracle) (batch : Z) (l : list A) :
  tracker_threads.sum
    (map fst (bar_members.tracker_calls (map (fun j => (batch, f j)) l)))
  = Z.of_nat (length l) * batch.
Proof.
  unfold bar_members.tracker_calls. rewrite !map_map. cbn [fst snd].
  induction l as [|x l IH]; [reflexivity|].
  cbn [map length].
  change (tracker_threads.sum (batch :: ?t)) with (batch + tracker_threads.sum t).
  rewrite IH. lia.
Qed.

(** X23. The batch benchmark overshoots by less than a batch. For every number
    of iterations that leaves [std::size_t] room for one more batch, the
    loop ends within [iterations / batch_size] rounds, rounded up, and
    leaves the counter at that many batches: at least the total,
    [iterations], and less than one batch above it, and equal to it when
    [batch_size] divides [iterations] and only then. [finish] then
    dispatches the one terminal render, on a terminal. *)
Theorem batch_benchmark_overshoots :
  forall (tty : bool) (env : nat -> oracle) (iterations now : Z) (extra : nat),
    0 <= iterations ->
    iterations + batch_size iterations <= 2 ^ 64 ->
    exists (b : t) (log : list event),
      batch_advance (Z.to_nat (rounds iterations) + extra) tty env iterations now
      = Some (b, log) /\
      bar_members.total b = iterations /\
      bar_members.current b = rounds iterations * batch_size iterations /\
      iterations <= bar_members.current b < iterations + batch_size iterations /\
      (bar_members.current b = bar_members.total b
       <-> iterations mod batch_size iterations = 0) /\
      finished_ b = true /\
      finishes log = (if tty then 1 else 0)%nat.
Proof.
  intros tty env iterations now extra Hi Hfit.
  set (batch := batch_size iterations) in *.
  assert (Hb : 0 < batch) by (unfold batch, batch_size; lia).
  set (r := rounds iterations).
  assert (Hr : 0 <= r /\ (r - 1) * batch < iterations <= r * batch).
  { unfold r, rounds. fold batch.
    pose proof (Z.div_mod (iterations + batch - 1) batch ltac:(lia)) as Hdm.
    pose proof (Z.mod_pos_bound (iterations + batch - 1) batch Hb) as Hm.
    assert (0 <= (iterations + batch - 1) / batch) by (apply Z.div_pos; lia).
    split; [assumption|]. nia. }
  unfold batch_advance, create.
  set (b0 := mk (Some (progress_tracker.create iterations now)) (Some bar_display)
                false 0 None).
  fold batch.
  rewrite (batch_loop_runs tty env iterations batch (Z.to_nat r) extra 0 0 b0 Hb
             ltac:(lia) Hfit)
    by (rewrite ?Z2Nat.id by lia; lia).
  set (calls := map (fun j => (batch, env j)) (seq 0 (Z.to_nat r))).
  pose proof (advances_tracker tty calls b0) as Ht.
  pose proof (advances_display tty calls b0) as Hd.
  pose proof (advances_finished tty calls b0) as Hf.
  pose proof (advances_no_finish tty calls b0) as Hnf.
  destruct (advances tty calls b0) as [b1 l1]. cbn [fst snd] in *.
  cbn [b0 tracker_ option_map display_ finished_] in Ht, Hd, Hf.
  set (trk := tracker_history.advance_all (bar_members.tracker_calls calls)
                (progress_tracker.create iterations now)) in *.
  assert (Hcur : progress_tracker.current_ trk = r * batch).
  { unfold trk. rewrite advance_all_counter by reflexivity.
    unfold calls. rewrite sum_batches, length_seq, Z2Nat.id by lia.
    cbn [progress_tracker.create progress_tracker.current_].
    apply wrap64_small. lia. }
  assert (Htot : progress_tracker.total_ trk = iterations).
  { unfold trk. rewrite advance_all_total.
    cbn [progress_tracker.create progress_tracker.total_].
    apply wrap64_small. unfold batch, batch_size in *. lia. }
  unfold finish. rewrite Hf, Ht, Hd.
  destruct tty; cbn [fst snd]; (eexists; eexists; split; [reflexivity|]);
    unfold bar_members.total, bar_members.current; cbn [tracker_ finished_];
    unfold progress_tracker.total, progress_tracker.current;
    rewrite Htot, Hcur;
    (split; [reflexivity|]); (split; [reflexivity|]);
    (split; [lia|]);
    (split;
     [split; intros H;
      [ rewrite <- H; apply Z.mod_mul; lia
      | apply Z.mod_divide in H; [|lia]; destruct H as [q Hq];
        assert (q <= r) by (apply (Z.mul_le_mono_pos_r q r batch Hb); lia);
        assert (r - 1 < q) by (apply (Z.mul_lt_mono_pos_r batch (r - 1) q Hb); lia);
        assert (q = r) as -> by lia; lia ]|]);
    (split; [reflexivity|]);
    rewrite !finishes_app, Hnf; reflexivity.
Qed.

Lemma batch_benchmark_overshoots_witness :
  let env := fun _ : nat => mk_oracle 1000000 40000000 true in
  (0 <= 2501 /\ 2501 + batch_size 2501 <= 2 ^ 64) /\
  exists (b : t) (log : list event),
    batch_advance (Z.to_nat (rounds 2501)) true env 2501 0 = Some (b, log) /\
    bar_members.current b = 2502 /\ bar_members.total b = 2501.
Proof.
  cbv zeta. split; [vm_compute; split; discriminate|].
  destruct (batch_benchmark_overshoots true
              (fun _ : nat => mk_oracle 1000000 40000000 true) 2501 0 0
              ltac:(lia) ltac:(vm_compute; discriminate))
    as (b & log & Hrun & Htot & Hcur & _).
  exists b, log. rewrite Nat.add_0_r in Hrun.
  split; [exact Hrun|]. split; [exact Hcur | exact Htot].
Defined.

End Benchmark.
